(** * Glommio core: SPSC ring, task arena and timers

    A shallow embedding of

    - [src/glommio/src/channels/spsc_queue.rs]   ([Buffer], [inner_make])
    - [src/glommio/src/task/arena.rs]            ([TaskArena])
    - [src/glommio/src/timer/timing_wheel.rs]    ([TimingWheel])
    - [src/glommio/src/timer/staged_wheel.rs]    ([StagedWheel])
    - [src/glommio/src/timer/reactor_adapter.rs] ([ReactorTimers])
    - [src/glommio/src/timer/timer_id.rs]        ([TimerId])

    [usize]/[u64] values are [Z] with their wrap-around written out;
    a Rust panic (failed index, failed assertion) is [None] in an
    [option] result.  Single-threaded: atomics are plain fields. *)

From Stdlib Require Import ZArith Lia List Permutation Bool Sorted.
From stdpp Require Import base list gmap.

Open Scope Z_scope.

(** ** Machine words *)

Definition two64 : Z := 2 ^ 64.
Definition usize_max : Z := two64 - 1.

(** [a.wrapping_add(b)] on [usize]/[u64]. *)
Definition wrapping_add (a b : Z) : Z := (a + b) mod two64.

(** The least power of two [>= x], as a mathematical integer: above
    [2^63] it is [2^64], which [usize::next_power_of_two] cannot return
    (see [Spsc.inner_make]). *)
Definition next_power_of_two (x : Z) : Z :=
  if x <=? 1 then 1 else 2 ^ (Z.log2 (x - 1) + 1).

(** [Ord::clamp]. *)
Definition clamp (x lo hi : Z) : Z :=
  if x <? lo then lo else if hi <? x then hi else x.

(** ** SPSC ring ([channels/spsc_queue.rs]) *)

Module Spsc.
Section Ring.
Context {T : Type}.

(** A [Slot<T>]: [has_value] together with the value it guards. *)
Definition slot := option T.

Record buffer := mk_buffer {
  buffer_storage : list slot;
  capacity : Z;
  mask : Z;
  lookahead : Z;
  (* ProducerCacheline *)
  tail : Z;
  limit : Z;
  consumer_id : Z;
  (* ConsumerCacheline *)
  head : Z;
  producer_id : Z
}.

Definition MAX_LOOKAHEAD : Z := 2 ^ 12.

(** [self.buffer_storage[i]]; out of range is a panic. *)
Definition get_slot (b : buffer) (i : Z) : option slot :=
  if (0 <=? i) then buffer_storage b !! Z.to_nat i else None.

Definition set_slot (b : buffer) (i : Z) (s : slot) : buffer :=
  {| buffer_storage := <[Z.to_nat i := s]> (buffer_storage b);
     capacity := capacity b; mask := mask b; lookahead := lookahead b;
     tail := tail b; limit := limit b; consumer_id := consumer_id b;
     head := head b; producer_id := producer_id b |}.

Definition set_tail (b : buffer) (t : Z) : buffer :=
  {| buffer_storage := buffer_storage b;
     capacity := capacity b; mask := mask b; lookahead := lookahead b;
     tail := t; limit := limit b; consumer_id := consumer_id b;
     head := head b; producer_id := producer_id b |}.

Definition set_limit (b : buffer) (l : Z) : buffer :=
  {| buffer_storage := buffer_storage b;
     capacity := capacity b; mask := mask b; lookahead := lookahead b;
     tail := tail b; limit := l; consumer_id := consumer_id b;
     head := head b; producer_id := producer_id b |}.

Definition set_head (b : buffer) (h : Z) : buffer :=
  {| buffer_storage := buffer_storage b;
     capacity := capacity b; mask := mask b; lookahead := lookahead b;
     tail := tail b; limit := limit b; consumer_id := consumer_id b;
     head := h; producer_id := producer_id b |}.

Definition set_consumer_id (b : buffer) (c : Z) : buffer :=
  {| buffer_storage := buffer_storage b;
     capacity := capacity b; mask := mask b; lookahead := lookahead b;
     tail := tail b; limit := limit b; consumer_id := c;
     head := head b; producer_id := producer_id b |}.

Definition set_producer_id (b : buffer) (p : Z) : buffer :=
  {| buffer_storage := buffer_storage b;
     capacity := capacity b; mask := mask b; lookahead := lookahead b;
     tail := tail b; limit := limit b; consumer_id := consumer_id b;
     head := head b; producer_id := p |}.

(** [inner_make(capacity, initial_value)] in a debug ([dbg = true]) or a
    release build; [make] uses [initial_value = 0].  Above [2^63],
    [capacity.next_power_of_two()] overflows: a debug build panics
    ([None]), a release build wraps the result to [0], so that
    [capacity - 1] wraps to [usize::MAX] and [allocate_buffer] makes no
    slot. *)
Definition inner_make (dbg : bool) (cap initial_value : Z) : option buffer :=
  if dbg && (2 ^ 63 <? cap) then None
  else
    let capacity := next_power_of_two cap mod two64 in
    Some {| buffer_storage := replicate (Z.to_nat capacity) None;
            capacity := capacity;
            mask := (capacity - 1) mod two64;
            lookahead := clamp (capacity / 4) 1 MAX_LOOKAHEAD;
            tail := initial_value; limit := initial_value; consumer_id := 0;
            head := initial_value; producer_id := 0 |}.

Definition make (dbg : bool) (cap : Z) : option buffer := inner_make dbg cap 0.

Definition consumer_disconnected (b : buffer) : bool :=
  consumer_id b =? usize_max.

Definition producer_disconnected (b : buffer) : bool :=
  producer_id b =? usize_max.

(** [Buffer::try_pop]. *)
Definition try_pop (b : buffer) : option (option T * buffer) :=
  let h := head b in
  match get_slot b (Z.land h (mask b)) with
  | None => None
  | Some None => Some (None, b)
  | Some (Some v) =>
      Some (Some v, set_head (set_slot b (Z.land h (mask b)) None) (wrapping_add h 1))
  end.

(** The tail of [Buffer::try_push], after the limit check. *)
Definition push_commit (b : buffer) (t : Z) (v : T) : option (option T * buffer) :=
  match get_slot b (Z.land t (mask b)) with
  | None => None
  | Some _ => Some (None, set_tail (set_slot b (Z.land t (mask b)) (Some v)) (wrapping_add t 1))
  end.

(** [Buffer::try_push]: [Some v] gives the value back. *)
Definition try_push (b : buffer) (v : T) : option (option T * buffer) :=
  if consumer_disconnected b then Some (Some v, b)
  else
    let t := tail b in
    let l := limit b in
    if t =? l then
      let idx := wrapping_add t (lookahead b) in
      match get_slot b (Z.land idx (mask b)) with
      | None => None
      | Some None => push_commit (set_limit b idx) t v
      | Some (Some _) =>
          match get_slot b (Z.land t (mask b)) with
          | None => None
          | Some (Some _) => Some (Some v, b)
          | Some None => push_commit (set_limit b (wrapping_add t 1)) t v
          end
      end
    else push_commit b t v.

(** [disconnect_consumer] / [disconnect_producer] return whether the side
    was already disconnected. *)
Definition disconnect_consumer (b : buffer) : bool * buffer :=
  (consumer_id b =? usize_max, set_consumer_id b usize_max).

Definition disconnect_producer (b : buffer) : bool * buffer :=
  (producer_id b =? usize_max, set_producer_id b usize_max).

(** [BufferHalf::connect] of the producer and of the consumer (with their
    [assert_ne!]s). *)
Definition connect_producer (b : buffer) (id : Z) : option buffer :=
  if (id =? 0) || (id =? usize_max) then None else Some (set_producer_id b id).

Definition connect_consumer (b : buffer) (id : Z) : option buffer :=
  if (id =? usize_max) || (id =? 0) then None else Some (set_consumer_id b id).

(** Operations of a single-threaded interleaving on one ring. *)
Inductive op :=
| Push (v : T)
| Pop
| DisconnectProducer
| DisconnectConsumer
| ConnectProducer (id : Z)
| ConnectConsumer (id : Z).

(** The log of a run: the values of the successful pushes and pops. *)
Record log := mk_log { pushed : list T; popped : list T }.

Definition step (b : buffer) (lg : log) (o : op) : option (buffer * log) :=
  match o with
  | Push v =>
      match try_push b v with
      | None => None
      | Some (None, b') => Some (b', mk_log (pushed lg ++ [v]) (popped lg))
      | Some (Some _, b') => Some (b', lg)
      end
  | Pop =>
      match try_pop b with
      | None => None
      | Some (Some v, b') => Some (b', mk_log (pushed lg) (popped lg ++ [v]))
      | Some (None, b') => Some (b', lg)
      end
  | DisconnectProducer => Some (snd (disconnect_producer b), lg)
  | DisconnectConsumer => Some (snd (disconnect_consumer b), lg)
  | ConnectProducer id => option_map (fun b' => (b', lg)) (connect_producer b id)
  | ConnectConsumer id => option_map (fun b' => (b', lg)) (connect_consumer b id)
  end.

Fixpoint run (b : buffer) (lg : log) (os : list op) : option (buffer * log) :=
  match os with
  | [] => Some (b, lg)
  | o :: os' => match step b lg o with
                | None => None
                | Some (b', lg') => run b' lg' os'
                end
  end.

(** The values stored in the ring, from [head] to [tail]. *)
Definition occupancy (b : buffer) : Z := (tail b - head b) mod two64.

Definition contents (b : buffer) : list T :=
  flat_map (fun k => match get_slot b (Z.land (wrapping_add (head b) (Z.of_nat k)) (mask b)) with
                     | Some (Some v) => [v]
                     | _ => []
                     end)
           (seq 0 (Z.to_nat (occupancy b))).

(** [Buffer::size]: [min(capacity, tail.saturating_sub(head))]. *)
Definition size (b : buffer) : Z := Z.min (capacity b) (Z.max 0 (tail b - head b)).

(** [Producer::free_space]: [capacity() - size()]. *)
Definition free_space (b : buffer) : Z := capacity b - size b.

End Ring.
Arguments buffer : clear implicits.
Arguments op : clear implicits.
Arguments log : clear implicits.
End Spsc.

(** The ring invariant: [q] is the sequence of values between [head] and
    [tail], the slot at offset [k] from [head] holds the [k]-th value of
    [q] (and nothing past [length q]), and the look-ahead [limit] never
    runs past [head + capacity]. *)
Record ring_inv {T} (b : Spsc.buffer T) (q : list T) : Prop := {
  ri_pow : exists k, 0 <= k <= 63 /\ Spsc.capacity b = 2 ^ k;
  ri_mask : Spsc.mask b = Spsc.capacity b - 1;
  ri_la : 1 <= Spsc.lookahead b <= Spsc.capacity b /\
          (Spsc.lookahead b = Spsc.capacity b -> Spsc.capacity b = 1);
  ri_len : length (Spsc.buffer_storage b) = Z.to_nat (Spsc.capacity b);
  ri_head : 0 <= Spsc.head b < two64;
  ri_limit : 0 <= Spsc.limit b < two64;
  ri_n : Z.of_nat (length q) <= Spsc.capacity b;
  ri_tail : Spsc.tail b = wrapping_add (Spsc.head b) (Z.of_nat (length q));
  ri_lim : Z.of_nat (length q) + (Spsc.limit b - Spsc.tail b) mod two64 <= Spsc.capacity b;
  ri_slots : forall k, 0 <= k < Spsc.capacity b ->
     Spsc.get_slot b ((Spsc.head b + k) mod Spsc.capacity b) = Some (q !! Z.to_nat k)
}.

(** The ring a release build makes for a capacity above [2^63]: no slot,
    capacity [0], and nothing between [head] and [tail]. *)
Definition zero_ring {T} (b : Spsc.buffer T) : Prop :=
  Spsc.buffer_storage b = [] /\ Spsc.capacity b = 0 /\
  Spsc.tail b = Spsc.head b /\ 0 <= Spsc.head b < two64.

(** ** Task arena ([task/arena.rs]) *)

Module Arena.

(** Debug builds ([dbg = true]) check [debug_assert!]s and arithmetic
    overflow (a failure is [None]); release builds skip the assertions and
    wrap. *)
Definition add_usize (dbg : bool) (x y : Z) : option Z :=
  if dbg && (two64 <=? x + y) then None else Some ((x + y) mod two64).

Definition sub_usize (dbg : bool) (x y : Z) : option Z :=
  if dbg && (x - y <? 0) then None else Some ((x - y) mod two64).

Definition SLOT_SIZE : Z := 1024.
Definition MAX_TASK_SIZE : Z := SLOT_SIZE.
Definition MAX_ALIGN : Z := 64.
Definition SLOT_CAPACITY : Z := 100000.
Definition FREE_LIST_END : Z := 2 ^ 32 - 1.

(** [TaskArena]: [memory] is the base address of the block; [cells] holds
    the [u32] words the free list stores at slot addresses. *)
Record arena := mk_arena {
  memory : Z;
  arena_capacity : Z;
  free_head : Z;
  cells : gmap Z Z;
  arena_allocs : Z;
  arena_deallocs : Z;
  heap_fallback_allocs : Z;
  active_slots : Z;
  peak_active : Z
}.

(** The loop of [initialize_free_list]: [slot[i] = i + 1] for
    [i in 0..n]; its debug assertions hold for every [i < SLOT_CAPACITY]. *)
Fixpoint link_slots (base : Z) (i : Z) (n : nat) (m : gmap Z Z) : gmap Z Z :=
  match n with
  | O => m
  | S n' => link_slots base (i + 1) n' (<[base + i * SLOT_SIZE := i + 1]> m)
  end.

Definition initialize_free_list (a : arena) : arena :=
  let base := memory a in
  let m := link_slots base 0 (Z.to_nat (SLOT_CAPACITY - 1)) (cells a) in
  let m := <[base + (SLOT_CAPACITY - 1) * SLOT_SIZE := FREE_LIST_END]> m in
  {| memory := base; arena_capacity := arena_capacity a; free_head := 0;
     cells := m; arena_allocs := arena_allocs a; arena_deallocs := arena_deallocs a;
     heap_fallback_allocs := heap_fallback_allocs a; active_slots := active_slots a;
     peak_active := peak_active a |}.

(** [TaskArena::new], the allocator having returned the block at [base]. *)
Definition new (base : Z) : arena :=
  initialize_free_list
    {| memory := base; arena_capacity := SLOT_CAPACITY * SLOT_SIZE;
       free_head := FREE_LIST_END; cells := ∅; arena_allocs := 0;
       arena_deallocs := 0; heap_fallback_allocs := 0; active_slots := 0;
       peak_active := 0 |}.

(** [try_allocate(layout)]: the slot address, or [None] for a full arena
    or an unsupported layout. *)
Definition try_allocate (dbg : bool) (size align : Z) (a : arena)
    : option (option Z * arena) :=
  if (MAX_TASK_SIZE <? size) || (MAX_ALIGN <? align) then Some (None, a) else
  let head := free_head a in
  if head =? FREE_LIST_END then Some (None, a) else
  let slot_index := head in
  if dbg && negb (slot_index <? SLOT_CAPACITY) then None else
  let offset := slot_index * SLOT_SIZE in
  if two64 <=? offset then None else                (* checked_mul().expect *)
  if dbg && negb (offset <? arena_capacity a) then None else
  let slot_ptr := memory a + offset in
  let next_free := default 0 (cells a !! slot_ptr) in
  if dbg && negb ((next_free =? FREE_LIST_END) || (next_free <? SLOT_CAPACITY)) then None else
  match add_usize dbg (arena_allocs a) 1, add_usize dbg (active_slots a) 1 with
  | Some allocs, Some active =>
      Some (Some slot_ptr,
            {| memory := memory a; arena_capacity := arena_capacity a;
               free_head := next_free; cells := cells a; arena_allocs := allocs;
               arena_deallocs := arena_deallocs a;
               heap_fallback_allocs := heap_fallback_allocs a;
               active_slots := active;
               peak_active := if peak_active a <? active then active else peak_active a |})
  | _, _ => None
  end.

(** [try_deallocate(ptr)].  Its safety contract admits only pointers
    returned by [try_allocate] (slot addresses) or by the heap (outside
    the block).  An in-range pointer that is not a slot address fails the
    [debug_assert_eq!] of a debug build; in a release build
    [*slot_ptr = *head] then writes a [u32] inside a slot, possibly
    unaligned and over the link word of the slot before it, which is
    undefined behaviour and has no outcome in this model of one word per
    slot address: [None] in both builds. *)
Definition try_deallocate (dbg : bool) (a : arena) (ptr : Z) : option (bool * arena) :=
  let start := memory a in
  match add_usize dbg start (arena_capacity a) with
  | None => None
  | Some end_ =>
  let addr := ptr in
  if (addr <? start) || (end_ <=? addr) then Some (false, a) else
  let offset := addr - start in
  let slot_index := offset / SLOT_SIZE in
  if negb (offset mod SLOT_SIZE =? 0) then None else
  if dbg && negb (slot_index <? SLOT_CAPACITY) then None else
  let head := free_head a in
  if dbg && negb ((head =? FREE_LIST_END) || (head <? SLOT_CAPACITY)) then None else
  let m := <[addr := head]> (cells a) in              (* *slot_ptr = *head *)
  let head' := slot_index mod 2 ^ 32 in               (* slot_index as u32 *)
  match add_usize dbg (arena_deallocs a) 1, sub_usize dbg (active_slots a) 1 with
  | Some deallocs, Some active =>
      Some (true,
            {| memory := start; arena_capacity := arena_capacity a;
               free_head := head'; cells := m; arena_allocs := arena_allocs a;
               arena_deallocs := deallocs;
               heap_fallback_allocs := heap_fallback_allocs a;
               active_slots := active; peak_active := peak_active a |})
  | _, _ => None
  end
  end.


(** [TaskArena::reset]: the counters are zeroed, then the free list is
    rebuilt. *)
Definition reset (a : arena) : arena :=
  initialize_free_list
    {| memory := memory a; arena_capacity := arena_capacity a; free_head := free_head a;
       cells := cells a; arena_allocs := 0; arena_deallocs := 0;
       heap_fallback_allocs := 0; active_slots := 0; peak_active := 0 |}.

End Arena.

(** ** Hierarchical timing wheel ([timer/timing_wheel.rs]) *)

Module TW.

(** An [Instant] is a number of nanoseconds; a [Waker] is an opaque
    token. *)
Definition NS_PER_MS : Z := 1000000.

Definition LEVEL_0_SLOTS : Z := 256.
Definition LEVEL_1_SLOTS : Z := 64.
Definition LEVEL_1_RESOLUTION_MS : Z := 256.
Definition LEVEL_2_SLOTS : Z := 64.
Definition LEVEL_2_RESOLUTION_MS : Z := 16384.
Definition LEVEL_3_SLOTS : Z := 64.
Definition LEVEL_3_RESOLUTION_MS : Z := 1048576.
Definition OVERFLOW_THRESHOLD_MS : Z := 67108864.

Record TimerEntry := mk_entry { id : Z; expires_at : Z; waker : Z }.

Record TimerLocation := mk_loc { level : nat; slot : nat; index_in_slot : nat }.

Record TimingWheel := mk_wheel {
  current_tick : Z;
  start_time : Z;
  next_id : Z;
  index : gmap Z TimerLocation;
  expired : list TimerEntry;
  slots_1ms : list (list TimerEntry);
  slots_256ms : list (list TimerEntry);
  slots_16s : list (list TimerEntry);
  slots_17min : list (list TimerEntry);
  (** [BTreeMap<Instant, Vec<TimerEntry>>]: keys strictly increasing. *)
  overflow : list (Z * list TimerEntry)
}.

(** Field updates. *)
Definition set_current_tick (w : TimingWheel) (t : Z) : TimingWheel :=
  mk_wheel t (start_time w) (next_id w) (index w) (expired w) (slots_1ms w)
    (slots_256ms w) (slots_16s w) (slots_17min w) (overflow w).
Definition set_next_id (w : TimingWheel) (n : Z) : TimingWheel :=
  mk_wheel (current_tick w) (start_time w) n (index w) (expired w) (slots_1ms w)
    (slots_256ms w) (slots_16s w) (slots_17min w) (overflow w).
Definition set_index (w : TimingWheel) (m : gmap Z TimerLocation) : TimingWheel :=
  mk_wheel (current_tick w) (start_time w) (next_id w) m (expired w) (slots_1ms w)
    (slots_256ms w) (slots_16s w) (slots_17min w) (overflow w).
Definition set_expired (w : TimingWheel) (l : list TimerEntry) : TimingWheel :=
  mk_wheel (current_tick w) (start_time w) (next_id w) (index w) l (slots_1ms w)
    (slots_256ms w) (slots_16s w) (slots_17min w) (overflow w).
Definition set_overflow (w : TimingWheel) (o : list (Z * list TimerEntry)) : TimingWheel :=
  mk_wheel (current_tick w) (start_time w) (next_id w) (index w) (expired w) (slots_1ms w)
    (slots_256ms w) (slots_16s w) (slots_17min w) o.

(** The slot array of a level ([slots_1ms], ..., [slots_17min]). *)
Definition lv (w : TimingWheel) (l : nat) : list (list TimerEntry) :=
  match l with
  | 0%nat => slots_1ms w
  | 1%nat => slots_256ms w
  | 2%nat => slots_16s w
  | 3%nat => slots_17min w
  | _ => []
  end.

Definition set_lv (w : TimingWheel) (l : nat) (a : list (list TimerEntry)) : TimingWheel :=
  match l with
  | 0%nat => mk_wheel (current_tick w) (start_time w) (next_id w) (index w) (expired w) a
               (slots_256ms w) (slots_16s w) (slots_17min w) (overflow w)
  | 1%nat => mk_wheel (current_tick w) (start_time w) (next_id w) (index w) (expired w)
               (slots_1ms w) a (slots_16s w) (slots_17min w) (overflow w)
  | 2%nat => mk_wheel (current_tick w) (start_time w) (next_id w) (index w) (expired w)
               (slots_1ms w) (slots_256ms w) a (slots_17min w) (overflow w)
  | 3%nat => mk_wheel (current_tick w) (start_time w) (next_id w) (index w) (expired w)
               (slots_1ms w) (slots_256ms w) (slots_16s w) a (overflow w)
  | _ => w
  end.

(** [slots[s]] of level [l]; the slot numbers the code computes are
    always in range ([% SLOTS]). *)
Definition slot_of (w : TimingWheel) (l s : nat) : list TimerEntry :=
  default [] (lv w l !! s).

Definition set_slot (w : TimingWheel) (l s : nat) (v : list TimerEntry) : TimingWheel :=
  set_lv w l (<[s := v]> (lv w l)).

(** [Vec::swap_remove(i)]: the removed element and the vector with its
    last element moved to [i]; [None] (a panic) when [i] is out of range. *)
Definition swap_remove {A} (l : list A) (i : nat) : option (A * list A) :=
  match l !! i with
  | None => None
  | Some x =>
      let n := (length l - 1)%nat in
      let l' := take n l in
      Some (x, if bool_decide (i < n)%nat then <[i := default x (l !! n)]> l' else l')
  end.

(** [BTreeMap] operations on the overflow map. *)
Definition bt_get (k : Z) (o : list (Z * list TimerEntry)) : list TimerEntry :=
  default [] (snd <$> find (fun p => fst p =? k) o).

(** [entry(k).or_insert_with(Vec::new).push(e)]. *)
Fixpoint bt_push (k : Z) (e : TimerEntry) (o : list (Z * list TimerEntry))
    : list (Z * list TimerEntry) :=
  match o with
  | [] => [(k, [e])]
  | (k', es) :: o' =>
      if k =? k' then (k', es ++ [e]) :: o'
      else if k <? k' then (k, [e]) :: o
      else (k', es) :: bt_push k e o'
  end.

(** [remove(&k)]. *)
Fixpoint bt_remove (k : Z) (o : list (Z * list TimerEntry))
    : option (list TimerEntry * list (Z * list TimerEntry)) :=
  match o with
  | [] => None
  | (k', es) :: o' =>
      if k =? k' then Some (es, o')
      else match bt_remove k o' with
           | Some (r, o'') => Some (r, (k', es) :: o'')
           | None => None
           end
  end.

Definition new_at (start : Z) : TimingWheel :=
  {| current_tick := 0; start_time := start; next_id := 0; index := ∅; expired := [];
     slots_1ms := replicate 256 []; slots_256ms := replicate 64 [];
     slots_16s := replicate 64 []; slots_17min := replicate 64 [];
     overflow := [] |}.

(** [expires_at.checked_duration_since(start_time)] in whole milliseconds,
    saturated at [u64::MAX]. *)
Definition deadline_ms (w : TimingWheel) (e : TimerEntry) : option Z :=
  if expires_at e <? start_time w then None
  else Some (Z.min ((expires_at e - start_time w) / NS_PER_MS) usize_max).

Definition push_expired (w : TimingWheel) (e : TimerEntry) : TimingWheel :=
  set_expired w (expired w ++ [e]).

Definition insert_at_level (w : TimingWheel) (e : TimerEntry) (l s : nat) : TimingWheel :=
  let idx := length (slot_of w l s) in
  let w := set_slot w l s (slot_of w l s ++ [e]) in
  set_index w (<[id e := mk_loc l s idx]> (index w)).

Definition insert_entry (w : TimingWheel) (e : TimerEntry) : TimingWheel :=
  match deadline_ms w e with
  | None => push_expired w e
  | Some deadline =>
      if deadline <=? current_tick w then push_expired w e else
      let ticks_until_expiry := deadline - current_tick w in
      if ticks_until_expiry <? LEVEL_1_RESOLUTION_MS then
        insert_at_level w e 0 (Z.to_nat (deadline mod LEVEL_0_SLOTS))
      else if ticks_until_expiry <? LEVEL_2_RESOLUTION_MS then
        insert_at_level w e 1 (Z.to_nat ((deadline / LEVEL_1_RESOLUTION_MS) mod LEVEL_1_SLOTS))
      else if ticks_until_expiry <? LEVEL_3_RESOLUTION_MS then
        insert_at_level w e 2 (Z.to_nat ((deadline / LEVEL_2_RESOLUTION_MS) mod LEVEL_2_SLOTS))
      else if ticks_until_expiry <? OVERFLOW_THRESHOLD_MS then
        insert_at_level w e 3 (Z.to_nat ((deadline / LEVEL_3_RESOLUTION_MS) mod LEVEL_3_SLOTS))
      else
        let idx := length (bt_get (expires_at e) (overflow w)) in
        let w := set_overflow w (bt_push (expires_at e) e (overflow w)) in
        set_index w (<[id e := mk_loc 255 0 idx]> (index w))
  end.

Definition insert (w : TimingWheel) (exp wk : Z) : Z * TimingWheel :=
  let i := next_id w in
  let w := set_next_id w (wrapping_add i 1) in
  (i, insert_entry w (mk_entry i exp wk)).

(** [insert_with_id]; [id + 1] is written with its release-build
    wrap-around (a debug build panics when [id = u64::MAX]). *)
Definition insert_with_id (w : TimingWheel) (i exp wk : Z) : TimingWheel :=
  let w := insert_entry w (mk_entry i exp wk) in
  if next_id w <=? i then set_next_id w (wrapping_add i 1) else w.

Fixpoint remove_from_overflow_go (i : Z) (o : list (Z * list TimerEntry))
    : list (Z * list TimerEntry) :=
  match o with
  | [] => []
  | (k, es) :: o' =>
      match list_find (fun e => id e = i) es with
      | Some (pos, _) =>
          match swap_remove es pos with
          | Some (_, es') => (k, es') :: o'
          | None => o
          end
      | None => (k, es) :: remove_from_overflow_go i o'
      end
  end.

Definition remove_from_overflow (w : TimingWheel) (i : Z) : TimingWheel :=
  set_overflow w (remove_from_overflow_go i (overflow w)).

Definition remove_at_location (w : TimingWheel) (l : TimerLocation) : TimingWheel :=
  if bool_decide (level l < 4)%nat then
    let sl := slot_of w (level l) (slot l) in
    if bool_decide (length sl <= index_in_slot l)%nat then w else
    match swap_remove sl (index_in_slot l) with
    | None => w
    | Some (removed, sl') =>
        let w := set_slot w (level l) (slot l) sl' in
        let swapped := if bool_decide (index_in_slot l < length sl')%nat
                       then id <$> sl' !! index_in_slot l else None in
        let w := match swapped with
                 | Some sid =>
                     match index w !! sid with
                     | Some lc => set_index w (<[sid := mk_loc (level lc) (slot lc) (index_in_slot l)]> (index w))
                     | None => w
                     end
                 | None => w
                 end in
        set_index w (delete (id removed) (index w))
    end
  else w.

Definition remove (w : TimingWheel) (i : Z) : bool * TimingWheel :=
  match index w !! i with
  | Some l =>
      let w := set_index w (delete i (index w)) in
      if bool_decide (level l = 255)%nat then (true, remove_from_overflow w i)
      else (true, remove_at_location w l)
  | None =>
      match list_find (fun e => id e = i) (expired w) with
      | Some (pos, _) =>
          match swap_remove (expired w) pos with
          | Some (_, ex) => (true, set_expired w ex)
          | None => (false, w)
          end
      | None => (false, w)
      end
  end.

(** The body of the loops that move an entry out of a slot or out of the
    overflow map: [index.remove(&entry.id)] then re-insert. *)
Definition reinsert (w : TimingWheel) (e : TimerEntry) : TimingWheel :=
  insert_entry (set_index w (delete (id e) (index w))) e.

Definition expire_slot (w : TimingWheel) (s : nat) : TimingWheel :=
  let timers := slot_of w 0 s in
  let w := set_slot w 0 s [] in
  fold_left (fun w e => push_expired (set_index w (delete (id e) (index w))) e) timers w.

Definition cascade_slot (w : TimingWheel) (l s : nat) : TimingWheel :=
  if bool_decide (1 <= l <= 3)%nat then
    let timers := slot_of w l s in
    let w := set_slot w l s [] in
    fold_left reinsert timers w
  else w.

Definition current_time (w : TimingWheel) : Z :=
  start_time w + current_tick w * NS_PER_MS.

Definition check_overflow (w : TimingWheel) : TimingWheel :=
  let threshold := current_time w + OVERFLOW_THRESHOLD_MS * NS_PER_MS in
  let keys_to_process := filter (fun k => k <=? threshold) (map fst (overflow w)) in
  fold_left (fun w k =>
      match bt_remove k (overflow w) with
      | Some (entries, o) => fold_left reinsert entries (set_overflow w o)
      | None => w
      end) keys_to_process w.

Definition tick (w : TimingWheel) : TimingWheel :=
  let w := set_current_tick w (current_tick w + 1) in
  let t := current_tick w in
  let w := expire_slot w (Z.to_nat (t mod LEVEL_0_SLOTS)) in
  let w := if t mod LEVEL_1_RESOLUTION_MS =? 0
           then cascade_slot w 1 (Z.to_nat ((t / LEVEL_1_RESOLUTION_MS) mod LEVEL_1_SLOTS)) else w in
  let w := if t mod LEVEL_2_RESOLUTION_MS =? 0
           then cascade_slot w 2 (Z.to_nat ((t / LEVEL_2_RESOLUTION_MS) mod LEVEL_2_SLOTS)) else w in
  let w := if t mod LEVEL_3_RESOLUTION_MS =? 0
           then cascade_slot w 3 (Z.to_nat ((t / LEVEL_3_RESOLUTION_MS) mod LEVEL_3_SLOTS)) else w in
  check_overflow w.

(** [advance_to(now)]: the [while current_tick < target_tick] loop runs
    [target_tick - current_tick] ticks. *)
Definition advance_to (w : TimingWheel) (now : Z) : TimingWheel :=
  if now <=? start_time w then w else
  let target_tick := Z.min ((now - start_time w) / NS_PER_MS) usize_max in
  check_overflow (Nat.iter (Z.to_nat (target_tick - current_tick w)) tick w).

Definition drain_expired (w : TimingWheel) : list (Z * Z) * TimingWheel :=
  (map (fun e => (id e, waker e)) (expired w), set_expired w []).

Definition len (w : TimingWheel) : Z :=
  Z.of_nat (size (index w)) + Z.of_nat (length (expired w)).

Definition is_empty (w : TimingWheel) : bool := len w =? 0.


(** *** Invariants *)

(** The entries held in the four levels and in the overflow map. *)
Definition stored (w : TimingWheel) : list TimerEntry :=
  concat (slots_1ms w) ++ concat (slots_256ms w) ++ concat (slots_16s w) ++
  concat (slots_17min w) ++ concat (map snd (overflow w)).

(** Every entry of the wheel, expired or not. *)
Definition all (w : TimingWheel) : list TimerEntry := expired w ++ stored w.

Definition ids (l : list TimerEntry) : list Z := map id l.

Definition In_slot (w : TimingWheel) (e : TimerEntry) (l s i : nat) : Prop :=
  (l < 4)%nat /\ exists sl, lv w l !! s = Some sl /\ sl !! i = Some e.

Definition In_ov (w : TimingWheel) (e : TimerEntry) : Prop :=
  exists k es, In (k, es) (overflow w) /\ In e es.

(** The structural invariant, while the entries [P] are held by a local
    variable of a loop (taken out of a slot or out of the overflow map):
    the ids are pairwise distinct, [index] maps each entry of a level to
    its position and each overflow entry to level 255, and [index] has
    no key other than the ids of the stored entries (and of [P]). *)
Record tw_struct (w : TimingWheel) (P : list TimerEntry) : Prop := {
  ts_len : length (slots_1ms w) = 256%nat /\ length (slots_256ms w) = 64%nat /\
           length (slots_16s w) = 64%nat /\ length (slots_17min w) = 64%nat;
  ts_nodup : NoDup (ids (all w ++ P));
  ts_slot : forall e l s i, In_slot w e l s i -> index w !! id e = Some (mk_loc l s i);
  ts_ov : forall e, In_ov w e -> exists j, index w !! id e = Some (mk_loc 255 0 j);
  ts_index : forall i lc, index w !! i = Some lc -> In i (ids (stored w ++ P))
}.

(** A step from [w] (holding [P]) to [w'] (holding [P']) keeps the
    structural invariant and the entries. *)
Definition step_ok (w : TimingWheel) (P : list TimerEntry) (w' : TimingWheel)
    (P' : list TimerEntry) : Prop :=
  tw_struct w P -> tw_struct w' P' /\ Permutation (all w' ++ P') (all w ++ P).

(** [w'] keeps the clock of [w], and each of its entries where [w] had it
    (a slot entry in the same slot, an overflow entry under the same key). *)
Definition shrinks (w' w : TimingWheel) : Prop :=
  current_tick w' = current_tick w /\ start_time w' = start_time w /\ next_id w' = next_id w /\
  (forall e l s k, In_slot w' e l s k -> exists k', In_slot w e l s k') /\
  (forall k es', In (k, es') (overflow w') ->
     exists es, In (k, es) (overflow w) /\ forall x, In x es' -> In x es) /\
  map fst (overflow w') = map fst (overflow w) /\
  (forall x, In x (expired w') -> In x (expired w)).

(** *** The insertion rules, as the specification states them *)

Inductive Placement := AtLevel (l s : nat) | InOverflow.

(** Where an entry with [deadline_ms] goes when [ticks_until =
    deadline_ms - current_tick] is positive. *)
Definition spec_placement (deadline_ms current_tick : Z) : Placement :=
  let ticks_until := deadline_ms - current_tick in
  if ticks_until <? 256 then AtLevel 0 (Z.to_nat (deadline_ms mod 256))
  else if ticks_until <? 16384 then AtLevel 1 (Z.to_nat ((deadline_ms / 256) mod 64))
  else if ticks_until <? 1048576 then AtLevel 2 (Z.to_nat ((deadline_ms / 16384) mod 64))
  else if ticks_until <? 67108864 then AtLevel 3 (Z.to_nat ((deadline_ms / 1048576) mod 64))
  else InOverflow.

End TW.

(** ** [StagedWheel] *)

Module Staged.

Definition INLINE_THRESHOLD : Z := 256.

(** [InlineTimer] has the fields of [TimerEntry]. *)
Inductive Storage :=
  | Inline (timers expired : list TW.TimerEntry)
  | Wheel (w : TW.TimingWheel).

Record StagedWheel := mk_staged { storage : Storage; next_id : Z; start_time : Z }.

Definition set_storage (sw : StagedWheel) (st : Storage) : StagedWheel :=
  mk_staged st (next_id sw) (start_time sw).

Definition new_at (start : Z) : StagedWheel := mk_staged (Inline [] []) 0 start.

Definition insert_timer (w : TW.TimingWheel) (t : TW.TimerEntry) : TW.TimingWheel :=
  TW.insert_with_id w (TW.id t) (TW.expires_at t) (TW.waker t).

Definition promote_to_wheel (sw : StagedWheel) : StagedWheel :=
  match storage sw with
  | Inline timers expired =>
      let w := TW.new_at (start_time sw) in
      let w := fold_left insert_timer timers w in
      let w := fold_left insert_timer expired w in
      set_storage sw (Wheel w)
  | Wheel _ => sw
  end.

Definition insert (sw : StagedWheel) (expires_at waker : Z) : Z * StagedWheel :=
  let i := next_id sw in
  let sw := mk_staged (storage sw) (wrapping_add (next_id sw) 1) (start_time sw) in
  match storage sw with
  | Inline timers expired =>
      if INLINE_THRESHOLD <=? Z.of_nat (length timers) then
        let sw := promote_to_wheel sw in
        match storage sw with
        | Wheel w => (i, set_storage sw (Wheel (TW.insert_with_id w i expires_at waker)))
        | Inline _ _ => (i, sw)
        end
      else (i, set_storage sw (Inline (timers ++ [TW.mk_entry i expires_at waker]) expired))
  | Wheel w => (i, set_storage sw (Wheel (TW.insert_with_id w i expires_at waker)))
  end.

(** [position] then [swap_remove]; the position found is in range, so
    the [None] branch is never taken. *)
Definition remove (sw : StagedWheel) (i : Z) : bool * StagedWheel :=
  match storage sw with
  | Inline timers expired =>
      match list_find (fun t => TW.id t = i) timers with
      | Some (pos, _) =>
          match TW.swap_remove timers pos with
          | Some (_, timers') => (true, set_storage sw (Inline timers' expired))
          | None => (false, sw)
          end
      | None => (false, sw)
      end
  | Wheel w => let (b, w') := TW.remove w i in (b, set_storage sw (Wheel w'))
  end.

(** The [while i < timers.len()] loop of [advance_to]; each iteration
    lowers [timers.len() - i] by one, so [timers.len()] iterations are
    enough fuel. *)
Fixpoint advance_inline (fuel : nat) (now : Z) (i : nat) (timers expired : list TW.TimerEntry)
    : list TW.TimerEntry * list TW.TimerEntry :=
  match fuel with
  | O => (timers, expired)
  | S fuel =>
      match timers !! i with
      | None => (timers, expired)
      | Some t =>
          if TW.expires_at t <=? now then
            match TW.swap_remove timers i with
            | Some (timer, timers') => advance_inline fuel now i timers' (expired ++ [timer])
            | None => (timers, expired)
            end
          else advance_inline fuel now (S i) timers expired
      end
  end.

Definition advance_to (sw : StagedWheel) (now : Z) : StagedWheel :=
  match storage sw with
  | Inline timers expired =>
      let (timers', expired') := advance_inline (length timers) now 0 timers expired in
      set_storage sw (Inline timers' expired')
  | Wheel w => set_storage sw (Wheel (TW.advance_to w now))
  end.

Definition drain_expired (sw : StagedWheel) : list (Z * Z) * StagedWheel :=
  match storage sw with
  | Inline timers expired =>
      (map (fun t => (TW.id t, TW.waker t)) expired, set_storage sw (Inline timers []))
  | Wheel w => let (d, w') := TW.drain_expired w in (d, set_storage sw (Wheel w'))
  end.

Definition len (sw : StagedWheel) : Z :=
  match storage sw with
  | Inline timers _ => Z.of_nat (length timers)
  | Wheel w => TW.len w
  end.

Definition is_empty (sw : StagedWheel) : bool := len sw =? 0.

Definition current_time (sw : StagedWheel) : Z :=
  match storage sw with
  | Inline _ _ => start_time sw
  | Wheel w => TW.current_time w
  end.

Inductive Mode := inline | wheel.

Definition storage_mode (sw : StagedWheel) : Mode :=
  match storage sw with
  | Inline _ _ => inline
  | Wheel _ => wheel
  end.

Inductive op := Ins (expires_at waker : Z) | Rem (i : Z) | Adv (now : Z) | Drain.

(** One operation; an [insert] logs the id it returns. *)
Definition step (sw : StagedWheel) (o : op) : list Z * StagedWheel :=
  match o with
  | Ins exp wk => let (i, sw') := insert sw exp wk in ([i], sw')
  | Rem i => ([], snd (remove sw i))
  | Adv now => ([], advance_to sw now)
  | Drain => ([], snd (drain_expired sw))
  end.

Fixpoint run (sw : StagedWheel) (os : list op) : StagedWheel * list Z :=
  match os with
  | [] => (sw, [])
  | o :: os =>
      let (r, sw1) := step sw o in
      let (sw2, rs) := run sw1 os in (sw2, r ++ rs)
  end.

Definition is_ins (o : op) : bool := match o with Ins _ _ => true | _ => false end.

Definition count_ins (os : list op) : nat := length (List.filter is_ins os).

(** The timers held: pending and expired, inline or in the wheel. *)
Definition entries (sw : StagedWheel) : list TW.TimerEntry :=
  match storage sw with
  | Inline timers expired => timers ++ expired
  | Wheel w => TW.all w
  end.

(** The timers [remove] searches. *)
Definition cancellable (sw : StagedWheel) : list TW.TimerEntry :=
  match storage sw with
  | Inline timers _ => timers
  | Wheel w => TW.all w
  end.

(** The timers a [drain_expired] hands out. *)
Definition expired_of (sw : StagedWheel) : list TW.TimerEntry :=
  match storage sw with
  | Inline _ expired => expired
  | Wheel w => TW.expired w
  end.

(** The invariant of a staged wheel: distinct ids, all below [next_id],
    at most [INLINE_THRESHOLD] inline timers, and the timing wheel's
    structural invariant. *)
Definition inv (sw : StagedWheel) : Prop :=
  0 <= next_id sw /\ NoDup (TW.ids (entries sw)) /\
  (forall i, In i (TW.ids (entries sw)) -> 0 <= i < next_id sw) /\
  match storage sw with
  | Inline timers _ => (length timers <= 256)%nat
  | Wheel w => TW.tw_struct w []
  end.


End Staged.

(** ** [TimerId] and [ReactorTimers] *)

Module Reactor.

Record TimerId := mk_timer_id { index : Z; generation : Z }.

Definition two32 : Z := 2 ^ 32.

(** [TimerId::new(internal_id as u32, 0)]. *)
Definition of_internal (internal_id : Z) : TimerId := mk_timer_id (internal_id mod two32) 0.

Record ReactorTimers := mk_reactor { wheel : Staged.StagedWheel; id_to_expiry : gmap Z Z }.

(** [ReactorTimers::new] with the wheel's start instant as a parameter. *)
Definition new_at (start : Z) : ReactorTimers := mk_reactor (Staged.new_at start) ∅.

Definition insert (rt : ReactorTimers) (expires_at waker : Z) : TimerId * ReactorTimers :=
  let (internal_id, w) := Staged.insert (wheel rt) expires_at waker in
  (of_internal internal_id, mk_reactor w (<[internal_id := expires_at]> (id_to_expiry rt))).

Definition remove (rt : ReactorTimers) (tid : TimerId) : bool * ReactorTimers :=
  let internal_id := index tid in
  let m := delete internal_id (id_to_expiry rt) in
  let (b, w) := Staged.remove (wheel rt) internal_id in
  (b, mk_reactor w m).

Definition exists_ (rt : ReactorTimers) (tid : TimerId) : bool :=
  bool_decide (is_Some (id_to_expiry rt !! index tid)).

(** [process_timers] with [Instant::now()] as the parameter [now];
    waking the wakers has no effect on the timers. *)
Definition process_timers (rt : ReactorTimers) (now : Z) : (option Z * nat) * ReactorTimers :=
  let w := Staged.advance_to (wheel rt) now in
  let (expired, w) := Staged.drain_expired w in
  let m := fold_left (fun m p => delete (fst p) m) expired (id_to_expiry rt) in
  let woke := length expired in
  let next_expiry := map_fold (fun _ v acc =>
      match acc with None => Some v | Some a => Some (Z.min a v) end) None m in
  let next_duration := (fun e => Z.max 0 (e - now)) <$> next_expiry in
  ((next_duration, woke), mk_reactor w m).

Definition len (rt : ReactorTimers) : nat := size (id_to_expiry rt).

Definition is_empty (rt : ReactorTimers) : bool := bool_decide (id_to_expiry rt = ∅).

Inductive op := RIns (expires_at waker : Z) | RRem (tid : TimerId) | RProc (now : Z).

Definition step (rt : ReactorTimers) (o : op) : list TimerId * ReactorTimers :=
  match o with
  | RIns exp wk => let (t, rt') := insert rt exp wk in ([t], rt')
  | RRem tid => ([], snd (remove rt tid))
  | RProc now => ([], snd (process_timers rt now))
  end.

Fixpoint run (rt : ReactorTimers) (os : list op) : ReactorTimers * list TimerId :=
  match os with
  | [] => (rt, [])
  | o :: os =>
      let (r, rt1) := step rt o in
      let (rt2, rs) := run rt1 os in (rt2, r ++ rs)
  end.

Definition is_ins (o : op) : bool := match o with RIns _ _ => true | _ => false end.

Definition count_ins (os : list op) : nat := length (List.filter is_ins os).

(** Between two operations the inline expired list is empty (each
    [process_timers] drains it), and [id_to_expiry] has exactly the ids
    of the timers the staged wheel holds. *)
Definition rinv (rt : ReactorTimers) : Prop :=
  Staged.inv (wheel rt) /\
  (forall i, is_Some (id_to_expiry rt !! i) <-> In i (TW.ids (Staged.entries (wheel rt)))) /\
  match Staged.storage (wheel rt) with
  | Staged.Inline _ expired => expired = []
  | Staged.Wheel _ => True
  end.

End Reactor.

(** ** Runs of a [TimingWheel] *)

Module TWRun.
Import TW.

(** The calls a user makes on a [TimingWheel] before [advance_to]. *)
Inductive op := TIns (exp wk : Z) | TRem (i : Z).

Definition step (w : TimingWheel) (o : op) : TimingWheel :=
  match o with
  | TIns exp wk => snd (insert w exp wk)
  | TRem i => snd (remove w i)
  end.

Definition run (w : TimingWheel) (os : list op) : TimingWheel := fold_left step os w.

(** The timers the calls leave pending, read off the calls alone: the
    [n]-th insert adds a timer with id [n], a remove drops the pending
    timer with that id. *)
Fixpoint live_go (n : Z) (l : list TimerEntry) (os : list op) : list TimerEntry :=
  match os with
  | [] => l
  | TIns exp wk :: os => live_go (n + 1) (l ++ [mk_entry n exp wk]) os
  | TRem i :: os => live_go n (List.filter (fun e => negb (id e =? i)) l) os
  end.

Definition live (os : list op) : list TimerEntry := live_go 0 [] os.

(** Whole milliseconds from [base] to a deadline and to [now], an
    instant before [base] counting as [0]. *)
Definition deadline_tick (base : Z) (e : TimerEntry) : Z :=
  if expires_at e <? base then 0 else (expires_at e - base) / NS_PER_MS.

Definition now_tick (base now : Z) : Z :=
  if now <=? base then 0 else (now - base) / NS_PER_MS.

(** The pending timers due at [now]. *)
Definition due (base now : Z) (os : list op) : list TimerEntry :=
  List.filter (fun e => deadline_tick base e <=? now_tick base now) (live os).

(** *** Where the entries of a level may lie *)

(** Milliseconds per slot, and slots, of a level. *)
Definition res (l : nat) : Z :=
  match l with
  | 0%nat => 1
  | 1%nat => LEVEL_1_RESOLUTION_MS
  | 2%nat => LEVEL_2_RESOLUTION_MS
  | _ => LEVEL_3_RESOLUTION_MS
  end.

Definition nslots (l : nat) : Z :=
  match l with
  | 0%nat => LEVEL_0_SLOTS
  | 1%nat => LEVEL_1_SLOTS
  | 2%nat => LEVEL_2_SLOTS
  | _ => LEVEL_3_SLOTS
  end.

(** [deadline_ms] of an entry that is not before [start_time]. *)
Definition dms (w : TimingWheel) (e : TimerEntry) : Z :=
  (expires_at e - start_time w) / NS_PER_MS.

(** Each level [l] has a clock [c l] (the tick up to which its slots have
    been processed): an entry of the level has its [deadline_ms], in
    units of the level's resolution, within one turn of the level ahead
    of the clock, in the slot of that unit; an overflow entry sits under
    its own deadline, the keys increase; an expired entry is due at the
    current tick. *)
Record placed (w : TimingWheel) (c : nat -> Z) : Prop := {
  pl_start : 0 <= start_time w;
  pl_tick : 0 <= current_tick w;
  pl_slot : forall e l s k, In_slot w e l s k ->
    start_time w <= expires_at e < two64 /\
    c l / res l < dms w e / res l <= c l / res l + nslots l /\
    s = Z.to_nat ((dms w e / res l) mod nslots l);
  pl_ov : forall k es e, In (k, es) (overflow w) -> In e es ->
    expires_at e = k /\ start_time w <= k < two64;
  pl_sorted : StronglySorted Z.lt (map fst (overflow w));
  pl_expired : forall e, In e (expired w) -> deadline_tick (start_time w) e <= current_tick w
}.

(** The overflow entries are at least [OVERFLOW_THRESHOLD_MS] after [t]. *)
Definition ov_after (w : TimingWheel) (t : Z) : Prop :=
  forall k es e, In (k, es) (overflow w) -> In e es -> t + OVERFLOW_THRESHOLD_MS <= dms w e.

End TWRun.

(** * Proofs *)

Module SpscProofs.
Import Spsc.

Lemma pow_divide_two64 k : 0 <= k <= 64 -> (2 ^ k | two64).
Proof.
  intros Hk. exists (2 ^ (64 - k)). unfold two64.
  rewrite <- Z.pow_add_r by lia. f_equal. lia.
Qed.

Lemma mod_offset_inj c h a b :
  0 < c -> 0 <= a < c -> 0 <= b < c -> (h + a) mod c = (h + b) mod c -> a = b.
Proof.
  intros Hc Ha Hb E. apply Z.cong_iff_ex in E as [m Hm].
  assert (a - b = m * c) as E by lia.
  destruct (Z.lt_trichotomy m 0) as [Hm'|[Hm'|Hm']]; [nia|subst; lia|nia].
Qed.

Section Ring.
Context {T : Type}.
Implicit Types (b : buffer T) (q : list T).

Lemma get_slot_set b i j s :
  0 <= i < Z.of_nat (length (buffer_storage b)) -> 0 <= j ->
  get_slot (set_slot b i s) j = if decide (i = j) then Some s else get_slot b j.
Proof.
  intros Hi Hj. unfold get_slot, set_slot; simpl.
  destruct (0 <=? j) eqn:E; [|lia].
  case_decide as Hij.
  - subst. apply list_lookup_insert_eq. lia.
  - rewrite list_lookup_insert_ne; [done|]. intros Hn. apply Hij. lia.
Qed.

Lemma get_slot_set_head b h i : get_slot (set_head b h) i = get_slot b i.
Proof. reflexivity. Qed.
Lemma get_slot_set_tail b t i : get_slot (set_tail b t) i = get_slot b i.
Proof. reflexivity. Qed.
Lemma get_slot_set_limit b l i : get_slot (set_limit b l) i = get_slot b i.
Proof. reflexivity. Qed.

Lemma land_mask b q x : ring_inv b q -> Z.land x (mask b) = x mod capacity b.
Proof.
  intros Hi. destruct (ri_pow _ _ Hi) as [k [Hk Hc]].
  rewrite (ri_mask _ _ Hi), Hc.
  replace (2 ^ k - 1) with (Z.ones k) by (rewrite Z.ones_equiv; lia).
  rewrite Z.land_ones by lia. reflexivity.
Qed.

Lemma cap_pos b q : ring_inv b q -> 0 < capacity b.
Proof.
  intros Hi. destruct (ri_pow _ _ Hi) as [k [Hk ->]]. apply Z.pow_pos_nonneg; lia.
Qed.

Lemma wrap_mod_cap b q x : ring_inv b q -> (x mod two64) mod capacity b = x mod capacity b.
Proof.
  intros Hi. destruct (ri_pow _ _ Hi) as [k [Hk Hc]]. rewrite Hc.
  apply Z.mod_mod_divide, pow_divide_two64. lia.
Qed.

(** Reading a slot by index: the value at the index's offset from [head]. *)
Lemma get_slot_offset b q x :
  ring_inv b q ->
  get_slot b (Z.land x (mask b)) = Some (q !! Z.to_nat ((x - head b) mod capacity b)).
Proof.
  intros Hi. pose proof (cap_pos _ _ Hi) as Hc.
  rewrite (land_mask _ _ _ Hi).
  rewrite <- (ri_slots _ _ Hi) by (apply Z.mod_pos_bound; lia).
  f_equal. rewrite Zplus_mod_idemp_r. f_equal. lia.
Qed.

Lemma offset_tail b q :
  ring_inv b q -> (tail b - head b) mod capacity b = Z.of_nat (length q) mod capacity b.
Proof.
  intros Hi. rewrite (ri_tail _ _ Hi). unfold wrapping_add.
  rewrite Zminus_mod, (wrap_mod_cap _ _ _ Hi), <- Zminus_mod. f_equal. lia.
Qed.


Lemma land_bound b q x : ring_inv b q -> 0 <= x mod capacity b < Z.of_nat (length (buffer_storage b)).
Proof.
  intros Hi. rewrite (ri_len _ _ Hi), Z2Nat.id by (pose proof (cap_pos _ _ Hi); lia).
  apply Z.mod_pos_bound, (cap_pos _ _ Hi).
Qed.

(** [try_pop] takes the oldest value, or reports an empty ring. *)
Lemma try_pop_inv b q :
  ring_inv b q ->
  (q = [] /\ try_pop b = Some (None, b)) \/
  (exists v q' b', q = v :: q' /\ try_pop b = Some (Some v, b') /\ ring_inv b' q').
Proof.
  intros Hi. pose proof (cap_pos _ _ Hi) as Hc.
  unfold try_pop. rewrite (get_slot_offset _ _ _ Hi), Z.sub_diag, Z.mod_0_l by lia.
  destruct q as [|v q'].
  - left. split; reflexivity.
  - right. exists v, q'. eexists. split; [reflexivity|]. split; [reflexivity|].
    pose proof (ri_head _ _ Hi) as Hh. pose proof (ri_n _ _ Hi) as Hn.
    simpl length in Hn. rewrite Nat2Z.inj_succ in Hn.
    pose proof (land_bound _ _ (head b) Hi) as Hb.
    rewrite (land_mask _ _ _ Hi).
    split; simpl.
    + exact (ri_pow _ _ Hi).
    + exact (ri_mask _ _ Hi).
    + exact (ri_la _ _ Hi).
    + rewrite length_insert. exact (ri_len _ _ Hi).
    + unfold wrapping_add, two64. apply Z.mod_pos_bound. lia.
    + exact (ri_limit _ _ Hi).
    + lia.
    + rewrite (ri_tail _ _ Hi). unfold wrapping_add.
      rewrite Zplus_mod_idemp_l. simpl length. f_equal. lia.
    + pose proof (ri_lim _ _ Hi) as Hl. simpl length in Hl. lia.
    + intros k Hk.
      unfold wrapping_add.
      replace (((head b + 1) mod two64 + k) mod capacity b) with ((head b + 1 + k) mod capacity b).
      2:{ rewrite (Zplus_mod ((head b + 1) mod two64)), (wrap_mod_cap _ _ _ Hi), <- Zplus_mod.
          reflexivity. }
      assert (0 <= (head b + 1 + k) mod capacity b) by (apply Z.mod_pos_bound; lia).
      rewrite get_slot_set_head, get_slot_set by lia.
      case_decide as E.
      * assert (Hk' : k = capacity b - 1).
        { destruct (Z.eq_dec k (capacity b - 1)) as [|Hne]; [assumption|].
          exfalso. assert (0 = 1 + k); [|lia].
          apply (mod_offset_inj (capacity b) (head b)); try lia.
          rewrite Z.add_0_r, E. f_equal. lia. }
        subst k. rewrite lookup_ge_None_2; [reflexivity|]. lia.
      * replace (head b + 1 + k) with (head b + (k + 1)) by lia.
        assert (k + 1 <> capacity b).
        { intros Ek. apply E. replace (head b + 1 + k) with (head b + capacity b) by lia.
          rewrite Z.add_mod, Z.mod_same, Z.add_0_r, Z.mod_mod by lia. reflexivity. }
        rewrite (ri_slots _ _ Hi) by lia.
        f_equal. rewrite Z2Nat.inj_add by lia. simpl.
        rewrite Nat.add_1_r. reflexivity.
Qed.


Lemma lookahead_room n L c :
  0 <= n <= c -> 1 <= L <= c -> (L = c -> c = 1) -> n <= (n + L) mod c -> n + L <= c.
Proof.
  intros Hn HL H1 Hm. destruct (Z_le_gt_dec (n + L) c) as [|Hgt]; [assumption|].
  exfalso. destruct (Z.eq_dec (n + L) (2 * c)) as [E|E].
  - rewrite E, <- (Z.mod_unique (2 * c) c 2 0) in Hm by lia.
    assert (n = c) by lia. assert (L = c) by lia. lia.
  - rewrite <- (Z.mod_unique (n + L) c 1 (n + L - c)) in Hm by lia. lia.
Qed.

Lemma tail_range b q : ring_inv b q -> 0 <= tail b < two64.
Proof.
  intros Hi. rewrite (ri_tail _ _ Hi). unfold wrapping_add, two64.
  apply Z.mod_pos_bound. lia.
Qed.

Lemma lim_gap_pos b q :
  ring_inv b q -> limit b <> tail b -> 1 <= (limit b - tail b) mod two64.
Proof.
  intros Hi Hne. pose proof (tail_range _ _ Hi). pose proof (ri_limit _ _ Hi).
  destruct (Z_lt_ge_dec (limit b) (tail b)).
  - rewrite <- (Z.mod_unique (limit b - tail b) two64 (-1) (limit b - tail b + two64)) by lia. lia.
  - rewrite Z.mod_small by lia. lia.
Qed.

(** The write at [tail] once the limit check has passed. *)
Lemma push_commit_inv b q v :
  ring_inv b q -> limit b <> tail b ->
  exists b', push_commit b (tail b) v = Some (None, b') /\ ring_inv b' (q ++ [v]).
Proof.
  intros Hi Hne. pose proof (cap_pos _ _ Hi) as Hc.
  pose proof (lim_gap_pos _ _ Hi Hne) as Hg. pose proof (ri_lim _ _ Hi) as Hl.
  pose proof (tail_range _ _ Hi) as Ht. pose proof (ri_n _ _ Hi) as Hn.
  set (n := Z.of_nat (length q)) in *.
  assert (Hnc : n < capacity b) by lia.
  unfold push_commit. rewrite (get_slot_offset _ _ _ Hi).
  eexists. split; [reflexivity|].
  pose proof (land_bound _ _ (tail b) Hi) as Hb.
  assert (Htm : tail b mod capacity b = (head b + n) mod capacity b).
  { rewrite (ri_tail _ _ Hi). unfold wrapping_add. apply (wrap_mod_cap _ _ _ Hi). }
  rewrite (land_mask _ _ _ Hi).
  split; simpl; rewrite ?length_app, ?Nat2Z.inj_add; fold n; simpl (Z.of_nat (length [v])).
  - exact (ri_pow _ _ Hi).
  - exact (ri_mask _ _ Hi).
  - exact (ri_la _ _ Hi).
  - rewrite length_insert. exact (ri_len _ _ Hi).
  - exact (ri_head _ _ Hi).
  - exact (ri_limit _ _ Hi).
  - fold n. lia.
  - rewrite (ri_tail _ _ Hi). unfold wrapping_add.
    rewrite Zplus_mod_idemp_l. fold n. f_equal. lia.
  - fold n. unfold wrapping_add.
    rewrite Zminus_mod_idemp_r.
    replace (limit b - (tail b + 1)) with ((limit b - tail b) - 1) by lia.
    rewrite Zminus_mod, (Z.mod_small 1) by (unfold two64; lia).
    rewrite (Z.mod_small ((limit b - tail b) mod two64 - 1)).
    + lia.
    + pose proof (Z.mod_pos_bound (limit b - tail b) two64 ltac:(unfold two64; lia)). lia.
  - intros k Hk.
    assert (0 <= (head b + k) mod capacity b) by (apply Z.mod_pos_bound; lia).
    rewrite get_slot_set_tail, get_slot_set by lia.
    case_decide as E.
    + rewrite Htm in E. apply (mod_offset_inj _ _ _ _ Hc) in E; [|lia|lia].
      subst k. fold n. unfold n. rewrite Nat2Z.id, list_lookup_middle by reflexivity.
      reflexivity.
    + rewrite (ri_slots _ _ Hi) by lia. f_equal.
      destruct (Z_lt_ge_dec k n).
      * rewrite lookup_app_l by (unfold n in *; lia). reflexivity.
      * assert (k <> n) by (intros ->; apply E; exact Htm).
        rewrite !lookup_ge_None_2; [reflexivity| |]; rewrite ?length_app; simpl; unfold n in *; lia.
Qed.


Lemma set_limit_inv b q l :
  ring_inv b q -> 0 <= l < two64 ->
  Z.of_nat (length q) + (l - tail b) mod two64 <= capacity b ->
  ring_inv (set_limit b l) q.
Proof.
  intros Hi Hl Hroom. destruct Hi. split; simpl; assumption.
Qed.

Lemma wrap_add_ne t d : 0 <= t < two64 -> 1 <= d < two64 -> wrapping_add t d <> t.
Proof.
  intros Ht Hd E. unfold wrapping_add in E.
  destruct (Z_lt_ge_dec (t + d) two64).
  - rewrite Z.mod_small in E by lia. lia.
  - rewrite <- (Z.mod_unique (t + d) two64 1 (t + d - two64)) in E by lia. lia.
Qed.

Lemma wrap_add_sub t d : 0 <= t < two64 -> 0 <= d < two64 -> (wrapping_add t d - t) mod two64 = d.
Proof.
  intros Ht Hd. unfold wrapping_add. rewrite Zminus_mod_idemp_l.
  replace (t + d - t) with d by lia. apply Z.mod_small; lia.
Qed.

Lemma cap_le b q : ring_inv b q -> capacity b <= 2 ^ 63.
Proof.
  intros Hi. destruct (ri_pow _ _ Hi) as [k [Hk ->]]. apply Z.pow_le_mono_r; lia.
Qed.

(** [try_push] either stores the value at the end of the ring or, when the
    consumer is gone or the ring is full, gives it back untouched. *)
Lemma try_push_inv b q v :
  ring_inv b q ->
  exists r b', try_push b v = Some (r, b') /\
   (((consumer_disconnected b = true \/ Z.of_nat (length q) = capacity b) /\ r = Some v /\ b' = b)
    \/ (consumer_disconnected b = false /\ Z.of_nat (length q) < capacity b /\ r = None /\
        ring_inv b' (q ++ [v]))).
Proof.
  intros Hi. pose proof (cap_pos _ _ Hi) as Hc. pose proof (cap_le _ _ Hi) as Hc2.
  pose proof (ri_n _ _ Hi) as Hn. pose proof (ri_la _ _ Hi) as [HL HL1].
  pose proof (tail_range _ _ Hi) as Ht. pose proof (ri_lim _ _ Hi) as Hl.
  set (n := Z.of_nat (length q)) in *.
  assert (two64 = 2 * 2 ^ 63) as E64 by reflexivity.
  unfold try_push.
  destruct (consumer_disconnected b) eqn:Hd.
  { do 2 eexists. split; [reflexivity|]. left. auto. }
  destruct (tail b =? limit b) eqn:Etl.
  - apply Z.eqb_eq in Etl.
    rewrite (get_slot_offset _ _ _ Hi).
    assert (Hoff : (wrapping_add (tail b) (lookahead b) - head b) mod capacity b
                   = (n + lookahead b) mod capacity b).
    { unfold wrapping_add. rewrite Zminus_mod, (wrap_mod_cap _ _ _ Hi), <- Zminus_mod.
      replace (tail b + lookahead b - head b) with ((tail b - head b) + lookahead b) by lia.
      rewrite Zplus_mod, (offset_tail _ _ Hi), <- Zplus_mod. reflexivity. }
    rewrite Hoff.
    destruct (q !! Z.to_nat ((n + lookahead b) mod capacity b)) eqn:Eprobe.
    + (* the look-ahead slot is taken: check the slot at [tail] *)
      apply lookup_lt_Some in Eprobe.
      assert (Hlt : (n + lookahead b) mod capacity b < n).
      { pose proof (Z.mod_pos_bound (n + lookahead b) (capacity b) Hc). unfold n in *. lia. }
      rewrite (get_slot_offset _ _ _ Hi), (offset_tail _ _ Hi).
      destruct (Z.eq_dec n (capacity b)) as [Efull|Enf].
      * fold n. rewrite Efull, Z.mod_same by lia.
        destruct (q !! Z.to_nat 0) eqn:E0.
        { do 2 eexists. split; [reflexivity|]. left. auto. }
        apply lookup_ge_None_1 in E0. unfold n in *. lia.
      * fold n. rewrite (Z.mod_small n) by (unfold n in *; lia).
        unfold n. rewrite Nat2Z.id, lookup_ge_None_2 by lia.
        destruct (push_commit_inv (set_limit b (wrapping_add (tail b) 1)) q v) as [b' [Hp Hb']].
        { apply set_limit_inv; [exact Hi| |].
          - unfold wrapping_add, two64. apply Z.mod_pos_bound; lia.
          - rewrite wrap_add_sub by lia. fold n. lia. }
        { simpl. apply wrap_add_ne; lia. }
        do 2 eexists. split; [exact Hp|]. right. fold n. split; [reflexivity|]. split; [lia|]. auto.
    + (* the look-ahead slot is free: move the limit there *)
      apply lookup_ge_None_1 in Eprobe.
      assert (Hroom : n + lookahead b <= capacity b).
      { pose proof (Z.mod_pos_bound (n + lookahead b) (capacity b) Hc).
        apply lookahead_room; try lia. }
      destruct (push_commit_inv (set_limit b (wrapping_add (tail b) (lookahead b))) q v)
        as [b' [Hp Hb']].
      { apply set_limit_inv; [exact Hi| |].
        - unfold wrapping_add, two64. apply Z.mod_pos_bound; lia.
        - rewrite wrap_add_sub by lia. fold n. lia. }
      { simpl. apply wrap_add_ne; lia. }
      do 2 eexists. split; [exact Hp|]. right. split; [reflexivity|]. split; [lia|]. auto.
  - apply Z.eqb_neq in Etl.
    pose proof (lim_gap_pos _ _ Hi (not_eq_sym Etl)) as Hg.
    destruct (push_commit_inv b q v Hi (not_eq_sym Etl)) as [b' [Hp Hb']].
    do 2 eexists. split; [exact Hp|]. right. split; [reflexivity|]. split; [fold n; lia|]. auto.
Qed.


Lemma npot_pow x : x <= 2 ^ 63 -> exists k, 0 <= k <= 63 /\ next_power_of_two x = 2 ^ k.
Proof.
  intros Hx. unfold next_power_of_two. destruct (x <=? 1) eqn:E.
  - exists 0. split; [lia|reflexivity].
  - apply Z.leb_gt in E. exists (Z.log2 (x - 1) + 1).
    split; [|reflexivity].
    pose proof (Z.log2_nonneg (x - 1)).
    assert (Z.log2 (x - 1) < 63) by (apply Z.log2_lt_pow2; lia). lia.
Qed.

Lemma clamp_lookahead c :
  (exists k, 0 <= k <= 63 /\ c = 2 ^ k) ->
  1 <= clamp (c / 4) 1 MAX_LOOKAHEAD <= c /\ (clamp (c / 4) 1 MAX_LOOKAHEAD = c -> c = 1).
Proof.
  intros [k [Hk ->]]. assert (1 <= 2 ^ k) by (pose proof (Z.pow_pos_nonneg 2 k ltac:(lia) ltac:(lia)); lia).
  unfold clamp, MAX_LOOKAHEAD.
  pose proof (Z.div_le_upper_bound (2 ^ k) 4 (2 ^ k) ltac:(lia) ltac:(lia)).
  pose proof (Z.div_pos (2 ^ k) 4 ltac:(lia) ltac:(lia)).
  destruct (2 ^ k / 4 <? 1) eqn:E1; [apply Z.ltb_lt in E1; lia|apply Z.ltb_ge in E1].
  assert (2 ^ k / 4 < 2 ^ k) by (apply Z.div_lt; lia).
  destruct (2 ^ 12 <? 2 ^ k / 4) eqn:E2; [apply Z.ltb_lt in E2|]; lia.
Qed.

Lemma npot_small cap : cap <= 2 ^ 63 -> next_power_of_two cap mod two64 = next_power_of_two cap.
Proof.
  intros Hc. destruct (npot_pow cap Hc) as [k [Hk ->]]. apply Z.mod_small. split.
  - apply Z.pow_nonneg; lia.
  - unfold two64. apply Z.pow_lt_mono_r; lia.
Qed.

Lemma npot_overflow cap : 2 ^ 63 < cap -> next_power_of_two cap mod two64 = 0.
Proof.
  intros Hc. unfold next_power_of_two. rewrite (proj2 (Z.leb_gt _ _)) by lia.
  assert (63 <= Z.log2 (cap - 1)) by (apply Z.log2_le_pow2; lia).
  replace (Z.log2 (cap - 1) + 1) with (64 + (Z.log2 (cap - 1) + 1 - 64)) by lia.
  rewrite Z.pow_add_r by lia. unfold two64. rewrite Z.mul_comm. apply Z.mod_mul.
  pose proof (Z.pow_pos_nonneg 2 64). lia.
Qed.

Lemma inner_make_inv dbg cap iv b :
  0 <= iv < two64 -> cap <= 2 ^ 63 -> inner_make dbg cap iv = Some b -> ring_inv b ([] : list T).
Proof.
  intros Hiv Hc Hm. unfold inner_make in Hm.
  rewrite (proj2 (Z.ltb_ge _ _) Hc), andb_false_r in Hm. rewrite (npot_small cap Hc) in Hm.
  injection Hm as <-. destruct (npot_pow cap Hc) as [k [Hk Hp]].
  assert (0 < 2 ^ k) by (apply Z.pow_pos_nonneg; lia).
  assert (2 ^ k <= 2 ^ 63) by (apply Z.pow_le_mono_r; lia).
  split; simpl.
  - rewrite Hp. eauto.
  - rewrite Z.mod_small; [reflexivity|]. rewrite Hp. unfold two64. lia.
  - apply clamp_lookahead. rewrite Hp. eauto.
  - apply length_replicate.
  - exact Hiv.
  - exact Hiv.
  - rewrite Hp; lia.
  - unfold wrapping_add. rewrite Z.add_0_r, Z.mod_small; lia.
  - rewrite Z.sub_diag, Z.mod_0_l by (unfold two64; lia). rewrite Hp; lia.
  - intros j Hj. rewrite lookup_nil. unfold get_slot; simpl.
    assert (0 <= (iv + j) mod next_power_of_two cap < next_power_of_two cap)
      by (apply Z.mod_pos_bound; lia).
    destruct (0 <=? _) eqn:E0; [|apply Z.leb_gt in E0; lia].
    rewrite lookup_replicate_2 by lia. reflexivity.
Qed.

Lemma inner_make_zero dbg cap iv b :
  0 <= iv < two64 -> 2 ^ 63 < cap -> inner_make dbg cap iv = Some b ->
  dbg = false /\ zero_ring b.
Proof.
  intros Hiv Hc Hm. unfold inner_make in Hm. rewrite (proj2 (Z.ltb_lt _ _) Hc) in Hm.
  destruct dbg; [discriminate|]. simpl in Hm. rewrite (npot_overflow cap Hc) in Hm.
  injection Hm as <-. split; [reflexivity|]. unfold zero_ring. simpl. auto.
Qed.

Lemma get_slot_nil b i : buffer_storage b = [] -> get_slot b i = None.
Proof. intros Hs. unfold get_slot. rewrite Hs. by destruct (0 <=? i). Qed.

(** On a ring without slots every access to [buffer_storage] is out of
    bounds: [try_push] gives the value back to a disconnected consumer
    and otherwise panics, [try_pop] panics. *)
Lemma try_push_zero b v :
  buffer_storage b = [] ->
  try_push b v = if consumer_disconnected b then Some (Some v, b) else None.
Proof.
  intros Hs. unfold try_push, push_commit.
  destruct (consumer_disconnected b); [reflexivity|].
  rewrite !get_slot_nil; try exact Hs; destruct (tail b =? limit b); try reflexivity.
Qed.

Lemma try_pop_zero b : buffer_storage b = [] -> try_pop b = None.
Proof. intros Hs. unfold try_pop. by rewrite get_slot_nil. Qed.

Lemma zero_step b lg o b' lg' :
  zero_ring b -> step b lg o = Some (b', lg') -> zero_ring b' /\ lg' = lg.
Proof.
  intros Hz Hs. pose proof Hz as [Hst _].
  destruct o as [v| | | |id|id]; simpl in Hs.
  - rewrite (try_push_zero b v Hst) in Hs.
    destruct (consumer_disconnected b); [injection Hs as <- <-; auto|discriminate].
  - by rewrite (try_pop_zero b Hst) in Hs.
  - injection Hs as <- <-. auto.
  - injection Hs as <- <-. auto.
  - destruct (connect_producer b id) eqn:E; [|discriminate]. injection Hs as <- <-.
    unfold connect_producer in E. destruct (_ || _); [discriminate|]. injection E as <-. auto.
  - destruct (connect_consumer b id) eqn:E; [|discriminate]. injection Hs as <- <-.
    unfold connect_consumer in E. destruct (_ || _); [discriminate|]. injection E as <-. auto.
Qed.

Lemma zero_run os b lg b' lg' :
  zero_ring b -> run b lg os = Some (b', lg') -> zero_ring b' /\ lg' = lg.
Proof.
  revert b lg. induction os as [|o os IH]; intros b lg Hz Hr; simpl in Hr.
  - injection Hr as <- <-. auto.
  - destruct (step b lg o) as [[b1 lg1]|] eqn:Hs; [|discriminate].
    destruct (zero_step _ _ _ _ _ Hz Hs) as [Hz1 ->]. exact (IH _ _ Hz1 Hr).
Qed.

Lemma zero_contents b : zero_ring b -> occupancy b = 0 /\ contents b = [].
Proof.
  intros [_ [_ [Ht _]]]. assert (Ho : occupancy b = 0).
  { unfold occupancy. rewrite Ht, Z.sub_diag. reflexivity. }
  split; [exact Ho|]. unfold contents. rewrite Ho. reflexivity.
Qed.

Lemma flat_map_seq_lookup (f : nat -> list T) q :
  (forall k x, q !! k = Some x -> f k = [x]) -> flat_map f (seq 0 (length q)) = q.
Proof.
  induction q as [|x q IH] using rev_ind; intros Hf; [reflexivity|].
  rewrite length_app, seq_app, flat_map_app. simpl.
  rewrite IH.
  - rewrite (Hf (length q) x) by (apply list_lookup_middle; reflexivity).
    rewrite app_nil_r. reflexivity.
  - intros k y Hk. apply Hf. apply lookup_app_l_Some. exact Hk.
Qed.

Lemma occupancy_inv b q : ring_inv b q -> occupancy b = Z.of_nat (length q).
Proof.
  intros Hi. pose proof (ri_n _ _ Hi). pose proof (cap_le _ _ Hi).
  unfold occupancy. rewrite (ri_tail _ _ Hi). unfold wrapping_add.
  rewrite Zminus_mod_idemp_l. replace (head b + Z.of_nat (length q) - head b)
    with (Z.of_nat (length q)) by lia.
  apply Z.mod_small. unfold two64. lia.
Qed.

(** The values read back by [contents] are exactly the abstract queue. *)
Lemma contents_inv b q : ring_inv b q -> contents b = q.
Proof.
  intros Hi. pose proof (cap_pos _ _ Hi). pose proof (ri_n _ _ Hi).
  unfold contents. rewrite (occupancy_inv _ _ Hi), Nat2Z.id.
  apply flat_map_seq_lookup. intros k x Hk.
  pose proof (lookup_lt_Some _ _ _ Hk).
  rewrite (get_slot_offset _ _ _ Hi). unfold wrapping_add.
  rewrite Zminus_mod, (wrap_mod_cap _ _ _ Hi), <- Zminus_mod.
  replace (head b + Z.of_nat k - head b) with (Z.of_nat k) by lia.
  rewrite Z.mod_small by lia. rewrite Nat2Z.id, Hk. reflexivity.
Qed.

Lemma disconnect_consumer_inv b q : ring_inv b q -> ring_inv (snd (disconnect_consumer b)) q.
Proof. intros []. split; simpl; assumption. Qed.

Lemma disconnect_producer_inv b q : ring_inv b q -> ring_inv (snd (disconnect_producer b)) q.
Proof. intros []. split; simpl; assumption. Qed.

Lemma connect_producer_inv b q id b' :
  ring_inv b q -> connect_producer b id = Some b' -> ring_inv b' q.
Proof.
  unfold connect_producer. intros [] H. destruct (_ || _); [discriminate|].
  injection H as <-. split; simpl; assumption.
Qed.

Lemma connect_consumer_inv b q id b' :
  ring_inv b q -> connect_consumer b id = Some b' -> ring_inv b' q.
Proof.
  unfold connect_consumer. intros [] H. destruct (_ || _); [discriminate|].
  injection H as <-. split; simpl; assumption.
Qed.

Lemma push_commit_capacity b t v r b' :
  push_commit b t v = Some (r, b') -> capacity b' = capacity b.
Proof. unfold push_commit. destruct (get_slot _ _); intros H; inversion H; reflexivity. Qed.

Lemma try_push_capacity b v r b' : try_push b v = Some (r, b') -> capacity b' = capacity b.
Proof.
  unfold try_push. destruct (consumer_disconnected b); [intros H; inversion H; reflexivity|].
  destruct (tail b =? limit b); [|apply push_commit_capacity].
  destruct (get_slot _ _) as [[?|]|]; [|intros H; apply push_commit_capacity in H; exact H|discriminate].
  destruct (get_slot _ _) as [[?|]|]; [intros H; inversion H; reflexivity| |discriminate].
  intros H; apply push_commit_capacity in H; exact H.
Qed.

Lemma try_pop_capacity b r b' : try_pop b = Some (r, b') -> capacity b' = capacity b.
Proof.
  unfold try_pop. destruct (get_slot _ _) as [[?|]|]; intros H; inversion H; reflexivity.
Qed.

Lemma step_inv b lg o b' lg' q :
  ring_inv b q -> pushed lg = popped lg ++ q -> step b lg o = Some (b', lg') ->
  exists q', ring_inv b' q' /\ pushed lg' = popped lg' ++ q' /\ capacity b' = capacity b.
Proof.
  intros Hi Hl Hs. destruct o as [v| | | |id|id]; simpl in Hs.
  - destruct (try_push_inv b q v Hi) as [r [b1 [Hp Hc]]]. rewrite Hp in Hs.
    apply try_push_capacity in Hp.
    destruct Hc as [[_ [-> ->]]|[_ [_ [-> Hb1]]]]; injection Hs as <- <-.
    + eauto.
    + exists (q ++ [v]). simpl. rewrite Hl, app_assoc. auto.
  - destruct (try_pop_inv b q Hi) as [[-> Hp]|[v [q' [b1 [-> [Hp Hb1]]]]]];
      rewrite Hp in Hs; injection Hs as <- <-.
    + eauto.
    + apply try_pop_capacity in Hp. exists q'. simpl. rewrite Hl, <- app_assoc. auto.
  - injection Hs as <- <-. exists q. split; [apply disconnect_producer_inv; exact Hi|]. auto.
  - injection Hs as <- <-. exists q. split; [apply disconnect_consumer_inv; exact Hi|]. auto.
  - destruct (connect_producer b id) eqn:Ec; [|discriminate]. injection Hs as <- <-.
    exists q. split; [eapply connect_producer_inv; eassumption|].
    unfold connect_producer in Ec. destruct (_ || _); [discriminate|]. injection Ec as <-. auto.
  - destruct (connect_consumer b id) eqn:Ec; [|discriminate]. injection Hs as <- <-.
    exists q. split; [eapply connect_consumer_inv; eassumption|].
    unfold connect_consumer in Ec. destruct (_ || _); [discriminate|]. injection Ec as <-. auto.
Qed.

Lemma run_inv os b lg b' lg' q :
  ring_inv b q -> pushed lg = popped lg ++ q -> run b lg os = Some (b', lg') ->
  exists q', ring_inv b' q' /\ pushed lg' = popped lg' ++ q' /\ capacity b' = capacity b.
Proof.
  revert b lg q. induction os as [|o os IH]; intros b lg q Hi Hl Hr; simpl in Hr.
  - injection Hr as <- <-. eauto.
  - destruct (step b lg o) as [[b1 lg1]|] eqn:Hs; [|discriminate].
    destruct (step_inv _ _ _ _ _ _ Hi Hl Hs) as [q1 [Hi1 [Hl1 Hc1]]].
    destruct (IH _ _ _ Hi1 Hl1 Hr) as [q2 [? [? Hc2]]]. exists q2. rewrite Hc2, Hc1. auto.
Qed.


(** Every ring reached from [inner_make] either keeps the ring invariant
    (capacity at most [2^63]) or is the release build's ring without
    slots, on which no push has succeeded. *)
Lemma reach_cases dbg cap iv b0 os b lg :
  0 <= iv < two64 -> inner_make dbg cap iv = Some b0 ->
  run b0 (mk_log [] []) os = Some (b, lg) ->
  (cap <= 2 ^ 63 /\ exists q, ring_inv b q /\ pushed lg = popped lg ++ q /\ capacity b = capacity b0) \/
  (2 ^ 63 < cap /\ dbg = false /\ zero_ring b0 /\ zero_ring b /\ lg = mk_log [] []).
Proof.
  intros Hiv Hm Hr. destruct (Z.le_gt_cases cap (2 ^ 63)) as [Hc|Hc].
  - left. split; [exact Hc|].
    exact (run_inv os b0 (mk_log [] []) b lg [] (inner_make_inv _ _ _ _ Hiv Hc Hm) eq_refl Hr).
  - right. destruct (inner_make_zero _ _ _ _ Hiv Hc Hm) as [-> Hz].
    destruct (zero_run _ _ _ _ _ Hz Hr). auto.
Qed.

(** Claim C4.  In every single-threaded interleaving of operations on a
    ring made by [make cap] in either build (pushes, pops, connects and
    disconnects), the wrapped distance [tail - head] stays within
    [0, capacity], [tail] is [head] plus that distance, and the values
    popped so far followed by the values still in the ring are exactly
    the values pushed successfully, in push order.  This includes the
    ring of capacity [0] a release build makes for [cap > 2^63]: no push
    succeeds on it (a push to a connected consumer and every pop panic). *)
Theorem ring_fifo (dbg : bool) (cap : Z) (b0 : buffer T) (os : list (op T)) (b : buffer T) (lg : log T) :
  make dbg cap = Some b0 ->
  run b0 (mk_log [] []) os = Some (b, lg) ->
  0 <= occupancy b <= capacity b0 /\
  tail b = wrapping_add (head b) (occupancy b) /\
  pushed lg = popped lg ++ contents b.
Proof.
  intros Hm Hr.
  destruct (reach_cases dbg cap 0 b0 os b lg ltac:(unfold two64; lia) Hm Hr)
    as [[_ [q [Hi [Hl Hc]]]]|[_ [_ [[_ [Hc0 _]] [Hz ->]]]]].
  - rewrite (occupancy_inv _ _ Hi), (contents_inv _ _ Hi), <- Hc.
    split; [pose proof (ri_n _ _ Hi); lia|]. split; [exact (ri_tail _ _ Hi)|exact Hl].
  - destruct (zero_contents _ Hz) as [-> ->]. destruct Hz as [_ [_ [Ht Hh]]].
    rewrite Hc0. split; [lia|]. split; [|reflexivity].
    unfold wrapping_add. rewrite Z.add_0_r, Z.mod_small; [exact Ht|exact Hh].
Qed.

(** Claim C7, corrected.  On a ring reached from [make cap] with
    [cap <= 2^63] (either build), [try_push] gives the value back, with
    the ring unchanged, exactly when the ring is full or the consumer is
    disconnected (when disconnected it returns at once); otherwise it
    appends the value and reports success.  For [cap > 2^63] a debug
    build panics in [make], and on the release build's ring of capacity
    [0] (always full) [try_push] gives the value back to a disconnected
    consumer and otherwise panics, the slot index being out of bounds. *)
Theorem try_push_full_or_disconnected (dbg : bool) (cap : Z) (b0 : buffer T) (os : list (op T))
    (b : buffer T) (lg : log T) (v : T) :
  make dbg cap = Some b0 ->
  run b0 (mk_log [] []) os = Some (b, lg) ->
  (cap <= 2 ^ 63 ->
   exists r b', try_push b v = Some (r, b') /\
    (r = Some v <-> occupancy b = capacity b \/ consumer_disconnected b = true) /\
    (r = Some v -> b' = b) /\
    (r = None -> contents b' = contents b ++ [v]) /\
    (consumer_disconnected b = true -> try_push b v = Some (Some v, b))) /\
  (2 ^ 63 < cap ->
   dbg = false /\ occupancy b = capacity b /\ capacity b = 0 /\
   try_push b v = if consumer_disconnected b then Some (Some v, b) else None).
Proof.
  intros Hm Hr.
  destruct (reach_cases dbg cap 0 b0 os b lg ltac:(unfold two64; lia) Hm Hr)
    as [[Hc [q [Hi _]]]|[Hc [Hd [_ [Hz _]]]]]; split; intros Hc'; try lia.
  - destruct (try_push_inv b q v Hi) as [r [b' [Hp Hcs]]].
    exists r, b'. split; [exact Hp|].
    rewrite (occupancy_inv _ _ Hi).
    split; [|split; [|split]].
    + destruct Hcs as [[Hd [-> _]]|[Hd [Hn [-> _]]]].
      * split; [intros _|reflexivity]. destruct Hd; auto.
      * split; [discriminate|]. rewrite Hd. intros [|]; [lia|discriminate].
    + destruct Hcs as [[_ [_ ->]]|[_ [_ [-> _]]]]; [reflexivity|discriminate].
    + intros ->. destruct Hcs as [[_ [? _]]|[_ [_ [_ Hb']]]]; [discriminate|].
      rewrite (contents_inv _ _ Hb'), (contents_inv _ _ Hi). reflexivity.
    + intros Hd. unfold try_push. rewrite Hd. reflexivity.
  - split; [exact Hd|]. destruct (zero_contents _ Hz) as [-> _]. pose proof Hz as [Hs [Hc0 _]].
    rewrite Hc0. split; [reflexivity|]. split; [reflexivity|]. apply try_push_zero. exact Hs.
Qed.

End Ring.

Lemma npot_least x : x <= 2 ^ 63 ->
  x <= next_power_of_two x /\ (1 < next_power_of_two x -> next_power_of_two x / 2 < x).
Proof.
  intros Hx. unfold next_power_of_two. destruct (x <=? 1) eqn:E.
  - apply Z.leb_le in E. lia.
  - apply Z.leb_gt in E. pose proof (Z.log2_nonneg (x - 1)).
    pose proof (Z.log2_spec (x - 1) ltac:(lia)) as [H1 H2].
    rewrite Z.pow_succ_r in H2 by lia. rewrite Z.pow_add_r, Z.pow_1_r by lia. split; [lia|].
    rewrite Z.div_mul by lia. lia.
Qed.

(** Claim C5, corrected.  For [cap <= 2^63], [make cap] (either build)
    rounds the capacity up to the least power of two that is at least
    [cap], and chooses the look-ahead stride [clamp (capacity / 4) 1 4096]
    of that capacity.  Above [2^63] [next_power_of_two] overflows: a
    debug build panics, and a release build makes a ring of capacity [0]
    with mask [usize::MAX], stride [1] and no slot, on which [try_pop]
    panics.  For a requested capacity of 10 the capacity is 16; from the
    empty ring the 16 pushes of 0..15 all succeed, pushing 16 then gives
    16 back with the ring unchanged, and after one pop (which returns 0)
    pushing 16 again succeeds. *)
Theorem make_rounds_capacity (dbg : bool) (cap : Z) :
  (cap <= 2 ^ 63 ->
   exists b : buffer Z, make dbg cap = Some b /\
     (exists k, 0 <= k /\ capacity b = 2 ^ k) /\
     cap <= capacity b /\ (1 < capacity b -> capacity b / 2 < cap) /\
     lookahead b = clamp (capacity b / 4) 1 4096) /\
  (2 ^ 63 < cap ->
   (dbg = true -> make (T := Z) dbg cap = None) /\
   (dbg = false -> exists b : buffer Z, make dbg cap = Some b /\ capacity b = 0 /\
      mask b = usize_max /\ lookahead b = 1 /\ buffer_storage b = [] /\ try_pop b = None)) /\
  (exists b0 b16 b17 b18 : buffer Z,
     make dbg 10 = Some b0 /\ capacity b0 = 16 /\ lookahead b0 = 4 /\
     run b0 (mk_log [] []) (map Push (seqZ 0 16)) = Some (b16, mk_log (seqZ 0 16) []) /\
     try_push b16 16 = Some (Some 16, b16) /\
     try_pop b16 = Some (Some 0, b17) /\
     try_push b17 16 = Some (None, b18)).
Proof.
  split; [|split].
  - intros Hc. eexists. split.
    { unfold make, inner_make. rewrite (proj2 (Z.ltb_ge _ _) Hc), andb_false_r, (npot_small cap Hc).
      reflexivity. }
    cbn [capacity lookahead]. destruct (npot_pow cap Hc) as [k [Hk Hp]].
    split; [exists k; split; [lia|exact Hp]|]. destruct (npot_least cap Hc).
    split; [assumption|]. split; [assumption|]. unfold MAX_LOOKAHEAD. reflexivity.
  - intros Hc. split.
    + intros ->. unfold make, inner_make. rewrite (proj2 (Z.ltb_lt _ _) Hc). reflexivity.
    + intros ->. eexists. split.
      { unfold make, inner_make. rewrite andb_false_l, (npot_overflow cap Hc). reflexivity. }
      vm_compute. split_and!; reflexivity.
  - destruct dbg; do 4 eexists; split; [vm_compute; reflexivity| |vm_compute; reflexivity|];
      (split; [reflexivity|]); (split; [reflexivity|]);
      (split; [vm_compute; reflexivity|]); (split; [vm_compute; reflexivity|]);
      (split; [vm_compute; reflexivity|]); vm_compute; reflexivity.
Qed.

(** Claim C5 does not hold above [2^63]: the requested capacity
    [2^63 + 1] is not rounded up to a power of two that holds it; a debug
    build panics and a release build makes a ring of capacity [0]. *)
Lemma make_overflow_cex :
  make true (2 ^ 63 + 1) = (None : option (buffer Z)) /\
  exists b : buffer Z, make false (2 ^ 63 + 1) = Some b /\ capacity b = 0 /\ capacity b < 2 ^ 63 + 1.
Proof.
  split; [vm_compute; reflexivity|]. eexists. split; [vm_compute; reflexivity|].
  vm_compute. split; reflexivity.
Qed.

(** Claim C7 does not hold for the ring a release build makes for a
    capacity above [2^63]: with no slot and capacity [0] the ring is
    full and the consumer is not disconnected, yet [try_push] panics
    (index out of bounds) instead of giving the value back. *)
Lemma try_push_zero_ring_cex :
  exists b : buffer Z, make false (2 ^ 63 + 1) = Some b /\
    occupancy b = capacity b /\ consumer_disconnected b = false /\ try_push b 1 = None.
Proof. eexists. split; [vm_compute; reflexivity|]. vm_compute. split_and!; reflexivity. Qed.

Lemma ring_fifo_witness :
  exists (b0 b : buffer Z) (lg : log Z),
    make true 4 = Some b0 /\ run b0 (mk_log [] [])
      [Push 1; Push 2; Pop; Push 3; DisconnectConsumer; Push 4] = Some (b, lg) /\
    (0 <= occupancy b <= capacity b0 /\
     tail b = wrapping_add (head b) (occupancy b) /\
     pushed lg = popped lg ++ contents b).
Proof.
  do 3 eexists. split; [vm_compute; reflexivity|]. split; [vm_compute; reflexivity|].
  apply (ring_fifo true 4 _ [Push 1; Push 2; Pop; Push 3; DisconnectConsumer; Push 4]); vm_compute; reflexivity.
Defined.

Lemma make_rounds_capacity_witness :
  (exists b : buffer Z, make false 10 = Some b /\
     (exists k, 0 <= k /\ capacity b = 2 ^ k) /\
     10 <= capacity b /\ (1 < capacity b -> capacity b / 2 < 10) /\
     lookahead b = clamp (capacity b / 4) 1 4096) /\
  (exists b : buffer Z, make false (2 ^ 63 + 1) = Some b /\ capacity b = 0 /\
      mask b = usize_max /\ lookahead b = 1 /\ buffer_storage b = [] /\ try_pop b = None).
Proof.
  split.
  - apply (proj1 (make_rounds_capacity false 10)). lia.
  - apply (proj1 (proj2 (make_rounds_capacity false (2 ^ 63 + 1))) ltac:(lia)). reflexivity.
Defined.

Lemma try_push_full_or_disconnected_witness :
  exists (b0 b : buffer Z) (lg : log Z),
    make true 1 = Some b0 /\ run b0 (mk_log [] []) [Push 7] = Some (b, lg) /\
    exists r b', try_push b 8 = Some (r, b') /\
      (r = Some 8 <-> occupancy b = capacity b \/ consumer_disconnected b = true) /\
      (r = Some 8 -> b' = b) /\
      (r = None -> contents b' = contents b ++ [8]) /\
      (consumer_disconnected b = true -> try_push b 8 = Some (Some 8, b)).
Proof.
  do 3 eexists. split; [vm_compute; reflexivity|]. split; [vm_compute; reflexivity|].
  refine (proj1 (try_push_full_or_disconnected true 1 _ [Push 7] _ (mk_log [7] []) 8 _ _) _).
  - vm_compute; reflexivity.
  - vm_compute; reflexivity.
  - lia.
Defined.

End SpscProofs.

(** * Task arena *)

Module ArenaProofs.
Import Arena.

Lemma add_usize_ok dbg x y : 0 <= x -> 0 <= y -> x + y < two64 -> add_usize dbg x y = Some (x + y).
Proof.
  intros. unfold add_usize. rewrite (proj2 (Z.leb_gt _ _)) by lia. rewrite andb_false_r.
  rewrite Z.mod_small by lia. reflexivity.
Qed.

Lemma sub_usize_ok dbg x y : 0 <= y <= x -> x < two64 -> sub_usize dbg x y = Some (x - y).
Proof.
  intros. unfold sub_usize. rewrite (proj2 (Z.ltb_ge _ _)) by lia. rewrite andb_false_r.
  rewrite Z.mod_small by lia. reflexivity.
Qed.



End ArenaProofs.

(** * Timing wheel *)

Module TWProofs.
Import TW.

(** ** Lists *)

Lemma concat_insert_perm {A} (L : list (list A)) s x v :
  L !! s = Some x -> concat (<[s := v]> L) ++ x ≡ₚ concat L ++ v.
Proof.
  intros Hs. assert (Hl : (s < length L)%nat) by (apply lookup_lt_Some in Hs; lia).
  rewrite (insert_take_drop L s v Hl).
  pose proof (take_drop_middle L s x Hs) as E.
  revert E. generalize (take s L) (drop (S s) L). intros a b <-.
  rewrite !concat_app. simpl. solve_Permutation.
Qed.

Lemma swap_remove_Some {A} (l : list A) i x l' :
  swap_remove l i = Some (x, l') ->
  l !! i = Some x /\ l ≡ₚ x :: l' /\ length l' = (length l - 1)%nat /\
  (forall j y, l' !! j = Some y ->
     (j <> i /\ l !! j = Some y) \/
     (j = i /\ (i < length l - 1)%nat /\ l !! (length l - 1)%nat = Some y)).
Proof.
  unfold swap_remove. destruct (l !! i) as [x0|] eqn:Hi; [|discriminate].
  intros [= <- <-]. pose proof (lookup_lt_Some _ _ _ Hi) as Hil.
  set (n := (length l - 1)%nat).
  assert (Hln : length (take n l) = n) by (rewrite length_take; lia).
  case_bool_decide as Hin.
  - destruct (l !! n) as [y|] eqn:Hn; [|apply lookup_ge_None in Hn; lia]. simpl.
    split; [done|]. split; [|split].
    + assert (Hl : l = take n l ++ [y]).
      { rewrite <- (take_drop n l) at 1. f_equal.
        rewrite (drop_S l y n Hn), drop_ge by lia. done. }
      assert (Ht : take n l !! i = Some x0) by (rewrite lookup_take_lt by lia; done).
      rewrite (insert_take_drop (take n l) i y) by lia.
      pose proof (take_drop_middle (take n l) i x0 Ht) as E.
      rewrite Hl at 1. rewrite <- E at 1.
      revert E. generalize (take i (take n l)) (drop (S i) (take n l)). intros a b _.
      solve_Permutation.
    + rewrite length_insert. lia.
    + intros j z Hj. destruct (decide (j = i)) as [->|Hji].
      * right. rewrite list_lookup_insert_eq in Hj by lia. injection Hj as <-. done.
      * left. split; [done|]. rewrite list_lookup_insert_ne in Hj by lia.
        pose proof (lookup_lt_Some _ _ _ Hj) as Hjl. rewrite Hln in Hjl.
        rewrite lookup_take_lt in Hj; [done|lia].
  - split; [done|]. split; [|split].
    + assert (i = n) as -> by lia.
      rewrite <- (take_drop n l) at 1. rewrite (drop_S l x0 n Hi), drop_ge by lia.
      solve_Permutation.
    + lia.
    + intros j z Hj. left. pose proof (lookup_lt_Some _ _ _ Hj) as Hjl.
      split; [lia|]. rewrite lookup_take_lt in Hj; [done|lia].
Qed.

Lemma swap_remove_lookup {A} (l : list A) i x :
  l !! i = Some x -> exists l', swap_remove l i = Some (x, l').
Proof. intros Hi. unfold swap_remove. rewrite Hi. eauto. Qed.

(** ** Views of the wheel's fields *)

Lemma lv_set_lv_eq w l a : (l < 4)%nat -> lv (set_lv w l a) l = a.
Proof. intros Hl. destruct l as [|[|[|[|l]]]]; [done..|lia]. Qed.

Lemma lv_set_lv_ne w l l' a : l <> l' -> lv (set_lv w l a) l' = lv w l'.
Proof.
  intros Hl. destruct l as [|[|[|[|l]]]]; [..|done];
    destruct l' as [|[|[|[|l']]]]; done.
Qed.

Lemma lv_ge w l : (4 <= l)%nat -> lv w l = [].
Proof. intros Hl. destruct l as [|[|[|[|l]]]]; [lia..|done]. Qed.

Lemma set_lv_index w l a : index (set_lv w l a) = index w.
Proof. destruct l as [|[|[|[|l]]]]; done. Qed.
Lemma set_lv_expired w l a : expired (set_lv w l a) = expired w.
Proof. destruct l as [|[|[|[|l]]]]; done. Qed.
Lemma set_lv_overflow w l a : overflow (set_lv w l a) = overflow w.
Proof. destruct l as [|[|[|[|l]]]]; done. Qed.
Lemma set_lv_current_tick w l a : current_tick (set_lv w l a) = current_tick w.
Proof. destruct l as [|[|[|[|l]]]]; done. Qed.
Lemma set_lv_start_time w l a : start_time (set_lv w l a) = start_time w.
Proof. destruct l as [|[|[|[|l]]]]; done. Qed.
Lemma set_lv_next_id w l a : next_id (set_lv w l a) = next_id w.
Proof. destruct l as [|[|[|[|l]]]]; done. Qed.

Lemma lv_set_index w m l : lv (set_index w m) l = lv w l.
Proof. destruct l as [|[|[|[|l]]]]; done. Qed.
Lemma lv_set_expired w x l : lv (set_expired w x) l = lv w l.
Proof. destruct l as [|[|[|[|l]]]]; done. Qed.
Lemma lv_set_overflow w o l : lv (set_overflow w o) l = lv w l.
Proof. destruct l as [|[|[|[|l]]]]; done. Qed.
Lemma lv_set_current_tick w t l : lv (set_current_tick w t) l = lv w l.
Proof. destruct l as [|[|[|[|l]]]]; done. Qed.
Lemma lv_set_next_id w n l : lv (set_next_id w n) l = lv w l.
Proof. destruct l as [|[|[|[|l]]]]; done. Qed.

Create Rewrite HintDb tw.
Hint Rewrite set_lv_index set_lv_expired set_lv_overflow set_lv_current_tick
  set_lv_start_time set_lv_next_id lv_set_index lv_set_expired lv_set_overflow
  lv_set_current_tick lv_set_next_id : tw.

Lemma stored_set_index w m : stored (set_index w m) = stored w.
Proof. reflexivity. Qed.
Lemma stored_set_expired w x : stored (set_expired w x) = stored w.
Proof. reflexivity. Qed.
Lemma stored_set_current_tick w t : stored (set_current_tick w t) = stored w.
Proof. reflexivity. Qed.
Lemma stored_set_next_id w n : stored (set_next_id w n) = stored w.
Proof. reflexivity. Qed.

Lemma stored_set_slot w l s x v :
  (l < 4)%nat -> lv w l !! s = Some x ->
  stored (set_slot w l s v) ++ x ≡ₚ stored w ++ v.
Proof.
  intros Hl Hs. pose proof (concat_insert_perm _ _ _ v Hs) as H.
  unfold set_slot, stored. destruct l as [|[|[|[|l]]]]; [..|lia]; simpl in *.
  - transitivity ((concat (<[s:=v]> (slots_1ms w)) ++ x) ++ concat (slots_256ms w) ++
      concat (slots_16s w) ++ concat (slots_17min w) ++ concat (map snd (overflow w)));
      [solve_Permutation|]. rewrite H. solve_Permutation.
  - transitivity (concat (slots_1ms w) ++ (concat (<[s:=v]> (slots_256ms w)) ++ x) ++
      concat (slots_16s w) ++ concat (slots_17min w) ++ concat (map snd (overflow w)));
      [solve_Permutation|]. rewrite H. solve_Permutation.
  - transitivity (concat (slots_1ms w) ++ concat (slots_256ms w) ++
      (concat (<[s:=v]> (slots_16s w)) ++ x) ++ concat (slots_17min w) ++
      concat (map snd (overflow w))); [solve_Permutation|]. rewrite H. solve_Permutation.
  - transitivity (concat (slots_1ms w) ++ concat (slots_256ms w) ++
      concat (slots_16s w) ++ (concat (<[s:=v]> (slots_17min w)) ++ x) ++
      concat (map snd (overflow w))); [solve_Permutation|]. rewrite H. solve_Permutation.
Qed.

Lemma stored_set_overflow w o x :
  concat (map snd o) ++ x ≡ₚ concat (map snd (overflow w)) ->
  stored (set_overflow w o) ++ x ≡ₚ stored w.
Proof.
  intros H. unfold stored. simpl. rewrite <- H. solve_Permutation.
Qed.

Lemma In_slot_set_slot w l s v e l' s' i :
  (l < 4)%nat -> (s < length (lv w l))%nat ->
  In_slot (set_slot w l s v) e l' s' i <->
  (l' = l /\ s' = s /\ v !! i = Some e) \/ ((l' <> l \/ s' <> s) /\ In_slot w e l' s' i).
Proof.
  intros Hl Hs. unfold In_slot, set_slot.
  destruct (decide (l' = l)) as [->|Hll].
  - rewrite lv_set_lv_eq by done. destruct (decide (s' = s)) as [->|Hss].
    + rewrite list_lookup_insert_eq by done. split.
      * intros [_ [sl [[= <-] Hi]]]. left. done.
      * intros [[_ [_ Hv]]|[[?|?] _]]; [|done..]. eauto.
    + rewrite list_lookup_insert_ne by done. split.
      * intros H. right. eauto.
      * intros [[_ [? _]]|[_ H]]; [done|]. done.
  - rewrite lv_set_lv_ne by done. split.
    + intros H. right. eauto.
    + intros [[? _]|[_ H]]; [done|]. done.
Qed.

Lemma In_slot_set_index w m e l s i : In_slot (set_index w m) e l s i <-> In_slot w e l s i.
Proof. unfold In_slot. by rewrite lv_set_index. Qed.
Lemma In_slot_set_expired w x e l s i : In_slot (set_expired w x) e l s i <-> In_slot w e l s i.
Proof. unfold In_slot. by rewrite lv_set_expired. Qed.
Lemma In_slot_set_overflow w o e l s i : In_slot (set_overflow w o) e l s i <-> In_slot w e l s i.
Proof. unfold In_slot. by rewrite lv_set_overflow. Qed.
Lemma In_slot_set_current_tick w t e l s i :
  In_slot (set_current_tick w t) e l s i <-> In_slot w e l s i.
Proof. unfold In_slot. by rewrite lv_set_current_tick. Qed.
Lemma In_slot_set_next_id w n e l s i : In_slot (set_next_id w n) e l s i <-> In_slot w e l s i.
Proof. unfold In_slot. by rewrite lv_set_next_id. Qed.

Lemma In_ov_set_slot w l s v e : In_ov (set_slot w l s v) e <-> In_ov w e.
Proof. unfold In_ov, set_slot. by rewrite set_lv_overflow. Qed.

Lemma In_stored w e :
  In e (stored w) <-> (exists l s i, In_slot w e l s i) \/ In_ov w e.
Proof.
  assert (Hc : forall (L : list (list TimerEntry)),
             In e (concat L) <-> exists s i, exists sl, L !! s = Some sl /\ sl !! i = Some e).
  { intros L. rewrite in_concat. split.
    - intros [sl [HL He]]. apply list_elem_of_In, list_elem_of_lookup in HL as [s Hs].
      apply list_elem_of_In, list_elem_of_lookup in He as [i Hi]. eauto.
    - intros [s [i [sl [Hs Hi]]]]. exists sl.
      split; apply list_elem_of_In, list_elem_of_lookup; eauto. }
  unfold stored, In_slot, In_ov. rewrite !in_app_iff, (in_concat (map snd (overflow w))), !Hc. split.
  - intros [[s [i H]]|[[s [i H]]|[[s [i H]]|[[s [i H]]|[es [Ho He]]]]]].
    + left. exists 0%nat, s, i. split; [lia|done].
    + left. exists 1%nat, s, i. split; [lia|done].
    + left. exists 2%nat, s, i. split; [lia|done].
    + left. exists 3%nat, s, i. split; [lia|done].
    + right. apply in_map_iff in Ho as [[k es'] [<- Ho]]. eauto.
  - intros [[l [s [i [Hl H]]]]|[k [es [Ho He]]]].
    + destruct l as [|[|[|[|l]]]]; [..|lia]; simpl in H; eauto 10.
    + right. right. right. right. exists es. split; [|done].
      apply in_map_iff. exists (k, es). done.
Qed.

(** ** The structural invariant *)

Lemma ids_app l r : ids (l ++ r) = ids l ++ ids r.
Proof. apply map_app. Qed.

Lemma In_ids i l : In i (ids l) <-> exists e, In e l /\ id e = i.
Proof. unfold ids. rewrite in_map_iff. naive_solver. Qed.

Lemma In_ids_of e l : In e l -> In (id e) (ids l).
Proof. intros H. apply In_ids. eauto. Qed.

Lemma ids_perm l r : l ≡ₚ r -> ids l ≡ₚ ids r.
Proof. intros H. unfold ids. by apply Permutation_map. Qed.

Lemma nodup_perm l r : l ≡ₚ r -> NoDup (ids l) -> NoDup (ids r).
Proof. intros H. by rewrite (ids_perm _ _ H). Qed.

Lemma In_perm {A} (l r : list A) x : l ≡ₚ r -> In x l -> In x r.
Proof. intros H Hx. by apply (Permutation_in _ H). Qed.

(** Two entries of a duplicate-free list of ids have distinct ids. *)
Lemma nodup_ne l e r e' :
  NoDup (ids (l ++ e :: r)) -> In e' (l ++ r) -> id e' <> id e.
Proof.
  intros Hn He' Heq.
  assert (Hp : l ++ e :: r ≡ₚ e :: l ++ r) by solve_Permutation.
  apply (nodup_perm _ _ Hp) in Hn. simpl in Hn. apply NoDup_cons in Hn as [Hn _].
  apply Hn. apply list_elem_of_In. rewrite <- Heq. by apply In_ids_of.
Qed.

Lemma nodup_fresh l e :
  NoDup (ids (l ++ [e])) <-> NoDup (ids l) /\ ~ In (id e) (ids l).
Proof.
  assert (Hp : l ++ [e] ≡ₚ e :: l) by solve_Permutation.
  rewrite (ids_perm _ _ Hp). simpl. rewrite NoDup_cons, list_elem_of_In. tauto.
Qed.

Lemma length_lv_set_slot w l s v l' :
  length (lv (set_slot w l s v) l') = length (lv w l').
Proof.
  unfold set_slot. destruct (decide (l = l')) as [<-|Hl].
  - destruct (decide (l < 4)%nat).
    + rewrite lv_set_lv_eq by done. apply length_insert.
    + rewrite lv_ge by lia. destruct l as [|[|[|[|l]]]]; [lia..|done].
  - by rewrite lv_set_lv_ne.
Qed.

Lemma ts_len_lv w :
  length (slots_1ms w) = 256%nat /\ length (slots_256ms w) = 64%nat /\
  length (slots_16s w) = 64%nat /\ length (slots_17min w) = 64%nat <->
  length (lv w 0) = 256%nat /\ length (lv w 1) = 64%nat /\
  length (lv w 2) = 64%nat /\ length (lv w 3) = 64%nat.
Proof. reflexivity. Qed.

Lemma ts_len_set_slot w l s v :
  length (slots_1ms w) = 256%nat /\ length (slots_256ms w) = 64%nat /\
  length (slots_16s w) = 64%nat /\ length (slots_17min w) = 64%nat ->
  length (slots_1ms (set_slot w l s v)) = 256%nat /\
  length (slots_256ms (set_slot w l s v)) = 64%nat /\
  length (slots_16s (set_slot w l s v)) = 64%nat /\
  length (slots_17min (set_slot w l s v)) = 64%nat.
Proof. rewrite !ts_len_lv, !length_lv_set_slot. done. Qed.

(** Slot numbers computed by the code are in range. *)
Lemma slot_in_range w l s :
  length (slots_1ms w) = 256%nat /\ length (slots_256ms w) = 64%nat /\
  length (slots_16s w) = 64%nat /\ length (slots_17min w) = 64%nat ->
  (l < 4)%nat -> (l = 0%nat -> s < 256)%nat -> (l <> 0%nat -> s < 64)%nat ->
  exists sl, lv w l !! s = Some sl.
Proof.
  intros Hlen Hl H0 H1. apply lookup_lt_is_Some_2. rewrite ts_len_lv in Hlen.
  destruct l as [|[|[|[|l]]]]; [..|lia]; simpl in *; lia.
Qed.

Lemma to_nat_mod_lt x m : 0 < m -> (Z.to_nat (x mod m) < Z.to_nat m)%nat.
Proof. intros Hm. pose proof (Z.mod_pos_bound x m Hm). lia. Qed.

Lemma ts_same_view w w' P :
  (forall l, lv w' l = lv w l) -> overflow w' = overflow w -> expired w' = expired w ->
  index w' = index w -> tw_struct w P -> tw_struct w' P.
Proof.
  intros Hlv Ho He Hi [Hlen Hnd Hsl Hov Hix].
  assert (Hs : stored w' = stored w).
  { unfold stored. rewrite Ho.
    change (slots_1ms w') with (lv w' 0); change (slots_256ms w') with (lv w' 1);
    change (slots_16s w') with (lv w' 2); change (slots_17min w') with (lv w' 3).
    rewrite !Hlv. done. }
  constructor.
  - rewrite ts_len_lv, !Hlv. done.
  - unfold all. rewrite He, Hs. done.
  - intros e l s i [Hl H]. rewrite Hi, Hlv in *. apply Hsl. split; done.
  - intros e [k [es H]]. rewrite Hi. apply Hov. exists k, es. rewrite <- Ho. done.
  - intros i lc H. rewrite Hs. rewrite Hi in H. eauto.
Qed.

Lemma ts_set_current_tick w t P : tw_struct w P -> tw_struct (set_current_tick w t) P.
Proof. apply ts_same_view; [apply lv_set_current_tick|done..]. Qed.

Lemma ts_set_next_id w n P : tw_struct w P -> tw_struct (set_next_id w n) P.
Proof. apply ts_same_view; [apply lv_set_next_id|done..]. Qed.

(** [index.remove(&e.id)] for an entry held by the loop. *)
Lemma ts_delete w e P :
  tw_struct w (e :: P) ->
  tw_struct (set_index w (delete (id e) (index w))) P /\ ~ In (id e) (ids (all w ++ P)).
Proof.
  intros [Hlen Hnd Hsl Hov Hix].
  assert (Hne : forall e', In e' (all w ++ P) -> id e' <> id e)
    by (intros e' H; by eapply nodup_ne).
  split; [constructor|].
  - done.
  - assert (Hp : all w ++ e :: P ≡ₚ e :: all w ++ P) by solve_Permutation.
    apply (nodup_perm _ _ Hp) in Hnd. simpl in Hnd. apply NoDup_cons in Hnd as [_ Hnd].
    exact Hnd.
  - intros e' l s i H. rewrite In_slot_set_index in H. simpl.
    rewrite lookup_delete_ne; [by apply Hsl|].
    intros Heq. apply (Hne e'); [|done]. unfold all. rewrite !in_app_iff, In_stored.
    eauto 10.
  - intros e' H. simpl. rewrite lookup_delete_ne; [by apply Hov|].
    intros Heq. apply (Hne e'); [|done]. unfold all. rewrite !in_app_iff, In_stored.
    eauto 10.
  - intros i lc H. simpl in H. apply lookup_delete_Some in H as [Hi H].
    apply Hix in H. rewrite ids_app in *. simpl in H. rewrite in_app_iff in *. simpl in H.
    intuition.
  - intros H. apply In_ids in H as [e' [H1 H2]]. by apply (Hne e').
Qed.

Lemma ts_push_expired w e P :
  tw_struct w P -> ~ In (id e) (ids (all w ++ P)) ->
  tw_struct (push_expired w e) P /\ all (push_expired w e) ≡ₚ e :: all w.
Proof.
  intros [Hlen Hnd Hsl Hov Hix] Hfr.
  assert (Hp : all (push_expired w e) ≡ₚ e :: all w)
    by (unfold all, push_expired; simpl; solve_Permutation).
  split; [constructor|done].
  - done.
  - apply (nodup_perm ((all w ++ P) ++ [e])); [rewrite Hp; solve_Permutation|].
    by apply nodup_fresh.
  - intros e' l s i H. unfold push_expired in H. rewrite In_slot_set_expired in H. by apply Hsl.
  - done.
  - done.
Qed.

Lemma In_slot_stored w e l s i : In_slot w e l s i -> In e (stored w).
Proof. intros H. apply In_stored. eauto. Qed.

Lemma In_ov_stored w e : In_ov w e -> In e (stored w).
Proof. intros H. apply In_stored. eauto. Qed.

Lemma fresh_ne w P e e' :
  ~ In (id e) (ids (all w ++ P)) -> In e' (stored w) -> id e' <> id e.
Proof.
  intros Hfr He' Heq. apply Hfr. rewrite <- Heq. apply In_ids_of.
  unfold all. rewrite !in_app_iff. auto.
Qed.

Lemma fresh_index w P e : tw_struct w P -> ~ In (id e) (ids (all w ++ P)) -> index w !! id e = None.
Proof.
  intros Hts Hfr. destruct (index w !! id e) as [lc|] eqn:H; [|done].
  apply (ts_index _ _ Hts) in H. exfalso. apply Hfr.
  rewrite ids_app in *. unfold all. rewrite ids_app, !in_app_iff in *. tauto.
Qed.

Lemma In_ov_concat w e : In_ov w e <-> In e (concat (map snd (overflow w))).
Proof.
  unfold In_ov. rewrite in_concat. split.
  - intros [k [es [H1 H2]]]. exists es. split; [|done]. apply in_map_iff. exists (k, es). done.
  - intros [es [H1 H2]]. apply in_map_iff in H1 as [[k es'] [<- H1]]. eauto.
Qed.

Lemma ts_insert_at_level w e l s P :
  (l < 4)%nat -> is_Some (lv w l !! s) -> tw_struct w P -> ~ In (id e) (ids (all w ++ P)) ->
  tw_struct (insert_at_level w e l s) P /\ all (insert_at_level w e l s) ≡ₚ e :: all w.
Proof.
  intros Hl [sl Hsl] Hts Hfr. pose proof (fresh_index _ _ _ Hts Hfr) as Hnone.
  destruct Hts as [Hlen Hnd Hslot Hov Hix].
  assert (Hs : (s < length (lv w l))%nat) by (by apply lookup_lt_Some in Hsl).
  unfold insert_at_level, slot_of. rewrite Hsl. simpl default.
  set (w1 := set_slot w l s (sl ++ [e])).
  assert (Hi1 : index w1 = index w) by apply set_lv_index. rewrite Hi1.
  assert (Hst : stored w1 ≡ₚ stored w ++ [e]).
  { apply (Permutation_app_inv_r sl). unfold w1. rewrite (stored_set_slot _ _ _ _ _ Hl Hsl).
    solve_Permutation. }
  assert (Hall : all (set_index w1 (<[id e:=mk_loc l s (length sl)]> (index w))) ≡ₚ e :: all w).
  { unfold all. rewrite stored_set_index, Hst. change (expired (set_index w1 ?m)) with (expired w1).
    unfold w1, set_slot. rewrite set_lv_expired.
    solve_Permutation. }
  split; [constructor|done].
  - exact (ts_len_set_slot _ _ _ _ Hlen).
  - apply (nodup_perm (e :: all w ++ P)); [rewrite Hall; solve_Permutation|].
    simpl. apply NoDup_cons. rewrite list_elem_of_In. done.
  - intros e' l' s' i H. rewrite In_slot_set_index in H. unfold w1 in H.
    rewrite In_slot_set_slot in H by done. simpl.
    destruct H as [[-> [-> H]]|[Hne H]].
    + apply lookup_app_Some in H as [H|[Hi H]].
      * rewrite lookup_insert_ne; [apply Hslot; split; eauto|].
        intros Heq. apply (fresh_ne w P e e' Hfr); [|done].
        apply (In_slot_stored w e' l s i). split; eauto.
      * apply list_lookup_singleton_Some in H as [Hi' <-].
        rewrite lookup_insert_eq. repeat f_equal. lia.
    + rewrite lookup_insert_ne; [by apply Hslot|].
      intros Heq. apply (fresh_ne w P e e' Hfr); [|done]. by eapply In_slot_stored.
  - intros e' H. simpl. unfold In_ov in H. simpl in H. unfold w1, set_slot in H.
    rewrite set_lv_overflow in H. destruct (Hov e' H) as [j Hj]. exists j.
    rewrite lookup_insert_ne; [done|].
    intros Heq. apply (fresh_ne w P e e' Hfr); [|done]. by apply In_ov_stored.
  - intros i lc H. simpl in H. apply lookup_insert_Some in H as [[<- _]|[_ H]].
    + rewrite ids_app, in_app_iff. left. apply (In_perm _ _ _ (ids_perm _ _ (symmetry Hst))).
      rewrite ids_app, in_app_iff. right. left. done.
    + apply Hix in H. rewrite ids_app, in_app_iff in *. destruct H as [H|H]; [left|by right].
      apply (In_perm _ _ _ (ids_perm _ _ (symmetry Hst))). rewrite ids_app, in_app_iff. auto.
Qed.

(** ** The overflow map *)

Lemma bt_push_concat k e o : concat (map snd (bt_push k e o)) ≡ₚ concat (map snd o) ++ [e].
Proof.
  induction o as [|[k' es] o IH]; simpl; [done|].
  destruct (k =? k'); [simpl; solve_Permutation|].
  destruct (k <? k'); simpl; [solve_Permutation|]. rewrite IH. solve_Permutation.
Qed.

Lemma ts_insert_overflow w e P j :
  tw_struct w P -> ~ In (id e) (ids (all w ++ P)) ->
  let w' := set_index (set_overflow w (bt_push (expires_at e) e (overflow w)))
              (<[id e := mk_loc 255 0 j]> (index w)) in
  tw_struct w' P /\ all w' ≡ₚ e :: all w.
Proof.
  intros Hts Hfr w'. pose proof (fresh_index _ _ _ Hts Hfr) as Hnone.
  destruct Hts as [Hlen Hnd Hslot Hov Hix].
  assert (Hst : stored w' ≡ₚ stored w ++ [e]).
  { unfold w', stored. simpl. rewrite bt_push_concat. solve_Permutation. }
  assert (Hall : all w' ≡ₚ e :: all w) by (unfold all; simpl; rewrite Hst; solve_Permutation).
  split; [constructor|done].
  - exact Hlen.
  - apply (nodup_perm (e :: all w ++ P)); [rewrite Hall; solve_Permutation|].
    simpl. apply NoDup_cons. rewrite list_elem_of_In. done.
  - intros e' l' s' i H. unfold w' in H. rewrite In_slot_set_index, In_slot_set_overflow in H.
    simpl. rewrite lookup_insert_ne; [by apply Hslot|].
    intros Heq. apply (fresh_ne w P e e' Hfr); [|done]. by eapply In_slot_stored.
  - intros e' H. simpl. rewrite In_ov_concat in H. simpl in H.
    rewrite bt_push_concat, in_app_iff in H. destruct H as [H|[<-|[]]].
    + rewrite <- In_ov_concat in H. destruct (Hov e' H) as [j' Hj']. exists j'.
      rewrite lookup_insert_ne; [done|].
      intros Heq. apply (fresh_ne w P e e' Hfr); [|done]. by apply In_ov_stored.
    + exists j. apply lookup_insert_eq.
  - intros i lc H. simpl in H. apply lookup_insert_Some in H as [[<- _]|[_ H]].
    + rewrite ids_app, in_app_iff. left. apply (In_perm _ _ _ (ids_perm _ _ (symmetry Hst))).
      rewrite ids_app, in_app_iff. right. left. done.
    + apply Hix in H. rewrite ids_app, in_app_iff in *. destruct H as [H|H]; [left|by right].
      apply (In_perm _ _ _ (ids_perm _ _ (symmetry Hst))). rewrite ids_app, in_app_iff. auto.
Qed.

(** ** Insertion *)

Lemma ts_insert_entry w e P :
  tw_struct w P -> ~ In (id e) (ids (all w ++ P)) ->
  tw_struct (insert_entry w e) P /\ all (insert_entry w e) ≡ₚ e :: all w.
Proof.
  intros Hts Hfr. pose proof (ts_len _ _ Hts) as Hlen.
  unfold insert_entry. destruct (deadline_ms w e) as [d|]; [|by apply ts_push_expired].
  destruct (d <=? current_tick w); [by apply ts_push_expired|].
  unfold LEVEL_0_SLOTS, LEVEL_1_SLOTS, LEVEL_2_SLOTS, LEVEL_3_SLOTS.
  destruct (_ <? LEVEL_1_RESOLUTION_MS);
    [|destruct (_ <? LEVEL_2_RESOLUTION_MS);
      [|destruct (_ <? LEVEL_3_RESOLUTION_MS);
        [|destruct (_ <? OVERFLOW_THRESHOLD_MS)]]];
    try (apply ts_insert_at_level; [lia|apply (slot_in_range w _ _ Hlen); [lia|..]|done|done];
         intros; match goal with |- (Z.to_nat (?x mod ?m) < _)%nat =>
           pose proof (Z.mod_pos_bound x m) end; lia).
  exact (ts_insert_overflow w e P _ Hts Hfr).
Qed.

Lemma ts_reinsert w e P :
  tw_struct w (e :: P) ->
  tw_struct (reinsert w e) P /\ all (reinsert w e) ++ P ≡ₚ all w ++ e :: P.
Proof.
  intros Hts. destruct (ts_delete _ _ _ Hts) as [Hts1 Hfr].
  unfold reinsert. destruct (ts_insert_entry _ e P Hts1 Hfr) as [Hts2 Hp].
  split; [done|]. rewrite Hp. simpl. solve_Permutation.
Qed.

Lemma ts_expire_step w e P :
  tw_struct w (e :: P) ->
  tw_struct (push_expired (set_index w (delete (id e) (index w))) e) P /\
  all (push_expired (set_index w (delete (id e) (index w))) e) ++ P ≡ₚ all w ++ e :: P.
Proof.
  intros Hts. destruct (ts_delete _ _ _ Hts) as [Hts1 Hfr].
  destruct (ts_push_expired _ e P Hts1 Hfr) as [Hts2 Hp].
  split; [done|]. rewrite Hp. simpl. solve_Permutation.
Qed.

Lemma ts_fold (f : TimingWheel -> TimerEntry -> TimingWheel) :
  (forall w e P, tw_struct w (e :: P) -> tw_struct (f w e) P /\ all (f w e) ++ P ≡ₚ all w ++ e :: P) ->
  forall es w P, tw_struct w (es ++ P) ->
  tw_struct (fold_left f es w) P /\ all (fold_left f es w) ++ P ≡ₚ all w ++ es ++ P.
Proof.
  intros Hf es. induction es as [|e es IH]; intros w P Hts; simpl; [done|].
  destruct (Hf _ _ _ Hts) as [Hts1 Hp1]. destruct (IH _ _ Hts1) as [Hts2 Hp2].
  split; [done|]. rewrite Hp2, Hp1. done.
Qed.

Lemma ts_take_slot w l s sl P :
  (l < 4)%nat -> lv w l !! s = Some sl -> tw_struct w P ->
  tw_struct (set_slot w l s []) (sl ++ P) /\ all (set_slot w l s []) ++ sl ++ P ≡ₚ all w ++ P.
Proof.
  intros Hl Hsl [Hlen Hnd Hslot Hov Hix].
  assert (Hs : (s < length (lv w l))%nat) by (by apply lookup_lt_Some in Hsl).
  set (w1 := set_slot w l s []).
  assert (Hst : stored w1 ++ sl ≡ₚ stored w)
    by (unfold w1; rewrite (stored_set_slot _ _ _ _ _ Hl Hsl); solve_Permutation).
  assert (He1 : expired w1 = expired w) by apply set_lv_expired.
  assert (Hi1 : index w1 = index w) by apply set_lv_index.
  assert (Hall : all w1 ++ sl ++ P ≡ₚ all w ++ P)
    by (unfold all; rewrite He1, <- Hst; solve_Permutation).
  split; [constructor|done].
  - exact (ts_len_set_slot _ _ _ _ Hlen).
  - exact (nodup_perm _ _ (symmetry Hall) Hnd).
  - intros e' l' s' i H. unfold w1 in H. rewrite In_slot_set_slot in H by done.
    rewrite Hi1. destruct H as [[_ [_ H]]|[_ H]]; [done|]. by apply Hslot.
  - intros e' H. rewrite Hi1. apply Hov. unfold w1 in H. exact (proj1 (In_ov_set_slot _ _ _ _ _) H).
  - intros i lc H. rewrite Hi1 in H. apply Hix in H.
    apply (In_perm _ _ _ (ids_perm (stored w ++ P) (stored w1 ++ sl ++ P) ltac:(rewrite <- Hst; solve_Permutation))).
    done.
Qed.

Lemma ts_expire_slot w s :
  (s < 256)%nat -> tw_struct w [] ->
  tw_struct (expire_slot w s) [] /\ all (expire_slot w s) ≡ₚ all w.
Proof.
  intros Hs Hts. destruct (slot_in_range w 0 s (ts_len _ _ Hts)) as [sl Hsl]; [lia|lia|lia|].
  unfold expire_slot, slot_of. rewrite Hsl. simpl default.
  destruct (ts_take_slot w 0 s sl [] ltac:(lia) Hsl Hts) as [Hts1 Hp1].
  destruct (ts_fold _ ts_expire_step sl _ [] Hts1) as [Hts2 Hp2].
  split; [done|]. rewrite <- (app_nil_r (all (fold_left _ _ _))), Hp2, Hp1. by rewrite app_nil_r.
Qed.

Lemma ts_cascade_slot w l s :
  (s < 64)%nat -> tw_struct w [] ->
  tw_struct (cascade_slot w l s) [] /\ all (cascade_slot w l s) ≡ₚ all w.
Proof.
  intros Hs Hts. unfold cascade_slot. case_bool_decide as Hl; [|done].
  destruct (slot_in_range w l s (ts_len _ _ Hts)) as [sl Hsl]; [lia|lia|lia|].
  unfold slot_of. rewrite Hsl. simpl default.
  destruct (ts_take_slot w l s sl [] ltac:(lia) Hsl Hts) as [Hts1 Hp1].
  destruct (ts_fold _ ts_reinsert sl _ [] Hts1) as [Hts2 Hp2].
  split; [done|]. rewrite <- (app_nil_r (all (fold_left _ _ _))), Hp2, Hp1. by rewrite app_nil_r.
Qed.

(** ** Time *)

Lemma bt_remove_Some k o es o' :
  bt_remove k o = Some (es, o') ->
  concat (map snd o) ≡ₚ es ++ concat (map snd o') /\ (forall p, In p o' -> In p o) /\
  In (k, es) o.
Proof.
  revert o'. induction o as [|[k' es'] o IH]; intros o'; simpl; [discriminate|].
  destruct (k =? k') eqn:Hk.
  - intros [= <- <-]. apply Z.eqb_eq in Hk as <-. split; [done|]. split; [|by left].
    intros p Hp. by right.
  - destruct (bt_remove k o) as [[r o'']|] eqn:Hr; [|discriminate].
    intros [= <- <-]. destruct (IH o'' eq_refl) as [Hp [Hin Hk']].
    split; [|split].
    + simpl. rewrite Hp. solve_Permutation.
    + intros p [<-|Hp']; [by left|right; auto].
    + by right.
Qed.

Lemma ts_take_bucket w k es o' P :
  bt_remove k (overflow w) = Some (es, o') -> tw_struct w P ->
  tw_struct (set_overflow w o') (es ++ P) /\ all (set_overflow w o') ++ es ++ P ≡ₚ all w ++ P.
Proof.
  intros Hr [Hlen Hnd Hslot Hov Hix]. destruct (bt_remove_Some _ _ _ _ Hr) as [Hc [Hin _]].
  assert (Hst : stored (set_overflow w o') ++ es ≡ₚ stored w)
    by (apply stored_set_overflow; rewrite Hc; solve_Permutation).
  assert (Hall : all (set_overflow w o') ++ es ++ P ≡ₚ all w ++ P)
    by (unfold all; simpl; rewrite <- Hst; solve_Permutation).
  split; [constructor|done].
  - exact Hlen.
  - exact (nodup_perm _ _ (symmetry Hall) Hnd).
  - intros e' l s i H. rewrite In_slot_set_overflow in H. by apply Hslot.
  - intros e' [k' [es' [H1 H2]]]. apply Hov. exists k', es'. split; [|done]. by apply Hin.
  - intros i lc H. apply Hix in H.
    apply (In_perm _ _ _ (ids_perm (stored w ++ P) (stored (set_overflow w o') ++ es ++ P)
             ltac:(rewrite <- Hst; solve_Permutation))).
    done.
Qed.

Lemma ts_check_overflow w :
  tw_struct w [] -> tw_struct (check_overflow w) [] /\ all (check_overflow w) ≡ₚ all w.
Proof.
  unfold check_overflow. generalize (filter (fun k => k <=? current_time w + OVERFLOW_THRESHOLD_MS * NS_PER_MS)
    (map fst (overflow w))). intros ks.
  revert w. induction ks as [|k ks IH]; intros w Hts; simpl; [done|].
  destruct (bt_remove k (overflow w)) as [[es o']|] eqn:Hr; [|by apply IH].
  destruct (ts_take_bucket _ _ _ _ [] Hr Hts) as [Hts1 Hp1].
  destruct (ts_fold _ ts_reinsert es _ [] Hts1) as [Hts2 Hp2].
  destruct (IH _ Hts2) as [Hts3 Hp3]. split; [done|].
  rewrite Hp3. rewrite <- (app_nil_r (all (fold_left _ _ _))), Hp2, Hp1. by rewrite app_nil_r.
Qed.

Lemma ts_trans w w' w'' :
  tw_struct w' [] /\ all w' ≡ₚ all w ->
  (tw_struct w' [] -> tw_struct w'' [] /\ all w'' ≡ₚ all w') ->
  tw_struct w'' [] /\ all w'' ≡ₚ all w.
Proof. intros [H1 P1] H. destruct (H H1) as [H2 P2]. split; [done|]. by rewrite P2. Qed.

Lemma ts_if (b : bool) (f : TimingWheel -> TimingWheel) w :
  (tw_struct w [] -> tw_struct (f w) [] /\ all (f w) ≡ₚ all w) ->
  tw_struct w [] -> tw_struct (if b then f w else w) [] /\ all (if b then f w else w) ≡ₚ all w.
Proof. intros H Hts. destruct b; [by apply H|done]. Qed.

Lemma ts_cascade_mod w l x :
  tw_struct w [] ->
  tw_struct (cascade_slot w l (Z.to_nat (x mod 64))) [] /\
  all (cascade_slot w l (Z.to_nat (x mod 64))) ≡ₚ all w.
Proof.
  intros H. apply ts_cascade_slot; [|done].
  pose proof (to_nat_mod_lt x 64 ltac:(done)). done.
Qed.

Lemma ts_tick w : tw_struct w [] -> tw_struct (tick w) [] /\ all (tick w) ≡ₚ all w.
Proof.
  intros Hts. unfold tick. cbv zeta.
  eapply ts_trans; [|apply ts_check_overflow].
  eapply ts_trans; [|apply (ts_if _ (fun w => cascade_slot w 3 _)); apply ts_cascade_mod].
  eapply ts_trans; [|apply (ts_if _ (fun w => cascade_slot w 2 _)); apply ts_cascade_mod].
  eapply ts_trans; [|apply (ts_if _ (fun w => cascade_slot w 1 _)); apply ts_cascade_mod].
  eapply ts_trans; [|apply ts_expire_slot; apply (to_nat_mod_lt _ 256); done].
  split; [by apply ts_set_current_tick|done].
Qed.

Lemma ts_advance_to w now :
  tw_struct w [] -> tw_struct (advance_to w now) [] /\ all (advance_to w now) ≡ₚ all w.
Proof.
  intros Hts. unfold advance_to. destruct (now <=? start_time w); [done|].
  eapply ts_trans; [|apply ts_check_overflow].
  generalize (Z.to_nat (Z.min ((now - start_time w) / NS_PER_MS) usize_max - current_tick w)).
  intros n. induction n as [|n IH]; simpl; [done|].
  eapply ts_trans; [exact IH|apply ts_tick].
Qed.

Lemma ts_drain w :
  tw_struct w [] ->
  tw_struct (snd (drain_expired w)) [] /\ all w = expired w ++ all (snd (drain_expired w)).
Proof.
  intros [Hlen Hnd Hslot Hov Hix]. split; [constructor|done].
  - exact Hlen.
  - unfold all in Hnd. rewrite app_nil_r, ids_app in Hnd. apply NoDup_app in Hnd as [_ [_ Hnd]].
    unfold all. simpl. rewrite app_nil_r. exact Hnd.
  - exact Hslot.
  - exact Hov.
  - exact Hix.
Qed.

(** [index] holds exactly the ids of the stored entries. *)
Lemma ts_index_iff w : tw_struct w [] -> forall i, is_Some (index w !! i) <-> In i (ids (stored w)).
Proof.
  intros Hts i. split.
  - intros [lc H]. apply (ts_index _ _ Hts) in H. by rewrite app_nil_r in H.
  - intros H. apply In_ids in H as [e [He <-]]. apply In_stored in He as [[l [s [j H]]]|H].
    + apply (ts_slot _ _ Hts) in H. by rewrite H.
    + destruct (ts_ov _ _ Hts _ H) as [j Hj]. by rewrite Hj.
Qed.

Lemma ts_len_all w : tw_struct w [] -> len w = Z.of_nat (length (all w)).
Proof.
  intros Hts. unfold len, all. rewrite length_app.
  assert (Hn : NoDup (ids (stored w))).
  { pose proof (ts_nodup _ _ Hts) as H. unfold all in H. rewrite app_nil_r, ids_app in H.
    by apply NoDup_app in H as [_ [_ H]]. }
  assert (size (index w) = length (stored w)) as ->; [|lia].
  unfold ids in Hn. rewrite <- (length_map id (stored w)).
  rewrite <- (size_list_to_set (C:=gset Z) _ Hn), <- size_dom. f_equal.
  apply set_eq. intros i. rewrite elem_of_dom, elem_of_list_to_set, (ts_index_iff _ Hts).
  symmetry. apply list_elem_of_In.
Qed.

(** ** Removal *)

Lemma index_loc w i lc :
  tw_struct w [] -> index w !! i = Some lc ->
  exists e, id e = i /\
    ((level lc < 4 /\ In_slot w e (level lc) (slot lc) (index_in_slot lc))%nat \/
     (level lc = 255 /\ In_ov w e)%nat).
Proof.
  intros Hts H. pose proof (ts_index _ _ Hts _ _ H) as Hi. rewrite app_nil_r in Hi.
  apply In_ids in Hi as [e [He <-]]. exists e. split; [done|].
  apply In_stored in He as [[l [s [j Hs]]]|Ho].
  - left. rewrite (ts_slot _ _ Hts _ _ _ _ Hs) in H. injection H as <-. simpl.
    split; [apply Hs|done].
  - right. destruct (ts_ov _ _ Hts _ Ho) as [j Hj]. rewrite Hj in H. injection H as <-. done.
Qed.

Lemma remove_at_location_spec w e l s j :
  tw_struct w [] -> In_slot w e l s j ->
  let w' := remove_at_location (set_index w (delete (id e) (index w))) (mk_loc l s j) in
  tw_struct w' [] /\ all w ≡ₚ e :: all w' /\ shrinks w' w.
Proof.
  intros Hts Hin w'. pose proof Hin as [Hl [sl [Hsl Hj]]].
  pose proof (ts_slot _ _ Hts _ _ _ _ Hin) as Hie.
  destruct (swap_remove_lookup _ _ _ Hj) as [sl' Hsw].
  destruct (swap_remove_Some _ _ _ _ Hsw) as [_ [Hperm [Hlen' Hpos]]].
  set (w1 := set_index w (delete (id e) (index w))) in w'.
  set (w2 := set_slot w1 l s sl').
  assert (Hsl1 : slot_of w1 l s = sl) by (unfold slot_of, w1; rewrite lv_set_index, Hsl; done).
  assert (Hjl : (j < length sl)%nat) by (by apply lookup_lt_Some in Hj).
  (* the final index, and the entry moved into position [j] *)
  assert (Hfin : exists m, w' = set_index w2 m /\
            (forall x, m !! x = if decide (x = id e) then None else
                 match sl' !! j with
                 | Some y => if (bool_decide (j < length sl')%nat && bool_decide (x = id y))%bool
                             then Some (mk_loc l s j) else index w !! x
                 | None => index w !! x
                 end)).
  { unfold w', remove_at_location. simpl. rewrite bool_decide_true by done.
    rewrite Hsl1, bool_decide_false by lia. rewrite Hsw. fold w2.
    case_bool_decide as Hjs.
    - destruct (lookup_lt_is_Some_2 sl' j Hjs) as [y Hy]. rewrite Hy. simpl.
      destruct (Hpos _ _ Hy) as [[? _]|[_ [_ Hy']]]; [done|].
      assert (Hiy : index w !! id y = Some (mk_loc l s (length sl - 1))).
      { apply (ts_slot _ _ Hts). split; [done|]. eauto. }
      assert (Hne : id y <> id e).
      { intros Heq. rewrite Heq, Hie in Hiy. injection Hiy. lia. }
      assert (Hi2 : index w2 = delete (id e) (index w))
        by (unfold w2, w1, set_slot; by rewrite set_lv_index).
      rewrite Hi2, lookup_delete_ne by congruence. rewrite Hiy. simpl.
      eexists. split; [reflexivity|]. intros x. simpl.
      destruct (decide (x = id e)) as [->|Hx]; [by rewrite lookup_delete_eq|].
      rewrite lookup_delete_ne by congruence.
      destruct (decide (x = id y)) as [->|Hxy].
      + rewrite lookup_insert_eq, bool_decide_true by done. done.
      + rewrite lookup_insert_ne by congruence. rewrite bool_decide_false by done.
        by rewrite lookup_delete_ne by congruence.
    - eexists. split; [reflexivity|]. intros x. simpl.
      assert (Hi2 : index w2 = delete (id e) (index w))
        by (unfold w2, w1, set_slot; by rewrite set_lv_index).
      rewrite Hi2. destruct (decide (x = id e)) as [->|Hx]; [by rewrite lookup_delete_eq|].
      rewrite !lookup_delete_ne by congruence.
      destruct (sl' !! j); done. }
  destruct Hfin as [m [Hw' Hm]]. rewrite Hw'. clear w' Hw'.
  assert (Hs : (s < length (lv w1 l))%nat)
    by (unfold w1; rewrite lv_set_index; by apply lookup_lt_Some in Hsl).
  assert (Hsl1' : lv w1 l !! s = Some sl) by (unfold w1; by rewrite lv_set_index).
  assert (Hst : stored w ≡ₚ e :: stored w2).
  { pose proof (stored_set_slot _ _ _ _ sl' Hl Hsl1') as H. fold w2 in H.
    change (stored w1) with (stored w) in H.
    apply (Permutation_app_inv_r sl'). rewrite <- H, Hperm. solve_Permutation. }
  assert (Ho2 : overflow w2 = overflow w)
    by (unfold w2, set_slot; rewrite set_lv_overflow; reflexivity).
  assert (He2 : expired w2 = expired w) by (unfold w2, set_slot; rewrite set_lv_expired; reflexivity).
  assert (Hall : all w ≡ₚ e :: all (set_index w2 m))
    by (unfold all; simpl; rewrite He2, Hst; solve_Permutation).
  assert (Hmv : forall y, sl' !! j = Some y -> (j < length sl')%nat ->
            index w !! id y = Some (mk_loc l s (length sl - 1)) /\ id y <> id e).
  { intros y Hy Hjs. destruct (Hpos _ _ Hy) as [[? _]|[_ [_ Hy']]]; [done|].
    assert (Hiy : index w !! id y = Some (mk_loc l s (length sl - 1)))
      by (apply (ts_slot _ _ Hts); split; [done|]; eauto).
    split; [done|]. intros Heq. rewrite Heq, Hie in Hiy. injection Hiy. lia. }
  (* an id whose location is elsewhere keeps it *)
  assert (Hkeep : forall x lx, index w !! x = Some lx ->
            (level lx <> l \/ slot lx <> s \/ index_in_slot lx <> j) ->
            (level lx <> l \/ slot lx <> s \/ index_in_slot lx <> (length sl - 1)%nat) ->
            m !! x = Some lx).
  { intros x lx Hx H1 H2. rewrite Hm. destruct (decide (x = id e)) as [->|Hxe].
    { rewrite Hie in Hx. injection Hx as <-. simpl in H1. intuition. }
    destruct (sl' !! j) as [y|] eqn:Hy; [|done].
    destruct (bool_decide (j < length sl')%nat) eqn:Hb; simpl; [|done].
    apply bool_decide_eq_true in Hb. destruct (Hmv y ltac:(done) Hb) as [Hiy _].
    case_bool_decide as Hxy; [|done]. subst x. rewrite Hiy in Hx. injection Hx as <-.
    simpl in H2. intuition. }
  split; [constructor|split; [done|]].
  - exact (ts_len_set_slot w1 l s sl' (ts_len _ _ Hts)).
  - rewrite app_nil_r. pose proof (ts_nodup _ _ Hts) as Hn. rewrite app_nil_r in Hn.
    apply (nodup_perm _ _ Hall) in Hn. simpl in Hn. by apply NoDup_cons in Hn as [_ Hn].
  - intros e' l' s' k H. rewrite In_slot_set_index in H. unfold w2 in H.
    rewrite In_slot_set_slot in H by done. simpl.
    destruct H as [[-> [-> H]]|[Hne H]].
    + destruct (Hpos _ _ H) as [[Hkj Hk]|[-> [Hjl' Hk]]].
      * assert (Hi' : index w !! id e' = Some (mk_loc l s k))
          by (apply (ts_slot _ _ Hts); split; [done|]; eauto).
        apply Hkeep; [done|simpl; auto|simpl; right; right].
        apply lookup_lt_Some in H. lia.
      * rewrite Hm. assert (Hi' : index w !! id e' = Some (mk_loc l s (length sl - 1)))
          by (apply (ts_slot _ _ Hts); split; [done|]; eauto).
        destruct (decide (id e' = id e)) as [Heq|Hne].
        { rewrite Heq, Hie in Hi'. injection Hi'. lia. }
        rewrite H, bool_decide_true by lia. simpl. by rewrite bool_decide_true.
    + change (In_slot w e' l' s' k) in H.
      pose proof (ts_slot _ _ Hts _ _ _ _ H) as Hi'. apply (Hkeep _ _ Hi'); simpl; tauto.
  - intros e' H. unfold In_ov in H. simpl in H. rewrite Ho2 in H.
    destruct (ts_ov _ _ Hts e' H) as [k Hk]. exists k.
    apply (Hkeep _ _ Hk); simpl; left; lia.
  - intros x lc H. rewrite app_nil_r. simpl in H. rewrite Hm in H.
    destruct (decide (x = id e)) as [->|Hxe]; [done|].
    assert (Hx : In x (ids (stored w))).
    { destruct (sl' !! j) as [y|] eqn:Hy.
      - destruct (bool_decide (j < length sl')%nat && bool_decide (x = id y))%bool eqn:Hb.
        + apply andb_true_iff in Hb as [_ Hb]. apply bool_decide_eq_true in Hb as ->.
          apply In_ids_of.
          assert (Hyin : In y sl).
          { apply (In_perm _ _ _ (symmetry Hperm)). right.
            apply list_elem_of_In, list_elem_of_lookup. eauto. }
          apply list_elem_of_In, list_elem_of_lookup in Hyin as [k Hk].
          apply (In_slot_stored w y l s k). split; [done|]. eauto.
        + pose proof (ts_index _ _ Hts _ _ H) as Hi. by rewrite app_nil_r in Hi.
      - pose proof (ts_index _ _ Hts _ _ H) as Hi. by rewrite app_nil_r in Hi. }
    apply (In_perm _ _ _ (ids_perm _ _ Hst)) in Hx. simpl in Hx.
    destruct Hx as [Hx|Hx]; [congruence|done].
  - split; [unfold w2, set_slot; simpl; rewrite set_lv_current_tick; done|].
    split; [unfold w2, set_slot; simpl; rewrite set_lv_start_time; done|].
    split; [unfold w2, set_slot; simpl; rewrite set_lv_next_id; done|].
    split; [|split; [|split]].
    + intros e' l' s' k H. rewrite In_slot_set_index in H. unfold w2 in H.
      rewrite In_slot_set_slot in H by done.
      destruct H as [[-> [-> H]]|[_ H]]; [|exists k; exact H].
      assert (Hyin : In e' sl).
      { apply (In_perm _ _ _ (symmetry Hperm)). right.
        apply list_elem_of_In, list_elem_of_lookup. eauto. }
      apply list_elem_of_In, list_elem_of_lookup in Hyin as [k' Hk].
      exists k'. split; [done|]. eauto.
    + intros k es' H. simpl in H. rewrite Ho2 in H. eauto.
    + simpl. by rewrite Ho2.
    + intros x H. simpl in H. by rewrite He2 in H.
Qed.

Lemma shrinks_refl w : shrinks w w.
Proof. unfold shrinks. naive_solver. Qed.

Lemma remove_from_overflow_go_spec i o :
  (exists e, In e (concat (map snd o)) /\ id e = i) ->
  exists e, id e = i /\
    concat (map snd o) ≡ₚ e :: concat (map snd (remove_from_overflow_go i o)) /\
    map fst (remove_from_overflow_go i o) = map fst o /\
    (forall k es', In (k, es') (remove_from_overflow_go i o) ->
       exists es, In (k, es) o /\ forall x, In x es' -> In x es).
Proof.
  induction o as [|[k es] o IH]; simpl; [intros [e [[] _]]|].
  intros [e [He Hid]].
  destruct (list_find (fun e => id e = i) es) as [[pos e0]|] eqn:Hf.
  - apply list_find_Some in Hf as [Hpos [Hid0 _]].
    destruct (swap_remove_lookup _ _ _ Hpos) as [es' Hsw]. rewrite Hsw.
    destruct (swap_remove_Some _ _ _ _ Hsw) as [_ [Hp _]].
    exists e0. split; [done|]. split; [|split].
    + simpl. rewrite Hp. done.
    + done.
    + intros k' es'' [[= <- <-]|H].
      * exists es. split; [by left|]. intros x Hx. apply (In_perm _ _ _ (symmetry Hp)). by right.
      * exists es''. split; [by right|done].
  - apply list_find_None in Hf.
    assert (He' : In e (concat (map snd o))).
    { apply in_app_iff in He as [He|He]; [|done]. exfalso.
      rewrite Forall_forall in Hf. apply (Hf e); [by apply list_elem_of_In|done]. }
    destruct (IH (ex_intro _ e (conj He' Hid))) as [e1 [Hid1 [Hp [Hk Hsub]]]].
    exists e1. split; [done|]. split; [|split].
    + simpl. rewrite Hp. solve_Permutation.
    + simpl. by rewrite Hk.
    + intros k' es'' [[= <- <-]|H].
      * exists es. split; [by left|done].
      * destruct (Hsub _ _ H) as [es0 [H1 H2]]. exists es0. split; [by right|done].
Qed.

(** [remove]: either it returns [true] and drops exactly one entry, the
    one with that id, or it returns [false] and changes nothing (no entry
    has that id). *)
Lemma ts_remove w i :
  tw_struct w [] ->
  match remove w i with
  | (b, w') =>
      tw_struct w' [] /\ shrinks w' w /\
      if b then exists e, id e = i /\ all w ≡ₚ e :: all w'
      else w' = w /\ ~ In i (ids (all w))
  end.
Proof.
  intros Hts. pose proof (ts_nodup _ _ Hts) as Hnd. rewrite app_nil_r in Hnd.
  unfold remove. destruct (index w !! i) as [lc|] eqn:Hi.
  - destruct (index_loc _ _ _ Hts Hi) as [e [<- [[Hl Hin]|[H255 Hov]]]].
    + rewrite bool_decide_false by lia. destruct lc as [l s j]; simpl in *.
      destruct (remove_at_location_spec _ _ _ _ _ Hts Hin) as [H1 [H2 H3]].
      split; [done|]. split; [done|]. eauto.
    + rewrite bool_decide_true by done. unfold remove_from_overflow. simpl.
      destruct (remove_from_overflow_go_spec (id e) (overflow w)) as [e1 [Hid1 [Hp [Hk Hsub]]]].
      { exists e. split; [|done]. by apply In_ov_concat. }
      set (w' := set_overflow (set_index w (delete (id e) (index w)))
                   (remove_from_overflow_go (id e) (overflow w))).
      assert (Hst : stored w ≡ₚ e1 :: stored w') by (unfold stored; simpl; rewrite Hp; solve_Permutation).
      assert (Hall : all w ≡ₚ e1 :: all w') by (unfold all; simpl; rewrite Hst; solve_Permutation).
      assert (Hne : forall e', In e' (stored w') -> id e' <> id e).
      { intros e' He' Heq. apply (nodup_perm _ _ Hall) in Hnd. simpl in Hnd.
        apply NoDup_cons in Hnd as [Hnd _]. apply Hnd. rewrite Hid1, <- Heq.
        apply list_elem_of_In, In_ids_of. unfold all. rewrite in_app_iff. by right. }
      split; [constructor|split; [|exists e1; done]].
      * exact (ts_len _ _ Hts).
      * rewrite app_nil_r. apply (nodup_perm _ _ Hall) in Hnd. simpl in Hnd.
        by apply NoDup_cons in Hnd as [_ Hnd].
      * intros e' l s k H. change (In_slot w e' l s k) in H. simpl.
        pose proof (ts_slot _ _ Hts _ _ _ _ H) as He'.
        rewrite lookup_delete_ne; [done|]. intros Heq. rewrite <- Heq, Hi in He'.
        injection He' as He'. subst lc. simpl in H255. destruct H as [Hl _]. lia.
      * intros e' H. simpl. pose proof H as [k [es' [H1 H2]]].
        destruct (Hsub _ _ H1) as [es [H3 H4]].
        destruct (ts_ov _ _ Hts e') as [j' Hj']; [exists k, es; auto|].
        exists j'. rewrite lookup_delete_ne; [done|]. intros Heq.
        apply (Hne e'); [by apply In_ov_stored|done].
      * intros x lc' H. simpl in H. apply lookup_delete_Some in H as [Hx H].
        pose proof (ts_index _ _ Hts _ _ H) as Hin. rewrite app_nil_r in *.
        apply (In_perm _ _ _ (ids_perm _ _ Hst)) in Hin. simpl in Hin.
        destruct Hin as [Hin|Hin]; [congruence|done].
      * unfold shrinks, w'. simpl. split; [done|]. split; [done|]. split; [done|].
        split; [|split; [|split]].
        -- intros e' l s k H. exists k. exact H.
        -- exact Hsub.
        -- exact Hk.
        -- done.
  - destruct (list_find (fun e => id e = i) (expired w)) as [[pos e0]|] eqn:Hf.
    + apply list_find_Some in Hf as [Hpos [Hid0 _]].
      destruct (swap_remove_lookup _ _ _ Hpos) as [ex Hsw]. rewrite Hsw.
      destruct (swap_remove_Some _ _ _ _ Hsw) as [_ [Hp _]].
      assert (Hall : all w ≡ₚ e0 :: all (set_expired w ex))
        by (unfold all; simpl; rewrite Hp; done).
      split; [constructor|split; [|exists e0; done]].
      * exact (ts_len _ _ Hts).
      * rewrite app_nil_r. apply (nodup_perm _ _ Hall) in Hnd. simpl in Hnd.
        by apply NoDup_cons in Hnd as [_ Hnd].
      * exact (ts_slot _ _ Hts).
      * exact (ts_ov _ _ Hts).
      * exact (ts_index _ _ Hts).
      * unfold shrinks. simpl. split; [done|]. split; [done|]. split; [done|].
        split; [|split; [|split]].
        -- intros e' l s k H. exists k. exact H.
        -- eauto.
        -- done.
        -- intros x Hx. apply (In_perm _ _ _ (symmetry Hp)). by right.
    + split; [done|]. split; [apply shrinks_refl|]. split; [done|].
      apply list_find_None in Hf. intros H. apply In_ids in H as [e [He <-]].
      unfold all in He. apply in_app_iff in He as [He|He].
      * rewrite Forall_forall in Hf. apply (Hf e); [by apply list_elem_of_In|done].
      * assert (Hs : is_Some (index w !! id e)) by (apply (ts_index_iff _ Hts), In_ids_of, He).
        rewrite Hi in Hs. by destruct Hs.
Qed.

(** ** Placement of an insertion *)

Lemma bt_get_push k e o : In e (bt_get k (bt_push k e o)).
Proof.
  unfold bt_get. induction o as [|[k' es] o IH]; simpl.
  - rewrite Z.eqb_refl. simpl. auto.
  - destruct (k =? k') eqn:Hk; simpl.
    + apply Z.eqb_eq in Hk as <-. rewrite Z.eqb_refl. simpl. apply in_app_iff. simpl. auto.
    + destruct (k <? k'); simpl.
      * rewrite Z.eqb_refl. simpl. auto.
      * rewrite Z.eqb_sym, Hk. exact IH.
Qed.

(** Claim C2: an entry whose [deadline_ms] lies after [current_tick] is
    appended to the slot the insertion rules name (level 0 slot
    [deadline_ms mod 256] when [ticks_until < 256], level 1 slot
    [(deadline_ms / 256) mod 64] when [ticks_until < 16384], level 2 slot
    [(deadline_ms / 16384) mod 64] when [ticks_until < 1048576], level 3
    slot [(deadline_ms / 1048576) mod 64] when [ticks_until < 67108864]),
    and the index records that position; otherwise it is pushed into the
    overflow map under its deadline and indexed at level 255. *)
Theorem insert_entry_placement w e d :
  length (slots_1ms w) = 256%nat -> length (slots_256ms w) = 64%nat ->
  length (slots_16s w) = 64%nat -> length (slots_17min w) = 64%nat ->
  deadline_ms w e = Some d -> current_tick w < d ->
  let w' := insert_entry w e in
  match spec_placement d (current_tick w) with
  | AtLevel l s =>
      exists sl, lv w l !! s = Some sl /\ lv w' l !! s = Some (sl ++ [e]) /\
                 index w' !! id e = Some (mk_loc l s (length sl))
  | InOverflow =>
      overflow w' = bt_push (expires_at e) e (overflow w) /\
      In e (bt_get (expires_at e) (overflow w')) /\
      exists j, index w' !! id e = Some (mk_loc 255 0 j)
  end.
Proof.
  intros H0 H1 H2 H3 Hd Hct w'. unfold w', insert_entry. rewrite Hd.
  rewrite (proj2 (Z.leb_gt _ _) Hct).
  assert (Hat : forall l s, (l < 4)%nat -> (s < length (lv w l))%nat ->
            exists sl, lv w l !! s = Some sl /\
              lv (insert_at_level w e l s) l !! s = Some (sl ++ [e]) /\
              index (insert_at_level w e l s) !! id e = Some (mk_loc l s (length sl))).
  { intros l s Hl Hs. destruct (lookup_lt_is_Some_2 _ _ Hs) as [sl Hsl].
    exists sl. split; [done|]. unfold insert_at_level, slot_of. rewrite Hsl. simpl.
    rewrite lv_set_index. unfold set_slot. rewrite lv_set_lv_eq by done.
    rewrite list_lookup_insert_eq by done. split; [done|]. apply lookup_insert_eq. }
  unfold spec_placement, LEVEL_0_SLOTS, LEVEL_1_SLOTS, LEVEL_2_SLOTS, LEVEL_3_SLOTS,
    LEVEL_1_RESOLUTION_MS, LEVEL_2_RESOLUTION_MS, LEVEL_3_RESOLUTION_MS, OVERFLOW_THRESHOLD_MS.
  destruct (d - current_tick w <? 256);
    [|destruct (d - current_tick w <? 16384);
      [|destruct (d - current_tick w <? 1048576);
        [|destruct (d - current_tick w <? 67108864)]]];
    try (apply Hat; [lia|]; simpl;
         match goal with |- (Z.to_nat (?x mod ?m) < _)%nat =>
           pose proof (Z.mod_pos_bound x m) end; lia).
  simpl. split; [done|]. split; [apply bt_get_push|]. eexists. apply lookup_insert_eq.
Qed.

Lemma insert_entry_placement_witness :
  let w' := insert_entry (new_at 0) (mk_entry 7 5000000 0) in
  match spec_placement 5 (current_tick (new_at 0)) with
  | AtLevel l s =>
      exists sl, lv (new_at 0) l !! s = Some sl /\ lv w' l !! s = Some (sl ++ [mk_entry 7 5000000 0]) /\
                 index w' !! id (mk_entry 7 5000000 0) = Some (mk_loc l s (length sl))
  | InOverflow =>
      overflow w' = bt_push 5000000 (mk_entry 7 5000000 0) (overflow (new_at 0)) /\
      In (mk_entry 7 5000000 0) (bt_get 5000000 (overflow w')) /\
      exists j, index w' !! id (mk_entry 7 5000000 0) = Some (mk_loc 255 0 j)
  end.
Proof.
  refine (insert_entry_placement (new_at 0) (mk_entry 7 5000000 0) 5 _ _ _ _ _ _);
    vm_compute; reflexivity.
Defined.

End TWProofs.

(** ** The staged wheel *)

Module StagedProofs.
Import Staged.

Lemma all_set_next_id w n : TW.all (TW.set_next_id w n) = TW.all w.
Proof. unfold TW.all. rewrite TWProofs.stored_set_next_id. reflexivity. Qed.

Lemma all_new_at s : TW.all (TW.new_at s) = [].
Proof. reflexivity. Qed.

Lemma lv_new_at s l : exists n, TW.lv (TW.new_at s) l = replicate n [].
Proof. destruct l as [|[|[|[|l]]]]; [exists 256%nat | exists 64%nat.. | exists 0%nat]; reflexivity. Qed.

Lemma ts_new_at s : TW.tw_struct (TW.new_at s) [].
Proof.
  constructor.
  - split_and!; reflexivity.
  - rewrite all_new_at. constructor.
  - intros e l s' i [_ [sl [H1 H2]]]. destruct (lv_new_at s l) as [n Hn].
    rewrite Hn in H1. apply lookup_replicate in H1 as [-> _]. done.
  - intros e [k [es [H _]]]. done.
  - intros i lc H. done.
Qed.

Lemma fresh_of_nodup (l r : list TW.TimerEntry) x :
  NoDup (TW.ids (l ++ x :: r)) -> ~ In (TW.id x) (TW.ids l).
Proof.
  intros Hnd Hin. apply TWProofs.In_ids in Hin as [e' [He' Hid]].
  apply (TWProofs.nodup_ne l x r e' Hnd); [apply in_or_app; by left | done].
Qed.

Lemma ts_insert_with_id w i exp wk :
  TW.tw_struct w [] -> ~ In i (TW.ids (TW.all w)) ->
  TW.tw_struct (TW.insert_with_id w i exp wk) [] /\
  TW.all (TW.insert_with_id w i exp wk) ≡ₚ TW.mk_entry i exp wk :: TW.all w.
Proof.
  intros Hts Hi.
  destruct (TWProofs.ts_insert_entry w (TW.mk_entry i exp wk) [] Hts) as [Hts' Hall];
    [by rewrite app_nil_r|].
  unfold TW.insert_with_id. destruct (_ <=? i); [|done].
  split; [by apply TWProofs.ts_set_next_id|]. by rewrite all_set_next_id.
Qed.

Lemma fold_insert_timer l w :
  TW.tw_struct w [] -> NoDup (TW.ids (TW.all w ++ l)) ->
  TW.tw_struct (fold_left insert_timer l w) [] /\
  TW.all (fold_left insert_timer l w) ≡ₚ TW.all w ++ l.
Proof.
  revert w. induction l as [|x l IH]; intros w Hts Hnd; simpl.
  - by rewrite app_nil_r.
  - destruct x as [xi xe xw].
    destruct (ts_insert_with_id w xi xe xw Hts) as [Hts1 Hall1];
      [exact (fresh_of_nodup _ _ _ Hnd)|].
    destruct (IH (insert_timer w (TW.mk_entry xi xe xw))) as [H1 H2]; [exact Hts1|..].
    + apply (TWProofs.nodup_perm (TW.all w ++ TW.mk_entry xi xe xw :: l)); [|exact Hnd].
      unfold insert_timer; simpl. rewrite Hall1. solve_Permutation.
    + split; [exact H1|]. rewrite H2. unfold insert_timer; simpl. rewrite Hall1.
      solve_Permutation.
Qed.

Lemma promote_spec sw t e :
  storage sw = Inline t e -> NoDup (TW.ids (t ++ e)) ->
  exists w, storage (promote_to_wheel sw) = Wheel w /\
    next_id (promote_to_wheel sw) = next_id sw /\
    start_time (promote_to_wheel sw) = start_time sw /\
    TW.tw_struct w [] /\ TW.all w ≡ₚ t ++ e.
Proof.
  intros Hs Hnd. unfold promote_to_wheel. rewrite Hs.
  pose proof Hnd as Hnd'. rewrite TWProofs.ids_app in Hnd'. apply NoDup_app in Hnd' as [Hnt _].
  destruct (fold_insert_timer t (TW.new_at (start_time sw))) as [H1 H2];
    [apply ts_new_at | by rewrite all_new_at |].
  rewrite all_new_at in H2. simpl in H2.
  destruct (fold_insert_timer e (fold_left insert_timer t (TW.new_at (start_time sw)))) as [H3 H4];
    [exact H1 | apply (TWProofs.nodup_perm (t ++ e)); [by rewrite H2 | exact Hnd] |].
  eexists; split_and!; [reflexivity..| exact H3 |]. by rewrite H4, H2.
Qed.

Lemma inv_extend sw sw' x :
  inv sw -> ~ In (TW.id x) (TW.ids (entries sw)) -> TW.id x = next_id sw ->
  next_id sw' = next_id sw + 1 -> entries sw' ≡ₚ x :: entries sw ->
  match storage sw' with
  | Inline t _ => (length t <= 256)%nat
  | Wheel w => TW.tw_struct w []
  end -> inv sw'.
Proof.
  intros [Hn [Hnd [Hlt _]]] Hf Hid Hn' Hp Hst. split_and!.
  - lia.
  - apply (TWProofs.nodup_perm (x :: entries sw)); [by symmetry|].
    apply NoDup_cons. split; [by rewrite list_elem_of_In | done].
  - intros i Hi. apply (TWProofs.In_perm _ _ _ (TWProofs.ids_perm _ _ Hp)) in Hi.
    destruct Hi as [<-|Hi]; [lia|]. apply Hlt in Hi. lia.
  - exact Hst.
Qed.

Lemma insert_spec sw exp wk :
  inv sw -> next_id sw + 1 < two64 ->
  let (i, sw') := insert sw exp wk in
  i = next_id sw /\ next_id sw' = next_id sw + 1 /\ start_time sw' = start_time sw /\
  inv sw' /\ entries sw' ≡ₚ TW.mk_entry i exp wk :: entries sw.
Proof.
  intros Hinv Hb. pose proof Hinv as [Hn [Hnd [Hlt Hst]]].
  destruct sw as [st n s]; simpl in *.
  assert (Hw : wrapping_add n 1 = n + 1) by (unfold wrapping_add; apply Z.mod_small; lia).
  assert (Hf : ~ In n (TW.ids (entries (mk_staged st n s)))) by (intros H; apply Hlt in H; lia).
  unfold insert; simpl. rewrite Hw.
  destruct st as [t e|w].
  - destruct (INLINE_THRESHOLD <=? Z.of_nat (length t)) eqn:Hlen.
    + destruct (promote_spec (mk_staged (Inline t e) (n + 1) s) t e eq_refl Hnd)
        as [w [Hw1 [Hw2 [Hw3 [Hts Hall]]]]].
      rewrite Hw1.
      destruct (ts_insert_with_id w n exp wk Hts) as [Hts' Hall'].
      { intros H. apply (TWProofs.In_perm _ _ _ (TWProofs.ids_perm _ _ Hall)) in H.
        apply Hlt in H. lia. }
      assert (Hp : entries (set_storage (promote_to_wheel (mk_staged (Inline t e) (n + 1) s))
                     (Wheel (TW.insert_with_id w n exp wk))) ≡ₚ
                   TW.mk_entry n exp wk :: entries (mk_staged (Inline t e) n s)).
      { simpl. by rewrite Hall', Hall. }
      split_and!; [done | exact Hw2 | exact Hw3 | | exact Hp].
      apply (inv_extend _ _ (TW.mk_entry n exp wk) Hinv Hf); [done | exact Hw2 | exact Hp | exact Hts'].
    + assert (Hp : entries (set_storage (mk_staged (Inline t e) (n + 1) s)
                     (Inline (t ++ [TW.mk_entry n exp wk]) e)) ≡ₚ
                   TW.mk_entry n exp wk :: entries (mk_staged (Inline t e) n s)).
      { simpl. solve_Permutation. }
      split_and!; [done..| |exact Hp].
      apply (inv_extend _ _ (TW.mk_entry n exp wk) Hinv Hf); [done | done | exact Hp |].
      simpl. unfold INLINE_THRESHOLD in Hlen. apply Z.leb_gt in Hlen.
      rewrite length_app. simpl. lia.
  - destruct (ts_insert_with_id w n exp wk Hst) as [Hts' Hall'].
    { intros H. apply Hlt in H. lia. }
    assert (Hp : entries (set_storage (mk_staged (Wheel w) (n + 1) s)
                   (Wheel (TW.insert_with_id w n exp wk))) ≡ₚ
                 TW.mk_entry n exp wk :: entries (mk_staged (Wheel w) n s)).
    { simpl. by rewrite Hall'. }
    split_and!; [done..| |exact Hp].
    apply (inv_extend _ _ (TW.mk_entry n exp wk) Hinv Hf); [done | done | exact Hp | exact Hts'].
Qed.

Lemma inv_sub sw sw' l :
  inv sw -> next_id sw' = next_id sw -> entries sw ≡ₚ l ++ entries sw' ->
  match storage sw' with
  | Inline t _ => (length t <= 256)%nat
  | Wheel w => TW.tw_struct w []
  end -> inv sw'.
Proof.
  intros [Hn [Hnd [Hlt _]]] Hn' Hp Hst. split_and!.
  - lia.
  - apply (TWProofs.nodup_perm _ _ Hp) in Hnd. rewrite TWProofs.ids_app in Hnd.
    by apply NoDup_app in Hnd as [_ [_ ?]].
  - intros i Hi. rewrite Hn'. apply Hlt.
    apply (TWProofs.In_perm _ _ _ (TWProofs.ids_perm _ _ (symmetry Hp))).
    rewrite TWProofs.ids_app. apply in_or_app. by right.
  - exact Hst.
Qed.

Lemma remove_spec sw i :
  inv sw ->
  let (b, sw') := remove sw i in
  inv sw' /\ next_id sw' = next_id sw /\ start_time sw' = start_time sw /\
  storage_mode sw' = storage_mode sw /\
  match storage sw with
  | Inline _ e => expired_of sw' = e
  | Wheel _ => True
  end /\
  if b then exists x, TW.id x = i /\ entries sw ≡ₚ x :: entries sw'
  else sw' = sw /\ ~ In i (TW.ids (cancellable sw)).
Proof.
  intros Hinv. pose proof Hinv as [Hn [Hnd [Hlt Hst]]].
  destruct sw as [st n s]; simpl in *. unfold remove; simpl.
  destruct st as [t e|w].
  - destruct (list_find (fun t0 => TW.id t0 = i) t) as [[pos x]|] eqn:Hf.
    + apply list_find_Some in Hf as [Hx [Hid _]].
      destruct (TWProofs.swap_remove_lookup t pos x Hx) as [t' Hsr]. rewrite Hsr.
      apply TWProofs.swap_remove_Some in Hsr as [_ [Hp [Hl _]]].
      assert (Hp2 : entries (mk_staged (Inline t e) n s) ≡ₚ
                    x :: entries (set_storage (mk_staged (Inline t e) n s) (Inline t' e)))
        by (unfold entries, set_storage; simpl; by rewrite Hp).
      split_and!; [|done..|exists x; done].
      apply (inv_sub _ _ [x] Hinv); [reflexivity | exact Hp2 | simpl; lia].
    + split_and!; try done.
      apply list_find_None in Hf. intros Hin. apply TWProofs.In_ids in Hin as [x [Hx Hid]].
      rewrite Forall_forall in Hf. apply (Hf x); [by apply list_elem_of_In | done].
  - pose proof (TWProofs.ts_remove w i Hst) as Hr.
    destruct (TW.remove w i) as [b w'] eqn:Hrm. destruct Hr as [Hts' [_ Hb]].
    destruct b.
    + destruct Hb as [x [Hid Hp]].
      split_and!; [|done..|exists x; done].
      apply (inv_sub _ _ [x] Hinv); [reflexivity | exact Hp | exact Hts'].
    + destruct Hb as [-> Hni]. split_and!; done.
Qed.

Lemma advance_inline_spec fuel now i t e :
  let (t', e') := advance_inline fuel now i t e in
  exists moved, e' = e ++ moved /\ t ≡ₚ t' ++ moved.
Proof.
  revert i t e. induction fuel as [|fuel IH]; intros i t e; simpl.
  - exists []. by rewrite !app_nil_r.
  - destruct (t !! i) as [x|] eqn:Hx; [|exists []; by rewrite !app_nil_r].
    destruct (TW.expires_at x <=? now); [|apply IH].
    destruct (TW.swap_remove t i) as [[y t1]|] eqn:Hsr; [|exists []; by rewrite !app_nil_r].
    specialize (IH i t1 (e ++ [y])).
    destruct (advance_inline fuel now i t1 (e ++ [y])) as [t' e'].
    destruct IH as [mv [-> Hp]]. exists (y :: mv). split; [by rewrite <- app_assoc|].
    apply TWProofs.swap_remove_Some in Hsr as [_ [Hp1 _]].
    rewrite Hp1, Hp. solve_Permutation.
Qed.

Lemma advance_spec sw now :
  inv sw ->
  inv (advance_to sw now) /\ next_id (advance_to sw now) = next_id sw /\
  start_time (advance_to sw now) = start_time sw /\
  entries (advance_to sw now) ≡ₚ entries sw /\
  match storage sw, storage (advance_to sw now) with
  | Inline t e, Inline t' e' => exists moved, e' = e ++ moved /\ t ≡ₚ t' ++ moved
  | Wheel w, Wheel w' => True
  | _, _ => False
  end.
Proof.
  intros Hinv. pose proof Hinv as [Hn [Hnd [Hlt Hst]]].
  destruct sw as [st n s]; simpl in *. unfold advance_to; simpl.
  destruct st as [t e|w].
  - pose proof (advance_inline_spec (length t) now 0 t e) as Ha.
    destruct (advance_inline (length t) now 0 t e) as [t' e'].
    destruct Ha as [mv [-> Hp]].
    assert (Hp2 : entries (mk_staged (Inline t e) n s) ≡ₚ
                  [] ++ entries (set_storage (mk_staged (Inline t e) n s) (Inline t' (e ++ mv))))
      by (unfold entries, set_storage; simpl; rewrite Hp; solve_Permutation).
    split_and!; [| done | done | by rewrite Hp2 | by exists mv].
    apply (inv_sub _ _ [] Hinv); [reflexivity | exact Hp2 |]. simpl.
    apply Permutation_length in Hp. rewrite length_app in Hp. lia.
  - destruct (TWProofs.ts_advance_to w now Hst) as [Hts' Hall].
    assert (Hp2 : entries (mk_staged (Wheel w) n s) ≡ₚ
                  [] ++ entries (set_storage (mk_staged (Wheel w) n s) (Wheel (TW.advance_to w now))))
      by (unfold entries, set_storage; simpl; by rewrite Hall).
    split_and!; [| done | done | by rewrite Hp2 | done].
    apply (inv_sub _ _ [] Hinv); [reflexivity | exact Hp2 | exact Hts'].
Qed.

Lemma drain_spec sw :
  inv sw ->
  let (d, sw') := drain_expired sw in
  inv sw' /\ next_id sw' = next_id sw /\ start_time sw' = start_time sw /\
  storage_mode sw' = storage_mode sw /\
  d = map (fun x => (TW.id x, TW.waker x)) (expired_of sw) /\
  entries sw ≡ₚ expired_of sw ++ entries sw' /\ expired_of sw' = [].
Proof.
  intros Hinv. pose proof Hinv as [Hn [Hnd [Hlt Hst]]].
  destruct sw as [st n s]; simpl in *. unfold drain_expired; simpl.
  destruct st as [t e|w].
  - assert (Hp2 : entries (mk_staged (Inline t e) n s) ≡ₚ
                  e ++ entries (set_storage (mk_staged (Inline t e) n s) (Inline t [])))
      by (unfold entries, set_storage; simpl; solve_Permutation).
    split_and!; try done. apply (inv_sub _ _ e Hinv); [reflexivity | exact Hp2 | exact Hst].
  - destruct (TWProofs.ts_drain w Hst) as [Hts' Hall].
    assert (Hp2 : entries (mk_staged (Wheel w) n s) ≡ₚ
                  TW.expired w ++ entries (set_storage (mk_staged (Wheel w) n s) (Wheel (TW.set_expired w []))))
      by (unfold entries, set_storage; simpl; by rewrite Hall at 1).
    split_and!; try done. apply (inv_sub _ _ (TW.expired w) Hinv); [reflexivity | exact Hp2 | exact Hts'].
Qed.

Lemma map_seq_shift (n : Z) c :
  map (fun k => n + Z.of_nat k) (seq 0 (S c)) = n :: map (fun k => (n + 1) + Z.of_nat k) (seq 0 c).
Proof.
  simpl. f_equal; [lia|]. rewrite <- seq_shift, map_map. apply map_ext. intros; lia.
Qed.

Lemma run_spec os sw :
  inv sw -> next_id sw + Z.of_nat (count_ins os) < two64 ->
  let (sw', issued) := run sw os in
  inv sw' /\ next_id sw' = next_id sw + Z.of_nat (count_ins os) /\
  start_time sw' = start_time sw /\
  issued = map (fun k => next_id sw + Z.of_nat k) (seq 0 (count_ins os)).
Proof.
  revert sw. induction os as [|o os IH]; intros sw Hinv Hb; simpl.
  - split_and!; [done | unfold count_ins; simpl; lia | done | done].
  - destruct o as [exp wk|i|now|]; simpl.
    + unfold count_ins in *; simpl in *.
      pose proof (insert_spec sw exp wk Hinv ltac:(lia)) as Hi.
      destruct (insert sw exp wk) as [i sw1]. destruct Hi as [-> [Hn1 [Hs1 [Hinv1 _]]]].
      specialize (IH sw1 Hinv1 ltac:(lia)). destruct (run sw1 os) as [sw2 rs].
      destruct IH as [? [Hn2 [Hs2 ->]]].
      split_and!; [done | lia | congruence |].
      pose proof (map_seq_shift (next_id sw) (length (List.filter is_ins os))) as Hm.
      simpl in Hm. rewrite Hm, Hn1. done.
    + pose proof (remove_spec sw i Hinv) as Hr.
      destruct (remove sw i) as [b sw1]. destruct Hr as [Hinv1 [Hn1 [Hs1 _]]]. simpl.
      unfold count_ins in *; simpl in *.
      specialize (IH sw1 Hinv1 ltac:(lia)). destruct (run sw1 os) as [sw2 rs].
      destruct IH as [? [Hn2 [Hs2 ->]]]. split_and!; [done | lia | congruence | by rewrite Hn1].
    + destruct (advance_spec sw now Hinv) as [Hinv1 [Hn1 [Hs1 _]]].
      unfold count_ins in *; simpl in *.
      specialize (IH _ Hinv1 ltac:(lia)). destruct (run (advance_to sw now) os) as [sw2 rs].
      destruct IH as [? [Hn2 [Hs2 ->]]]. split_and!; [done | lia | congruence | by rewrite Hn1].
    + pose proof (drain_spec sw Hinv) as Hd.
      destruct (drain_expired sw) as [d sw1]. destruct Hd as [Hinv1 [Hn1 [Hs1 _]]]. simpl.
      unfold count_ins in *; simpl in *.
      specialize (IH sw1 Hinv1 ltac:(lia)). destruct (run sw1 os) as [sw2 rs].
      destruct IH as [? [Hn2 [Hs2 ->]]]. split_and!; [done | lia | congruence | by rewrite Hn1].
Qed.

Lemma inv_new_at b : inv (new_at b).
Proof.
  split_and!; [simpl; lia | constructor | intros i Hi; done | simpl; lia].
Qed.

Lemma run_cons_fst sw o os : fst (run sw (o :: os)) = fst (run (snd (step sw o)) os).
Proof. simpl. destruct (step sw o). by destruct (run _ os). Qed.


Lemma step_mode sw o :
  (storage_mode sw = wheel -> storage_mode (snd (step sw o)) = wheel) /\
  (forall t e, storage sw = Inline t e -> (length t <= 256)%nat ->
     match storage (snd (step sw o)) with
     | Inline t' _ => (length t' <= 256)%nat /\ ~ (is_ins o = true /\ length t = 256%nat)
     | Wheel _ => is_ins o = true /\ length t = 256%nat
     end).
Proof.
  destruct sw as [st n s]. unfold storage_mode. simpl.
  destruct st as [t e|w]; (split; [intros Hm|intros t0 e0 Hs Hl]); try discriminate.
  - injection Hs as <- <-. destruct o as [exp wk|i|now|]; simpl.
    + unfold insert; simpl. destruct (INLINE_THRESHOLD <=? Z.of_nat (length t)) eqn:Hlen;
        unfold INLINE_THRESHOLD in Hlen; simpl.
      * apply Z.leb_le in Hlen. split; [done | lia].
      * apply Z.leb_gt in Hlen. rewrite length_app. simpl. split; [lia|]. intros [_ ?]. lia.
    + unfold remove; simpl.
      destruct (list_find (fun t0 => TW.id t0 = i) t) as [[pos x]|] eqn:Hf; simpl;
        [|split; [done | intros [? _]; discriminate]].
      destruct (TW.swap_remove t pos) as [[y t']|] eqn:Hsr; simpl;
        [|split; [done | intros [? _]; discriminate]].
      apply TWProofs.swap_remove_Some in Hsr as [_ [_ [Hl' _]]].
      split; [lia | intros [? _]; discriminate].
    + unfold advance_to; simpl.
      pose proof (advance_inline_spec (length t) now 0 t e) as Ha.
      destruct (advance_inline (length t) now 0 t e) as [t' e']. simpl.
      destruct Ha as [mv [_ Hp]]. apply Permutation_length in Hp. rewrite length_app in Hp.
      split; [lia | intros [? _]; discriminate].
    + simpl. split; [done | intros [? _]; discriminate].
  - destruct o as [exp wk|i|now|]; simpl; unfold remove, drain_expired; simpl; try done;
      first [by destruct (TW.remove w i) | by destruct (TW.drain_expired w)].
Qed.

Lemma run_inline_bound os sw :
  match storage sw with Inline t _ => (length t <= 256)%nat | Wheel _ => True end ->
  match storage (fst (run sw os)) with Inline t _ => (length t <= 256)%nat | Wheel _ => True end.
Proof.
  revert sw. induction os as [|o os IH]; intros sw H; [done|].
  rewrite run_cons_fst. apply IH.
  destruct (step_mode sw o) as [Hw Hi]. unfold storage_mode in Hw.
  destruct (storage sw) as [t e|w] eqn:Hs.
  - specialize (Hi t e eq_refl H). destruct (storage (snd (step sw o))); [apply Hi | done].
  - specialize (Hw eq_refl). destruct (storage (snd (step sw o))); [discriminate | done].
Qed.





(** C10: on every staged wheel reached from [new_at] by fewer than
    [2^64] inserts, [len] is the number of pending timers while the
    storage is inline, and the number of pending plus expired-but-not-
    drained timers once it is a wheel.  Hence an [advance_to] that moves
    [k] timers to the expired list lowers [len] by [k] in inline mode
    and leaves it unchanged in wheel mode (where [k] timers leave the
    pending ones). *)
Theorem len_counts_expired_in_wheel (b now : Z) (os : list op) :
  Z.of_nat (count_ins os) < two64 ->
  let sw := fst (run (new_at b) os) in
  let sw' := advance_to sw now in
  match storage sw, storage sw' with
  | Inline t e, Inline t' e' =>
      len sw = Z.of_nat (length t) /\
      exists moved, e' = e ++ moved /\ t ≡ₚ t' ++ moved /\
        len sw' = len sw - Z.of_nat (length moved)
  | Wheel w, Wheel w' =>
      len sw = Z.of_nat (length (TW.stored w) + length (TW.expired w)) /\
      len sw' = len sw /\
      Z.of_nat (length (TW.stored w')) =
        Z.of_nat (length (TW.stored w)) -
          (Z.of_nat (length (TW.expired w')) - Z.of_nat (length (TW.expired w)))
  | _, _ => False
  end.
Proof.
  intros Hb sw sw'.
  pose proof (run_spec os (new_at b) (inv_new_at b) ltac:(simpl; lia)) as Hr.
  fold sw in Hr. destruct (run (new_at b) os) as [sw0 issued] eqn:Hrun.
  destruct Hr as [Hinv _]. subst sw. simpl in sw' |- *.
  destruct (advance_spec sw0 now Hinv) as [Hinv' [_ [_ [Hp Hm]]]]. fold sw' in Hinv', Hp, Hm.
  destruct Hinv as [_ [_ [_ Hst]]]. destruct Hinv' as [_ [_ [_ Hst']]].
  unfold len, entries in *.
  destruct (storage sw0) as [t e|w]; destruct (storage sw') as [t' e'|w']; try contradiction.
  - split; [done|]. destruct Hm as [mv [-> Hp']]. exists mv. split_and!; [done..|].
    apply Permutation_length in Hp'. rewrite length_app in Hp'. lia.
  - rewrite (TWProofs.ts_len_all _ Hst), (TWProofs.ts_len_all _ Hst').
    apply Permutation_length in Hp. unfold TW.all in *. rewrite !length_app in Hp |- *.
    split_and!; lia.
Qed.

Lemma len_counts_expired_in_wheel_witness :
  let sw := fst (run (new_at 0) [Ins 1000000 0; Ins 10000000 0]) in
  let sw' := advance_to sw 5000000 in
  match storage sw, storage sw' with
  | Inline t e, Inline t' e' =>
      len sw = Z.of_nat (length t) /\
      exists moved, e' = e ++ moved /\ t ≡ₚ t' ++ moved /\
        len sw' = len sw - Z.of_nat (length moved)
  | Wheel w, Wheel w' =>
      len sw = Z.of_nat (length (TW.stored w) + length (TW.expired w)) /\
      len sw' = len sw /\
      Z.of_nat (length (TW.stored w')) =
        Z.of_nat (length (TW.stored w)) -
          (Z.of_nat (length (TW.expired w')) - Z.of_nat (length (TW.expired w)))
  | _, _ => False
  end.
Proof.
  refine (len_counts_expired_in_wheel 0 5000000 [Ins 1000000 0; Ins 10000000 0] _).
  vm_compute. reflexivity.
Defined.

(** C8 (as the code behaves): on every staged wheel reached from
    [new_at], an inline storage holds at most [256] pending timers; a
    wheel storage stays a wheel whatever the next operation; and an
    inline storage becomes a wheel exactly on an insert made while it
    holds [256] pending timers.  The mode is therefore not a function of
    the live count: removing timers never returns to inline storage. *)
Theorem storage_mode_transitions (b : Z) (os : list op) (o : op) :
  let sw := fst (run (new_at b) os) in
  match storage sw with Inline t _ => (length t <= 256)%nat | Wheel _ => True end /\
  (storage_mode sw = wheel -> storage_mode (snd (step sw o)) = wheel) /\
  (storage_mode sw = inline ->
     (storage_mode (snd (step sw o)) = wheel <-> is_ins o = true /\ len sw = 256)).
Proof.
  intros sw. pose proof (run_inline_bound os (new_at b) ltac:(simpl; lia)) as Hb. fold sw in Hb.
  destruct (step_mode sw o) as [Hw Hi]. split_and!; [exact Hb | exact Hw |].
  intros Hm. unfold storage_mode, len in *.
  destruct (storage sw) as [t e|w] eqn:Hs; [|discriminate].
  specialize (Hi t e ltac:(done) Hb).
  destruct (storage (snd (step sw o))); split.
  - discriminate.
  - intros [? ?]. destruct Hi as [_ Hn]. exfalso. apply Hn. split; [done | lia].
  - intros _. destruct Hi. split; [done | lia].
  - done.
Qed.

Lemma storage_mode_not_by_count_cex :
  let sw := fst (run (new_at 0) (map (fun k => Ins (Z.of_nat k) 0) (seq 0 257) ++ [Rem 0])) in
  storage_mode sw = wheel /\ len sw = 256 /\ length (entries sw) = 256%nat.
Proof. vm_compute. split_and!; reflexivity. Qed.




End StagedProofs.

(** ** The reactor adapter *)

Module ReactorProofs.
Import Reactor.

Lemma rinv_new_at b : rinv (new_at b).
Proof.
  split_and!; [apply StagedProofs.inv_new_at | | done].
  intros i. split; [|done]. intros [x Hx]. unfold new_at in Hx; simpl in Hx.
  rewrite (lookup_empty (M:=gmap Z)) in Hx. done.
Qed.

Lemma insert_keeps_inline_expired sw exp wk :
  match Staged.storage (snd (Staged.insert sw exp wk)) with
  | Staged.Inline _ e' => exists t, Staged.storage sw = Staged.Inline t e'
  | Staged.Wheel _ => True
  end.
Proof.
  destruct sw as [[t e|w] n s]; unfold Staged.insert; simpl; [|done].
  destruct (Staged.INLINE_THRESHOLD <=? Z.of_nat (length t)); simpl; eauto.
Qed.

Lemma fold_delete_lookup (l : list (Z * Z)) (m : gmap Z Z) j :
  is_Some (fold_left (fun m p => delete (fst p) m) l m !! j) <->
  is_Some (m !! j) /\ ~ In j (map fst l).
Proof.
  revert m. induction l as [|[k v] l IH]; intros m; simpl.
  - tauto.
  - rewrite IH. destruct (decide (k = j)) as [->|Hne].
    + rewrite lookup_delete_eq. split; [by intros [[? ?] _] | intros [_ H]; exfalso; apply H; by left].
    + rewrite lookup_delete_ne by done. split.
      * intros [H1 H2]. split; [done|]. intros [?|?]; [done | by apply H2].
      * intros [H1 H2]. split; [done|]. intros ?. apply H2. by right.
Qed.

Lemma in_ids_perm l r j : l ≡ₚ r -> In j (TW.ids l) <-> In j (TW.ids r).
Proof.
  intros Hp. split; apply TWProofs.In_perm; [|symmetry]; by apply TWProofs.ids_perm.
Qed.

Lemma rinsert_spec rt exp wk :
  rinv rt -> Staged.next_id (wheel rt) + 1 < two64 ->
  let (tid, rt') := insert rt exp wk in
  tid = of_internal (Staged.next_id (wheel rt)) /\ rinv rt' /\
  Staged.next_id (wheel rt') = Staged.next_id (wheel rt) + 1.
Proof.
  intros [Hinv [Hdom Hex]] Hb. unfold insert.
  pose proof (StagedProofs.insert_spec (wheel rt) exp wk Hinv Hb) as Hi.
  pose proof (insert_keeps_inline_expired (wheel rt) exp wk) as Hk.
  destruct (Staged.insert (wheel rt) exp wk) as [i w] eqn:Hins. simpl in Hk.
  destruct Hi as [-> [Hn [_ [Hinv' Hp]]]].
  split; [done|]. split; [|exact Hn]. split; [exact Hinv'|split]; simpl.
  - intros j. rewrite (in_ids_perm _ _ j Hp). simpl.
    rewrite lookup_insert. case_decide as Hj; [subst; split; [by left | done]|].
    rewrite Hdom. split; [intros H; by right | intros [?|?]; [congruence | done]].
  - destruct (Staged.storage w) as [t' e'|w']; [|done].
    destruct Hk as [t Hs]. by rewrite Hs in Hex.
Qed.
Lemma cancellable_entries rt : rinv rt -> Staged.cancellable (wheel rt) = Staged.entries (wheel rt).
Proof.
  intros [_ [_ Hex]]. unfold Staged.cancellable, Staged.entries.
  destruct (Staged.storage (wheel rt)); [subst; by rewrite app_nil_r | done].
Qed.

Lemma delete_dom (m : gmap Z Z) k es es' :
  (forall j, is_Some (m !! j) <-> In j (TW.ids es)) ->
  (forall j, In j (TW.ids es') <-> In j (TW.ids es) /\ j <> k) ->
  forall j, is_Some (delete k m !! j) <-> In j (TW.ids es').
Proof.
  intros H1 H2 j. rewrite H2, lookup_delete. case_decide as Hkj.
  - subst. split; [by intros [? ?] | by intros [_ ?]].
  - rewrite H1. split; [intros; split; [done | congruence] | tauto].
Qed.

Lemma rremove_spec rt tid :
  rinv rt ->
  let (b, rt') := remove rt tid in
  rinv rt' /\ Staged.next_id (wheel rt') = Staged.next_id (wheel rt) /\
  (b = true <-> In (index tid) (TW.ids (Staged.entries (wheel rt)))) /\
  (if b then exists x, TW.id x = index tid /\
     Staged.entries (wheel rt) ≡ₚ x :: Staged.entries (wheel rt')
   else wheel rt' = wheel rt) /\
  id_to_expiry rt' = delete (index tid) (id_to_expiry rt).
Proof.
  intros Hr. pose proof (cancellable_entries rt Hr) as Hc. destruct Hr as [Hinv [Hdom Hex]].
  unfold remove. pose proof (StagedProofs.remove_spec (wheel rt) (index tid) Hinv) as Hs.
  destruct (Staged.remove (wheel rt) (index tid)) as [b w] eqn:Hrm. simpl.
  destruct Hs as [Hinv' [Hn [_ [Hmode [Hexp Hb]]]]].
  pose proof Hinv as [_ [Hnd _]].
  assert (Hex' : match Staged.storage w with Staged.Inline _ e => e = [] | Staged.Wheel _ => True end).
  { unfold Staged.storage_mode in Hmode. unfold Staged.expired_of in Hexp.
    destruct (Staged.storage w) as [t' e'|]; [|done].
    destruct (Staged.storage (wheel rt)); [congruence | discriminate]. }
  destruct b.
  - destruct Hb as [x [Hid Hp]].
    assert (Hnot : ~ In (index tid) (TW.ids (Staged.entries w))).
    { apply (TWProofs.nodup_perm _ _ Hp) in Hnd. simpl in Hnd.
      apply NoDup_cons in Hnd as [Hx _]. rewrite <- Hid. by rewrite <- list_elem_of_In. }
    split_and!; [| done | | eauto | done].
    + split_and!; [done | | exact Hex'].
      apply (delete_dom _ _ _ _ Hdom). intros j. rewrite (in_ids_perm _ _ j Hp). simpl.
      split; [intros Hj; split; [by right | intros ->; done] | intros [[?|?] ?]; [congruence | done]].
    + split; [intros _ | done]. apply (in_ids_perm _ _ _ (symmetry Hp)). simpl. by left.
  - destruct Hb as [-> Hni]. rewrite Hc in Hni.
    split_and!; [| done | split; [discriminate | done] | done | done].
    split_and!; [done | | exact Hex'].
    apply (delete_dom _ _ _ _ Hdom). intros j. split; [intros Hj; split; [done | intros ->; done] | tauto].
Qed.

Lemma rprocess_spec rt now :
  rinv rt ->
  rinv (snd (process_timers rt now)) /\
  Staged.next_id (wheel (snd (process_timers rt now))) = Staged.next_id (wheel rt).
Proof.
  intros [Hinv [Hdom Hex]]. unfold process_timers.
  destruct (StagedProofs.advance_spec (wheel rt) now Hinv) as [Hinv1 [Hn1 [_ [Hp1 _]]]].
  pose proof (StagedProofs.drain_spec _ Hinv1) as Hd.
  destruct (Staged.drain_expired (Staged.advance_to (wheel rt) now)) as [d w2] eqn:Hdr. simpl.
  destruct Hd as [Hinv2 [Hn2 [_ [_ [-> [Hp2 Hex2]]]]]].
  split; [split; [done|split]|congruence].
  - intros j. cbn [id_to_expiry wheel]. rewrite fold_delete_lookup, Hdom, map_map. simpl.
    change (map (fun x => TW.id x) ?l) with (TW.ids l).
    rewrite <- (in_ids_perm _ _ j Hp1), (in_ids_perm _ _ j Hp2), TWProofs.ids_app, in_app_iff.
    pose proof Hinv1 as [_ [Hnd1 _]]. apply (TWProofs.nodup_perm _ _ Hp2) in Hnd1.
    rewrite TWProofs.ids_app in Hnd1. apply NoDup_app in Hnd1 as [_ [Hdis _]].
    split; [intros [[H|H] H']; [contradiction | exact H] | intros Hj; split; [by right | ]].
    intros Hj'. apply (Hdis j); by apply list_elem_of_In.
  - cbn [wheel]. unfold Staged.expired_of in Hex2. destruct (Staged.storage w2); done.
Qed.

Lemma rrun_spec os rt :
  rinv rt -> Staged.next_id (wheel rt) + Z.of_nat (count_ins os) < two64 ->
  let (rt', issued) := run rt os in
  rinv rt' /\ Staged.next_id (wheel rt') = Staged.next_id (wheel rt) + Z.of_nat (count_ins os) /\
  issued = map (fun k => of_internal (Staged.next_id (wheel rt) + Z.of_nat k)) (seq 0 (count_ins os)).
Proof.
  revert rt. induction os as [|o os IH]; intros rt Hr Hb; simpl.
  - split_and!; [done | unfold count_ins; simpl; lia | done].
  - destruct o as [exp wk|tid|now]; simpl; unfold count_ins in *; simpl in *.
    + pose proof (rinsert_spec rt exp wk Hr ltac:(lia)) as Hi.
      destruct (insert rt exp wk) as [t rt1]. destruct Hi as [-> [Hr1 Hn1]].
      specialize (IH rt1 Hr1 ltac:(lia)). destruct (run rt1 os) as [rt2 rs].
      destruct IH as [? [Hn2 ->]]. split_and!; [done | lia |].
      simpl. f_equal; [f_equal; lia|]. rewrite <- seq_shift, map_map.
      apply map_ext. intros k. f_equal. lia.
    + pose proof (rremove_spec rt tid Hr) as Hm.
      destruct (remove rt tid) as [b rt1]. destruct Hm as [Hr1 [Hn1 _]]. simpl.
      specialize (IH rt1 Hr1 ltac:(lia)). destruct (run rt1 os) as [rt2 rs].
      destruct IH as [? [Hn2 ->]]. split_and!; [done | lia | by rewrite Hn1].
    + destruct (rprocess_spec rt now Hr) as [Hr1 Hn1].
      specialize (IH _ Hr1 ltac:(lia)). destruct (run (snd (process_timers rt now)) os) as [rt2 rs].
      destruct IH as [? [Hn2 ->]]. split_and!; [done | lia | by rewrite Hn1].
Qed.

(** C9: [insert] returns [TimerId { index: internal_id mod 2^32,
    generation: 0 }], and [remove]/[exists] depend on the [TimerId] only
    through its index, so internal ids that differ by a multiple of
    [2^32] give the same [TimerId].  On every reactor reached from
    [new_at] by fewer than [2^32] inserts, the k-th insert returned index
    [k]; [exists] holds exactly for the held timers; and removing a
    returned id that still exists returns [true], takes out exactly
    that timer, makes [exists] false for it and leaves the other ids
    unchanged. *)
Theorem timer_id_truncation (b : Z) (os : list op) :
  Z.of_nat (count_ins os) < two32 ->
  let (rt, issued) := run (new_at b) os in
  (forall rt0 exp wk,
     fst (insert rt0 exp wk) = mk_timer_id (fst (Staged.insert (wheel rt0) exp wk) mod two32) 0) /\
  (forall i k, of_internal (i + k * two32) = of_internal i) /\
  (forall rt0 tid tid', index tid = index tid' ->
     remove rt0 tid = remove rt0 tid' /\ exists_ rt0 tid = exists_ rt0 tid') /\
  issued = map (fun k => mk_timer_id (Z.of_nat k) 0) (seq 0 (count_ins os)) /\
  (forall tid, exists_ rt tid = true <-> In (index tid) (TW.ids (Staged.entries (wheel rt)))) /\
  (forall tid, In tid issued -> exists_ rt tid = true ->
     exists x rt', remove rt tid = (true, rt') /\ exists_ rt' tid = false /\
       TW.id x = index tid /\ Staged.entries (wheel rt) ≡ₚ x :: Staged.entries (wheel rt') /\
       forall tid', index tid' <> index tid -> exists_ rt' tid' = exists_ rt tid').
Proof.
  intros Hb.
  pose proof (rrun_spec os (new_at b) (rinv_new_at b) ltac:(simpl; unfold two32 in Hb; unfold two64; lia)) as Hr.
  destruct (run (new_at b) os) as [rt issued] eqn:Hrun.
  destruct Hr as [Hr [_ Hi]]. simpl in Hi.
  pose proof Hr as [_ [Hdom _]].
  split_and!.
  - intros rt0 exp wk. unfold insert. by destruct (Staged.insert (wheel rt0) exp wk).
  - intros i k. unfold of_internal. by rewrite Z_mod_plus_full.
  - intros rt0 tid tid' Heq. unfold remove, exists_. by rewrite Heq.
  - rewrite Hi. apply map_ext_in. intros k Hk. apply in_seq in Hk.
    unfold of_internal. f_equal. apply Z.mod_small. unfold two32 in *. lia.
  - intros tid. unfold exists_. rewrite bool_decide_eq_true. apply Hdom.
  - intros tid _ Hex. unfold exists_ in Hex. apply bool_decide_eq_true in Hex. apply Hdom in Hex.
    pose proof (rremove_spec rt tid Hr) as Hm.
    destruct (remove rt tid) as [b' rt'] eqn:Hrm. destruct Hm as [_ [_ [Hbt [Hb' Hm]]]].
    destruct b'; [|by apply Hbt in Hex].
    destruct Hb' as [x [Hid Hp]]. exists x, rt'. split_and!; [done | | done | done |].
    + unfold exists_. rewrite Hm, lookup_delete_eq. by apply bool_decide_eq_false_2, is_Some_None.
    + intros tid' Hne. unfold exists_. rewrite Hm, lookup_delete_ne by congruence. done.
Qed.

Lemma timer_id_truncation_witness :
  let (rt, issued) := run (new_at 0) [RIns 5 0; RIns 7 0; RProc 6] in
  (forall rt0 exp wk,
     fst (insert rt0 exp wk) = mk_timer_id (fst (Staged.insert (wheel rt0) exp wk) mod two32) 0) /\
  (forall i k, of_internal (i + k * two32) = of_internal i) /\
  (forall rt0 tid tid', index tid = index tid' ->
     remove rt0 tid = remove rt0 tid' /\ exists_ rt0 tid = exists_ rt0 tid') /\
  issued = map (fun k => mk_timer_id (Z.of_nat k) 0) (seq 0 (count_ins [RIns 5 0; RIns 7 0; RProc 6])) /\
  (forall tid, exists_ rt tid = true <-> In (index tid) (TW.ids (Staged.entries (wheel rt)))) /\
  (forall tid, In tid issued -> exists_ rt tid = true ->
     exists x rt', remove rt tid = (true, rt') /\ exists_ rt' tid = false /\
       TW.id x = index tid /\ Staged.entries (wheel rt) ≡ₚ x :: Staged.entries (wheel rt') /\
       forall tid', index tid' <> index tid -> exists_ rt' tid' = exists_ rt tid').
Proof.
  refine (timer_id_truncation 0 [RIns 5 0; RIns 7 0; RProc 6] _).
  vm_compute. reflexivity.
Defined.

End ReactorProofs.

(** ** The timing wheel driven by inserts, removes and [advance_to] *)

Module TWRunProofs.
Import TW TWRun TWProofs.

(** ** Arithmetic of the levels *)

Lemma res_pos l : 0 < res l.
Proof. destruct l as [|[|[|l]]]; simpl; done. Qed.

Lemma nslots_pos l : 0 < nslots l.
Proof. destruct l as [|[|[|l]]]; simpl; done. Qed.

(** An insertion [ticks_until] in [[R, N * R)] ahead of [t] lands within
    one turn of a level clock at [t - 1] or [t]. *)
Lemma div_lands (R N t c d : Z) :
  0 < R -> 0 < N -> R <= d - t -> d - t < N * R -> (c = t - 1 \/ c = t) ->
  c / R < d / R <= c / R + N.
Proof.
  intros HR HN H1 H2 Hc.
  assert (c / R <= t / R) by (apply Z.div_le_mono; lia).
  assert (t / R + 1 <= d / R).
  { replace (t / R + 1) with ((t + 1 * R) / R) by (rewrite Z.div_add by lia; ring).
    apply Z.div_le_mono; lia. }
  split; [lia|].
  rewrite <- Z.div_add by lia. apply Z.div_le_mono; lia.
Qed.

Lemma div_pred_mod0 t R : 0 < R -> t mod R = 0 -> (t - 1) / R = t / R - 1.
Proof.
  intros HR H. pose proof (Z.div_mod t R ltac:(lia)) as Ht. rewrite H, Z.add_0_r in Ht.
  apply Z.le_antisymm.
  - apply Z.lt_succ_r. apply Z.div_lt_upper_bound; lia.
  - apply Z.div_le_lower_bound; lia.
Qed.

Lemma div_pred_modne t R : 0 < R -> t mod R <> 0 -> (t - 1) / R = t / R.
Proof.
  intros HR H. pose proof (Z.div_mod t R ltac:(lia)) as Ht.
  pose proof (Z.mod_pos_bound t R HR).
  apply Z.le_antisymm.
  - apply Z.div_le_mono; lia.
  - apply Z.div_le_lower_bound; lia.
Qed.

Lemma mod_window q p N : 0 < N -> p <= q < p + N -> q mod N = p mod N -> q = p.
Proof.
  intros HN Hq Hm. pose proof (Z.div_mod q N ltac:(lia)). pose proof (Z.div_mod p N ltac:(lia)).
  assert (Hd : q - p = N * (q / N - p / N)) by lia.
  assert (0 <= q / N - p / N < 1) by nia. nia.
Qed.

Lemma to_nat_mod_inj x y N : 0 < N -> Z.to_nat (x mod N) = Z.to_nat (y mod N) -> x mod N = y mod N.
Proof.
  intros HN H. pose proof (Z.mod_pos_bound x N HN). pose proof (Z.mod_pos_bound y N HN). lia.
Qed.


(** ** The views after a field update *)

Lemma In_slot_set_slot_inv w l s v e l' s' i :
  In_slot (set_slot w l s v) e l' s' i ->
  (l' = l /\ s' = s /\ v !! i = Some e) \/ ((l' <> l \/ s' <> s) /\ In_slot w e l' s' i).
Proof.
  intros H. destruct (decide (l < 4)%nat) as [Hl|Hl].
  - destruct (decide (s < length (lv w l))%nat) as [Hs|Hs].
    + by apply In_slot_set_slot.
    + assert (Hlv : forall l'', lv (set_slot w l s v) l'' = lv w l'').
      { intros l''. unfold set_slot. rewrite list_insert_ge by lia.
        destruct (decide (l = l'')) as [<-|Hne].
        - by rewrite lv_set_lv_eq.
        - by rewrite lv_set_lv_ne. }
      right. unfold In_slot in *. rewrite Hlv in H. split; [|done].
      destruct (decide (l' = l)) as [->|]; [|by left]. right. intros ->.
      destruct H as [_ [sl [Hsl _]]]. apply lookup_lt_Some in Hsl. lia.
  - right. destruct H as [Hl' H]. split; [left; lia|]. split; [done|].
    unfold set_slot in H. destruct l as [|[|[|[|l]]]]; [lia..|]. exact H.
Qed.

Lemma In_slot_insert_at_level w e l s x l' s' i :
  In_slot (insert_at_level w e l s) x l' s' i ->
  In_slot w x l' s' i \/ (x = e /\ l' = l /\ s' = s).
Proof.
  unfold insert_at_level. rewrite In_slot_set_index. intros H.
  apply In_slot_set_slot_inv in H as [[-> [-> H]]|[_ H]]; [|by left].
  apply lookup_app_Some in H as [H|[_ H]].
  - left. unfold slot_of in H. destruct (lv w l !! s) as [sl|] eqn:Hsl; simpl in H; [|done].
    assert (Hl : (l < 4)%nat).
    { destruct (decide (l < 4)%nat); [done|]. rewrite lv_ge in Hsl by lia. done. }
    split; [done|]. eauto.
  - right. apply list_lookup_singleton_Some in H as [_ <-]. done.
Qed.

(** ** The overflow map *)

Lemma bt_push_keys k0 e o k : In k (map fst (bt_push k0 e o)) -> k = k0 \/ In k (map fst o).
Proof.
  induction o as [|[k' es] o IH]; simpl; [intros [<-|[]]; by left|].
  destruct (k0 =? k') eqn:Hk; [apply Z.eqb_eq in Hk as ->; simpl; intros H; by right|].
  destruct (k0 <? k'); simpl; [intros [<-|H]; [by left|by right]|]. intros [<-|H]; [right; by left|].
  destruct (IH H); [by left|right; by right].
Qed.

Lemma bt_push_sorted k0 e o :
  StronglySorted Z.lt (map fst o) -> StronglySorted Z.lt (map fst (bt_push k0 e o)).
Proof.
  induction o as [|[k' es] o IH]; simpl; intros Hs.
  - repeat constructor.
  - apply StronglySorted_inv in Hs as [Hs Hf].
    destruct (k0 =? k') eqn:Hk; [apply Z.eqb_eq in Hk as ->; simpl; by constructor|].
    destruct (k0 <? k') eqn:Hlt; simpl.
    + apply Z.ltb_lt in Hlt. constructor; [by constructor|]. constructor; [done|].
      rewrite List.Forall_forall in *. intros x Hx. specialize (Hf x Hx). lia.
    + apply Z.ltb_ge in Hlt. apply Z.eqb_neq in Hk. constructor; [by apply IH|].
      rewrite List.Forall_forall in *. intros x Hx. destruct (bt_push_keys _ _ _ _ Hx) as [->|H]; [lia|].
      by apply Hf.
Qed.

Lemma bt_push_In k0 e o k es' x :
  In (k, es') (bt_push k0 e o) -> In x es' ->
  (exists es, In (k, es) o /\ In x es) \/ (x = e /\ k = k0).
Proof.
  induction o as [|[k' es] o IH]; simpl.
  - intros [Heq|[]] Hx. injection Heq as <- <-. destruct Hx as [<-|[]]. by right.
  - destruct (k0 =? k') eqn:Hk.
    + apply Z.eqb_eq in Hk as <-. intros [Heq|H] Hx.
      * injection Heq as <- <-.
        apply in_app_iff in Hx as [Hx|[<-|[]]]; [left; exists es; split; [by left|done]|by right].
      * left. exists es'. split; [by right|done].
    + destruct (k0 <? k').
      * intros [Heq|[Heq|H]] Hx.
        -- injection Heq as <- <-. destruct Hx as [<-|[]]. by right.
        -- injection Heq as <- <-. left. exists es. split; [by left|done].
        -- left. exists es'. split; [by right|done].
      * intros [Heq|H] Hx.
        -- injection Heq as <- <-. left. exists es. split; [by left|done].
        -- destruct (IH H Hx) as [[es0 [H1 H2]]|H1]; [left; exists es0; split; [by right|done]|by right].
Qed.

Lemma bt_remove_sorted k o es o' :
  StronglySorted Z.lt (map fst o) -> bt_remove k o = Some (es, o') ->
  StronglySorted Z.lt (map fst o') /\ forall p, In p o' -> In p o /\ fst p <> k.
Proof.
  revert o'. induction o as [|[k' es'] o IH]; intros o' Hs; simpl; [discriminate|].
  apply StronglySorted_inv in Hs as [Hs Hf].
  destruct (k =? k') eqn:Hk.
  - apply Z.eqb_eq in Hk as <-. intros [= <- <-]. split; [done|].
    intros p Hp. split; [by right|]. rewrite List.Forall_forall in Hf.
    assert (k < fst p) by (apply Hf, in_map, Hp). lia.
  - apply Z.eqb_neq in Hk.
    destruct (bt_remove k o) as [[r o'']|] eqn:Hr; [|discriminate]. intros [= <- <-].
    destruct (IH o'' Hs eq_refl) as [Hs' Hin]. split.
    + simpl. constructor; [done|]. rewrite List.Forall_forall in *. intros x Hx.
      apply in_map_iff in Hx as [p [<- Hp]]. apply Hf, in_map, Hin, Hp.
    + intros p [<-|Hp]; [split; [by left|done]|]. destruct (Hin p Hp). split; [by right|done].
Qed.

Lemma bt_remove_None k o : bt_remove k o = None -> forall es, ~ In (k, es) o.
Proof.
  induction o as [|[k' es'] o IH]; simpl; [tauto|].
  destruct (k =? k') eqn:Hk; [discriminate|]. apply Z.eqb_neq in Hk.
  destruct (bt_remove k o) as [[r o'']|]; [discriminate|]. intros _ es [[= <- _]|H]; [done|].
  by apply (IH eq_refl es).
Qed.


(** ** The placement invariant under the wheel's primitive steps *)

Lemma placed_view w w' c :
  (forall l, lv w' l = lv w l) -> overflow w' = overflow w -> expired w' = expired w ->
  start_time w' = start_time w -> current_tick w' = current_tick w -> placed w c -> placed w' c.
Proof.
  intros Hlv Ho He Hs Ht [H1 H2 H3 H4 H5 H6].
  assert (Hin : forall e l s k, In_slot w' e l s k -> In_slot w e l s k)
    by (unfold In_slot; intros e l s k; by rewrite Hlv).
  assert (Hd : forall e, dms w' e = dms w e) by (intros e; unfold dms; by rewrite Hs).
  constructor; rewrite ?Ho, ?He, ?Hs, ?Ht; try done.
  - intros e l s k H. rewrite Hd. apply (H3 e l s k). by apply Hin.
Qed.

Lemma placed_clock w c c' :
  (forall l, (l < 4)%nat -> c l / res l = c' l / res l) -> placed w c -> placed w c'.
Proof.
  intros Hc [H1 H2 H3 H4 H5 H6]. constructor; try done.
  intros e l s k H. rewrite <- Hc by apply H. by apply (H3 e l s k).
Qed.

Lemma placed_set_index w m c : placed w c -> placed (set_index w m) c.
Proof. apply placed_view; [apply lv_set_index|done..]. Qed.

Lemma placed_set_current_tick w t c :
  current_tick w <= t -> placed w c -> placed (set_current_tick w t) c.
Proof.
  intros Ht [H1 H2 H3 H4 H5 H6]. constructor.
  - exact H1.
  - simpl. lia.
  - intros e l s k H. apply (H3 e l s k). by rewrite In_slot_set_current_tick in H.
  - exact H4.
  - exact H5.
  - simpl. intros e H. specialize (H6 e H). lia.
Qed.

Lemma placed_push_expired w c e :
  placed w c -> deadline_tick (start_time w) e <= current_tick w -> placed (push_expired w e) c.
Proof.
  intros [H1 H2 H3 H4 H5 H6] He. constructor.
  - exact H1.
  - exact H2.
  - intros x l s k H. apply (H3 x l s k). unfold push_expired in H. by rewrite In_slot_set_expired in H.
  - exact H4.
  - exact H5.
  - simpl. intros x Hx. apply in_app_iff in Hx as [Hx|[<-|[]]]; [by apply H6|done].
Qed.

Lemma insert_at_level_fields w e l s :
  start_time (insert_at_level w e l s) = start_time w /\
  current_tick (insert_at_level w e l s) = current_tick w /\
  next_id (insert_at_level w e l s) = next_id w /\
  overflow (insert_at_level w e l s) = overflow w /\
  expired (insert_at_level w e l s) = expired w.
Proof.
  unfold insert_at_level, set_slot. simpl.
  rewrite set_lv_start_time, set_lv_current_tick, set_lv_next_id, set_lv_overflow, set_lv_expired.
  done.
Qed.

Lemma insert_entry_fields w e :
  start_time (insert_entry w e) = start_time w /\
  current_tick (insert_entry w e) = current_tick w /\
  next_id (insert_entry w e) = next_id w.
Proof.
  unfold insert_entry.
  repeat match goal with
         | |- context [match ?x with _ => _ end] => destruct x
         | |- context [if ?b then _ else _] => destruct b
         end; try apply insert_at_level_fields; done.
Qed.

Lemma placed_insert_at_level w c e l s :
  placed w c -> (l < 4)%nat -> start_time w <= expires_at e < two64 ->
  c l / res l < dms w e / res l <= c l / res l + nslots l ->
  s = Z.to_nat ((dms w e / res l) mod nslots l) ->
  placed (insert_at_level w e l s) c.
Proof.
  intros [H1 H2 H3 H4 H5 H6] Hl He Hd Hs.
  destruct (insert_at_level_fields w e l s) as [Fs [Ft [_ [Fo Fe]]]].
  assert (Hdm : forall x, dms (insert_at_level w e l s) x = dms w x) by (intros x; unfold dms; by rewrite Fs).
  constructor; rewrite ?Fs, ?Ft, ?Fo, ?Fe; try done.
  intros x l' s' k H. rewrite Hdm.
  apply In_slot_insert_at_level in H as [H|[-> [-> ->]]]; [by apply (H3 x l' s' k)|done].
Qed.

Lemma deadline_ms_some w e :
  0 <= start_time w <= expires_at e -> expires_at e < two64 -> deadline_ms w e = Some (dms w e).
Proof.
  intros [H0 H1] H2. unfold deadline_ms, dms. rewrite (proj2 (Z.ltb_ge _ _) H1). f_equal.
  apply Z.min_l. apply Z.div_le_upper_bound; unfold usize_max, two64, NS_PER_MS in *; lia.
Qed.

Lemma deadline_tick_dms w e :
  start_time w <= expires_at e -> deadline_tick (start_time w) e = dms w e.
Proof. intros H. unfold deadline_tick, dms. by rewrite (proj2 (Z.ltb_ge _ _) H). Qed.

(** [insert_entry] keeps the invariant when each level clock is at the
    current tick or one behind; an entry it adds to the overflow map is
    at least [OVERFLOW_THRESHOLD_MS] after the current tick. *)
Lemma placed_insert_entry w c e :
  placed w c -> 0 <= expires_at e < two64 ->
  (forall l, (l < 4)%nat -> c l = current_tick w - 1 \/ c l = current_tick w) ->
  placed (insert_entry w e) c /\
  (forall k es x, In (k, es) (overflow (insert_entry w e)) -> In x es ->
     (exists es0, In (k, es0) (overflow w) /\ In x es0) \/
     (x = e /\ current_tick w + OVERFLOW_THRESHOLD_MS <= dms w e)).
Proof.
  intros Hp He Hc. pose proof (pl_start _ _ Hp) as Hst. pose proof (pl_tick _ _ Hp) as Htk.
  assert (Hold : forall w', overflow w' = overflow w ->
            forall k es x, In (k, es) (overflow w') -> In x es ->
            (exists es0, In (k, es0) (overflow w) /\ In x es0) \/
            (x = e /\ current_tick w + OVERFLOW_THRESHOLD_MS <= dms w e)).
  { intros w' Ho k es x H Hx. rewrite Ho in H. left. eauto. }
  unfold insert_entry.
  destruct (Z.lt_ge_cases (expires_at e) (start_time w)) as [Hlt|Hge].
  - unfold deadline_ms. rewrite (proj2 (Z.ltb_lt _ _) Hlt).
    split; [|by apply Hold].
    apply placed_push_expired; [done|]. unfold deadline_tick. by rewrite (proj2 (Z.ltb_lt _ _) Hlt).
  - rewrite deadline_ms_some by lia.
    destruct (dms w e <=? current_tick w) eqn:Hd.
    { split; [|by apply Hold]. apply placed_push_expired; [done|].
      rewrite deadline_tick_dms by done. by apply Z.leb_le. }
    apply Z.leb_gt in Hd.
    assert (Hat : forall l, (l < 4)%nat -> res l <= dms w e - current_tick w ->
              dms w e - current_tick w < nslots l * res l ->
              placed (insert_at_level w e l (Z.to_nat ((dms w e / res l) mod nslots l))) c /\
              (forall k es x, In (k, es) (overflow (insert_at_level w e l
                   (Z.to_nat ((dms w e / res l) mod nslots l)))) -> In x es ->
                 (exists es0, In (k, es0) (overflow w) /\ In x es0) \/
                 (x = e /\ current_tick w + OVERFLOW_THRESHOLD_MS <= dms w e))).
    { intros l Hl H1 H2. split; [|apply Hold, insert_at_level_fields].
      apply placed_insert_at_level; [done|done|lia| |done].
      apply div_lands with (t := current_tick w); [apply res_pos|apply nslots_pos|lia|lia|].
      by apply Hc. }
    unfold LEVEL_1_RESOLUTION_MS, LEVEL_2_RESOLUTION_MS, LEVEL_3_RESOLUTION_MS,
      OVERFLOW_THRESHOLD_MS.
    destruct (dms w e - current_tick w <? 256) eqn:H1.
    { apply Z.ltb_lt in H1. pose proof (Hat 0%nat ltac:(lia)) as H. simpl in H.
      rewrite Z.div_1_r in H. apply H; unfold LEVEL_0_SLOTS; lia. }
    destruct (dms w e - current_tick w <? 16384) eqn:H2.
    { apply Z.ltb_lt in H2. apply Z.ltb_ge in H1. apply (Hat 1%nat); simpl; unfold LEVEL_1_SLOTS, LEVEL_1_RESOLUTION_MS; lia. }
    destruct (dms w e - current_tick w <? 1048576) eqn:H3.
    { apply Z.ltb_lt in H3. apply Z.ltb_ge in H2. apply (Hat 2%nat); simpl; unfold LEVEL_2_SLOTS, LEVEL_2_RESOLUTION_MS; lia. }
    destruct (dms w e - current_tick w <? 67108864) eqn:H4.
    { apply Z.ltb_lt in H4. apply Z.ltb_ge in H3. apply (Hat 3%nat); simpl; unfold LEVEL_3_SLOTS, LEVEL_3_RESOLUTION_MS; lia. }
    apply Z.ltb_ge in H4. destruct Hp as [P1 P2 P3 P4 P5 P6]. cbv zeta. split.
    + constructor.
      * exact P1.
      * exact P2.
      * intros x l s k H. rewrite In_slot_set_index, In_slot_set_overflow in H. by apply (P3 x l s k).
      * simpl. intros k es x H Hx. destruct (bt_push_In _ _ _ _ _ _ H Hx) as [[es0 [H' Hx']]|[-> ->]].
        -- by apply (P4 k es0).
        -- lia.
      * simpl. by apply bt_push_sorted.
      * exact P6.
    + intros k es x H Hx. simpl in H. destruct (bt_push_In _ _ _ _ _ _ H Hx) as [H'|[-> _]].
      * by left.
      * right. split; [done|]. lia.
Qed.


Lemma fold_inv {A B} (I : A -> Prop) (f : A -> B -> A) (l : list B) (a : A) :
  (forall a b, In b l -> I a -> I (f a b)) -> I a -> I (fold_left f l a).
Proof.
  revert a. induction l as [|b l IH]; simpl; intros a Hf Ha; [done|].
  apply IH; [intros; apply Hf; auto|apply Hf; auto].
Qed.

Lemma In_slot_of w l s x : In x (slot_of w l s) -> exists k, In_slot w x l s k.
Proof.
  intros H. unfold slot_of in H. destruct (lv w l !! s) as [sl|] eqn:Hs; simpl in H; [|done].
  assert (Hl : (l < 4)%nat).
  { destruct (decide (l < 4)%nat); [done|]. rewrite lv_ge in Hs by lia. done. }
  apply list_elem_of_In, list_elem_of_lookup in H as [k Hk]. exists k. split; [done|]. eauto.
Qed.

Lemma set_slot_fields w l s v :
  start_time (set_slot w l s v) = start_time w /\ current_tick (set_slot w l s v) = current_tick w /\
  overflow (set_slot w l s v) = overflow w /\ expired (set_slot w l s v) = expired w.
Proof.
  unfold set_slot. rewrite set_lv_start_time, set_lv_current_tick, set_lv_overflow, set_lv_expired.
  done.
Qed.

Lemma placed_reinsert w c e :
  placed w c -> 0 <= expires_at e < two64 ->
  (forall l, (l < 4)%nat -> c l = current_tick w - 1 \/ c l = current_tick w) ->
  placed (reinsert w e) c /\
  start_time (reinsert w e) = start_time w /\ current_tick (reinsert w e) = current_tick w /\
  (forall k es x, In (k, es) (overflow (reinsert w e)) -> In x es ->
     (exists es0, In (k, es0) (overflow w) /\ In x es0) \/
     (x = e /\ current_tick w + OVERFLOW_THRESHOLD_MS <= dms w e)).
Proof.
  intros Hp He Hc. unfold reinsert.
  destruct (placed_insert_entry (set_index w (delete (id e) (index w))) c e
              (placed_set_index _ _ _ Hp) He Hc) as [H1 H2].
  destruct (insert_entry_fields (set_index w (delete (id e) (index w))) e) as [F1 [F2 _]].
  split; [done|]. split; [done|]. split; [done|]. exact H2.
Qed.

(** Emptying slot [t mod 256] of level 0 moves the level-0 clock to [t]. *)
Lemma placed_expire_slot w c c' t :
  placed w c -> current_tick w = t -> c 0%nat = t - 1 -> c' 0%nat = t ->
  (forall l, l <> 0%nat -> c' l = c l) ->
  placed (expire_slot w (Z.to_nat (t mod LEVEL_0_SLOTS))) c' /\
  start_time (expire_slot w (Z.to_nat (t mod LEVEL_0_SLOTS))) = start_time w /\
  current_tick (expire_slot w (Z.to_nat (t mod LEVEL_0_SLOTS))) = t /\
  overflow (expire_slot w (Z.to_nat (t mod LEVEL_0_SLOTS))) = overflow w.
Proof.
  intros Hp Ht H0 H0' Hc'. unfold expire_slot.
  set (s := Z.to_nat (t mod LEVEL_0_SLOTS)).
  destruct (set_slot_fields w 0 s []) as [F1 [F2 [F3 F4]]].
  destruct Hp as [P1 P2 P3 P4 P5 P6].
  assert (Hdm : forall x, dms (set_slot w 0 s []) x = dms w x) by (intros x; unfold dms; by rewrite F1).
  assert (Hp1 : placed (set_slot w 0 s []) c').
  { constructor; rewrite ?F1, ?F2, ?F3, ?F4; try done.
    intros x l s' k H. rewrite Hdm.
    apply In_slot_set_slot_inv in H as [[_ [_ H]]|[Hne H]]; [by rewrite lookup_nil in H|].
    destruct (P3 x l s' k H) as [Hr [Hd Hs']]. split; [done|].
    destruct (decide (l = 0%nat)) as [->|Hl]; [|by rewrite Hc'].
    rewrite H0'. rewrite H0 in Hd. simpl res in *. simpl nslots in *.
    rewrite !Z.div_1_r in *. split; [|done].
    assert (dms w x <> t).
    { intros Heq. destruct Hne as [Hne|Hne]; [done|]. apply Hne. rewrite Hs'. unfold s. by rewrite Heq. }
    lia. }
  assert (Hsl : forall x, In x (slot_of w 0 s) -> deadline_tick (start_time w) x <= t).
  { intros x Hx. apply In_slot_of in Hx as [k Hk]. destruct (P3 x 0%nat s k Hk) as [Hr [Hd Hs']].
    rewrite deadline_tick_dms by lia. simpl res in *. simpl nslots in *. rewrite !Z.div_1_r in *.
    rewrite H0 in Hd. unfold s in Hs'. apply to_nat_mod_inj in Hs'; [|done].
    assert (dms w x = t) by (apply (mod_window _ _ LEVEL_0_SLOTS); [done|unfold LEVEL_0_SLOTS in *; lia|done]).
    lia. }
  set (I := fun w' => placed w' c' /\ start_time w' = start_time w /\ current_tick w' = t /\
                      overflow w' = overflow w).
  apply (fold_inv I); [|unfold I; rewrite F1, F2, F3; done].
  intros w' x Hx [Q1 [Q2 [Q3 Q4]]]. unfold I, push_expired. simpl.
  split; [|done]. apply (placed_push_expired (set_index w' (delete (id x) (index w'))) c' x).
  - by apply placed_set_index.
  - simpl. rewrite Q2, Q3. by apply Hsl.
Qed.

(** The cascade of level [l] at tick [t] moves its clock to [t]. *)
Lemma placed_cascade w c c' l t :
  (1 <= l <= 3)%nat -> placed w c -> current_tick w = t ->
  (forall l', (l' < 4)%nat -> c l' = t - 1 \/ c l' = t) -> c l = t - 1 ->
  c' l = t -> (forall l', l' <> l -> c' l' = c l') ->
  let w' := if t mod res l =? 0 then cascade_slot w l (Z.to_nat ((t / res l) mod nslots l)) else w in
  placed w' c' /\ start_time w' = start_time w /\ current_tick w' = t.
Proof.
  intros Hl Hp Ht Hc Hcl Hcl' Hc' w'. unfold w'. pose proof (res_pos l) as HR. pose proof (nslots_pos l) as HN.
  destruct (t mod res l =? 0) eqn:Hm.
  2:{ apply Z.eqb_neq in Hm. split; [|done]. apply (placed_clock _ c); [|done].
      intros l' _. destruct (decide (l' = l)) as [->|Hne]; [|by rewrite Hc'].
      rewrite Hcl, Hcl'. by apply div_pred_modne. }
  apply Z.eqb_eq in Hm. unfold cascade_slot. rewrite bool_decide_true by lia.
  set (s := Z.to_nat ((t / res l) mod nslots l)).
  destruct (set_slot_fields w l s []) as [F1 [F2 [F3 F4]]].
  pose proof Hp as [P1 P2 P3 P4 P5 P6].
  assert (Hdm : forall x, dms (set_slot w l s []) x = dms w x) by (intros x; unfold dms; by rewrite F1).
  assert (Hp1 : placed (set_slot w l s []) c').
  { constructor; rewrite ?F1, ?F2, ?F3, ?F4; try done.
    intros x l' s' k H. rewrite Hdm.
    apply In_slot_set_slot_inv in H as [[_ [_ H]]|[Hne H]]; [by rewrite lookup_nil in H|].
    destruct (P3 x l' s' k H) as [Hr [Hd Hs']]. split; [done|].
    destruct (decide (l' = l)) as [->|Hl']; [|by rewrite Hc'].
    rewrite Hcl'. rewrite Hcl, div_pred_mod0 in Hd by done. split; [|done].
    assert (dms w x / res l <> t / res l).
    { intros Heq. destruct Hne as [Hne|Hne]; [done|]. apply Hne. rewrite Hs'. unfold s. by rewrite Heq. }
    lia. }
  assert (Hsl : forall x, In x (slot_of w l s) -> 0 <= expires_at x < two64).
  { intros x Hx. apply In_slot_of in Hx as [k Hk]. destruct (P3 x l s k Hk) as [Hr _]. lia. }
  set (I := fun w' => placed w' c' /\ start_time w' = start_time w /\ current_tick w' = t).
  apply (fold_inv I); [|unfold I; rewrite F1, F2; done].
  intros w2 x Hx [Q1 [Q2 Q3]].
  destruct (placed_reinsert w2 c' x Q1 (Hsl x Hx)) as [R1 [R2 [R3 _]]].
  { intros l' Hl'. rewrite Q3. destruct (decide (l' = l)) as [->|Hne]; [by right|].
    rewrite Hc' by done. by apply Hc. }
  unfold I. rewrite R2, R3. done.
Qed.


Lemma placed_set_overflow_sub w c o :
  placed w c -> StronglySorted Z.lt (map fst o) -> (forall p, In p o -> In p (overflow w)) ->
  placed (set_overflow w o) c.
Proof.
  intros [P1 P2 P3 P4 P5 P6] Hs Hsub. constructor.
  - exact P1.
  - exact P2.
  - intros x l s k H. rewrite In_slot_set_overflow in H. by apply (P3 x l s k).
  - simpl. intros k es x H Hx. apply (P4 k es x); [by apply Hsub|done].
  - exact Hs.
  - exact P6.
Qed.

(** The loop of [check_overflow] over the keys [ks]: every overflow entry
    whose key is not among the keys still to process is at least
    [OVERFLOW_THRESHOLD_MS] after the current tick. *)
Lemma placed_ov_fold ks : forall w c t st,
  placed w c -> current_tick w = t -> start_time w = st ->
  (forall l, (l < 4)%nat -> c l = t - 1 \/ c l = t) ->
  (forall k es x, In (k, es) (overflow w) -> In x es ->
     In k ks \/ t + OVERFLOW_THRESHOLD_MS <= (expires_at x - st) / NS_PER_MS) ->
  let w' := fold_left (fun w k =>
      match bt_remove k (overflow w) with
      | Some (entries, o) => fold_left reinsert entries (set_overflow w o)
      | None => w
      end) ks w in
  placed w' c /\ current_tick w' = t /\ start_time w' = st /\
  (forall k es x, In (k, es) (overflow w') -> In x es ->
     t + OVERFLOW_THRESHOLD_MS <= (expires_at x - st) / NS_PER_MS).
Proof.
  induction ks as [|k ks IH]; intros w c t st Hp Ht Hs Hc Hks; simpl.
  - split_and!; try done. intros k es x H Hx. by destruct (Hks k es x H Hx) as [[]|?].
  - destruct (bt_remove k (overflow w)) as [[es o']|] eqn:Hr.
    + destruct (bt_remove_sorted _ _ _ _ (pl_sorted _ _ Hp) Hr) as [Hso Hsub].
      destruct (bt_remove_Some _ _ _ _ Hr) as [_ [_ Hin]].
      assert (Hes : forall x, In x es -> 0 <= expires_at x < two64).
      { intros x Hx. destruct (pl_ov _ _ Hp k es x Hin Hx) as [-> Hk].
        pose proof (pl_start _ _ Hp). lia. }
      set (J := fun w2 => placed w2 c /\ current_tick w2 = t /\ start_time w2 = st /\
             (forall k es x, In (k, es) (overflow w2) -> In x es ->
                In k ks \/ t + OVERFLOW_THRESHOLD_MS <= (expires_at x - st) / NS_PER_MS)).
      assert (HJ : J (fold_left reinsert es (set_overflow w o'))).
      { apply (fold_inv J).
        - intros w2 x Hx [Q1 [Q2 [Q3 Q4]]].
          destruct (placed_reinsert w2 c x Q1 (Hes x Hx)) as [R1 [R2 [R3 R4]]]; [by rewrite Q2|].
          split; [done|]. split; [by rewrite R3|]. split; [by rewrite R2|].
          intros k' es' y H Hy. destruct (R4 k' es' y H Hy) as [[es0 [H0 Hy0]]|[-> Hd]].
          + by apply (Q4 k' es0).
          + right. unfold dms in Hd. by rewrite Q2, Q3 in Hd.
        - split; [by apply placed_set_overflow_sub; [| |intros p Hp'; apply Hsub]|].
          split; [done|]. split; [done|].
          simpl. intros k' es' y H Hy. destruct (Hsub _ H) as [H' Hne].
          destruct (Hks k' es' y H' Hy) as [[->|Hk']|Hd]; [done|by left|by right]. }
      destruct HJ as [Q1 [Q2 [Q3 Q4]]]. by apply IH.
    + apply IH; try done. intros k' es' y H Hy.
      destruct (Hks k' es' y H Hy) as [[->|Hk']|Hd]; [|by left|by right].
      exfalso. by apply (bt_remove_None _ _ Hr es').
Qed.

Lemma placed_check_overflow w c :
  placed w c -> (forall l, (l < 4)%nat -> c l = current_tick w - 1 \/ c l = current_tick w) ->
  placed (check_overflow w) c /\ ov_after (check_overflow w) (current_tick w) /\
  start_time (check_overflow w) = start_time w /\ current_tick (check_overflow w) = current_tick w.
Proof.
  intros Hp Hc. unfold check_overflow. cbv zeta.
  set (ks := filter _ _).
  edestruct (placed_ov_fold ks w c (current_tick w) (start_time w)) as [Q1 [Q2 [Q3 Q4]]];
    [done|done|done|done| |].
  - intros k es x H Hx. destruct (pl_ov _ _ Hp k es x H Hx) as [Hek Hk].
    destruct (Z.le_gt_cases k (current_time w + OVERFLOW_THRESHOLD_MS * NS_PER_MS)) as [Hle|Hgt].
    + left. apply list_elem_of_In. unfold ks. apply list_elem_of_filter. split.
      * assert (Hb : (k <=? current_time w + OVERFLOW_THRESHOLD_MS * NS_PER_MS) = true)
          by (apply Z.leb_le; lia). by rewrite Hb.
      * apply list_elem_of_In, in_map_iff. by exists (k, es).
    + right. rewrite Hek. unfold current_time in Hgt. apply Z.div_le_lower_bound; [done|].
      unfold OVERFLOW_THRESHOLD_MS, NS_PER_MS in *. lia.
  - split; [exact Q1|]. split; [|done]. intros k es x H Hx. unfold dms. rewrite Q3. by apply (Q4 k es).
Qed.

Lemma placed_tick w t :
  placed w (fun _ => t) -> current_tick w = t ->
  placed (tick w) (fun _ => t + 1) /\ ov_after (tick w) (t + 1) /\
  current_tick (tick w) = t + 1 /\ start_time (tick w) = start_time w.
Proof.
  intros Hp Ht. unfold tick. cbv zeta.
  change (current_tick (set_current_tick w (current_tick w + 1))) with (current_tick w + 1).
  rewrite Ht.
  assert (Q0 : placed (set_current_tick w (t + 1)) (fun _ => t))
    by (apply placed_set_current_tick; [lia|done]).
  assert (E : t = t + 1 - 1) by lia.
  destruct (placed_expire_slot _ (fun _ => t) (fun l => if (l =? 0)%nat then t + 1 else t) (t + 1)
              Q0 eq_refl E eq_refl) as [Q1 [S1 [T1 _]]].
  { intros [|l] Hl; [done|reflexivity]. }
  set (w1 := expire_slot _ _) in *.
  pose proof (placed_cascade w1 _ (fun l => if (l <=? 1)%nat then t + 1 else t) 1 (t + 1)
                ltac:(lia) Q1 T1) as C2.
  cbv zeta in C2. simpl res in C2. simpl nslots in C2.
  destruct C2 as [Q2 [S2 T2]].
  { intros [|l] Hl; simpl; lia. }
  { simpl. lia. }
  { reflexivity. }
  { intros [|[|l]] Hl; simpl; [done|lia|done]. }
  pose proof (placed_cascade _ _ (fun l => if (l <=? 2)%nat then t + 1 else t) 2 (t + 1)
                ltac:(lia) Q2 T2) as C3.
  cbv zeta in C3. simpl res in C3. simpl nslots in C3.
  destruct C3 as [Q3 [S3 T3]].
  { intros [|[|l]] Hl; simpl; lia. }
  { simpl. lia. }
  { reflexivity. }
  { intros [|[|[|l]]] Hl; simpl; [done|done|lia|done]. }
  pose proof (placed_cascade _ _ (fun l => if (l <=? 3)%nat then t + 1 else t) 3 (t + 1)
                ltac:(lia) Q3 T3) as C4.
  cbv zeta in C4. simpl res in C4. simpl nslots in C4.
  destruct C4 as [Q4 [S4 T4]].
  { intros [|[|[|l]]] Hl; simpl; lia. }
  { simpl. lia. }
  { reflexivity. }
  { intros [|[|[|[|l]]]] Hl; simpl; [done|done|done|lia|done]. }
  destruct (placed_check_overflow _ _ Q4) as [Q5 [O5 [S5 T5]]].
  { intros [|[|[|[|l]]]] Hl; simpl; rewrite T4; [lia..|]. lia. }
  rewrite T4 in O5, T5. split; [|split; [done|split; [done|]]].
  - revert Q5. apply placed_clock. intros [|[|[|[|l]]]] Hl; simpl; [done..|lia].
  - rewrite S5, S4, S3, S2, S1. done.
Qed.


Lemma placed_iter n : forall w t,
  placed w (fun _ => t) -> current_tick w = t -> ov_after w t ->
  placed (Nat.iter n tick w) (fun _ => t + Z.of_nat n) /\
  current_tick (Nat.iter n tick w) = t + Z.of_nat n /\
  start_time (Nat.iter n tick w) = start_time w /\ ov_after (Nat.iter n tick w) (t + Z.of_nat n).
Proof.
  induction n as [|n IH]; intros w t Hp Ht Ho; simpl Nat.iter.
  - rewrite Z.add_0_r. done.
  - destruct (IH w t Hp Ht Ho) as [Q1 [Q2 [Q3 _]]].
    destruct (placed_tick _ _ Q1 Q2) as [R1 [R2 [R3 R4]]].
    replace (t + Z.of_nat (S n)) with (t + Z.of_nat n + 1) by lia.
    split_and!; try done. by rewrite R4.
Qed.

Lemma placed_advance_to w now :
  placed w (fun _ => 0) -> current_tick w = 0 -> ov_after w 0 -> now < two64 ->
  placed (advance_to w now) (fun _ => now_tick (start_time w) now) /\
  current_tick (advance_to w now) = now_tick (start_time w) now /\
  start_time (advance_to w now) = start_time w /\
  ov_after (advance_to w now) (now_tick (start_time w) now).
Proof.
  intros Hp Ht Ho Hn. pose proof (pl_start _ _ Hp) as Hs. unfold advance_to, now_tick.
  destruct (now <=? start_time w) eqn:Hle; [rewrite Ht; done|]. apply Z.leb_gt in Hle.
  assert (Hq : 0 <= (now - start_time w) / NS_PER_MS) by (apply Z.div_pos; [lia|done]).
  rewrite Z.min_l.
  2:{ apply Z.div_le_upper_bound; [done|]. unfold usize_max, NS_PER_MS. lia. }
  rewrite Ht, Z.sub_0_r.
  destruct (placed_iter (Z.to_nat ((now - start_time w) / NS_PER_MS)) w 0 Hp Ht Ho)
    as [Q1 [Q2 [Q3 Q4]]].
  rewrite Z2Nat.id, Z.add_0_l in Q1, Q2, Q4 by done.
  destruct (placed_check_overflow _ _ Q1) as [R1 [R2 [R3 R4]]].
  { intros l _. rewrite Q2. by right. }
  rewrite Q2 in R2, R4. rewrite R3, Q3. done.
Qed.

(** After the wheel is brought to tick [T], the expired list holds the
    entries due by [T] and the levels and the overflow map the others. *)
Lemma placed_split w T e :
  placed w (fun _ => T) -> current_tick w = T -> ov_after w T ->
  (In e (expired w) -> deadline_tick (start_time w) e <= T) /\
  (In e (stored w) -> T < deadline_tick (start_time w) e).
Proof.
  intros Hp Ht Ho. split.
  - intros H. rewrite <- Ht. by apply (pl_expired _ _ Hp).
  - intros H. apply In_stored in H as [[l [s [k H]]]|[k [es [H Hx]]]].
    + destruct (pl_slot _ _ Hp e l s k H) as [Hr [Hd _]]. rewrite deadline_tick_dms by lia.
      pose proof (res_pos l). destruct (Z.le_gt_cases (dms w e) T) as [Hle|]; [|done].
      assert (dms w e / res l <= T / res l) by (apply Z.div_le_mono; lia). lia.
    + destruct (pl_ov _ _ Hp k es e H Hx) as [Hek Hk]. specialize (Ho _ _ _ H Hx).
      rewrite deadline_tick_dms by lia. unfold OVERFLOW_THRESHOLD_MS in Ho. lia.
Qed.

Lemma placed_new_at base : 0 <= base -> placed (new_at base) (fun _ => 0).
Proof.
  intros Hb. constructor; simpl; try done.
  - intros e l s k [_ [sl [H1 H2]]]. destruct (StagedProofs.lv_new_at base l) as [n Hn].
    rewrite Hn in H1. apply lookup_replicate in H1 as [-> _]. done.
  - constructor.
Qed.

Lemma placed_shrinks w w' c : shrinks w' w -> placed w c -> placed w' c.
Proof.
  intros [Ht [Hs [_ [Hsl [Hov [Hk He]]]]]] [P1 P2 P3 P4 P5 P6].
  assert (Hd : forall x, dms w' x = dms w x) by (intros x; unfold dms; by rewrite Hs).
  constructor; rewrite ?Ht, ?Hs, ?Hk; try done.
  - intros x l s k H. rewrite Hd. destruct (Hsl x l s k H) as [k' H']. by apply (P3 x l s k').
  - intros k es' x H Hx. destruct (Hov k es' H) as [es [H1 H2]]. apply (P4 k es x H1). by apply H2.
  - intros x H. by apply P6, He.
Qed.

Lemma ov_after_shrinks w w' t : shrinks w' w -> ov_after w t -> ov_after w' t.
Proof.
  intros [_ [Hs [_ [_ [Hov _]]]]] Ho k es' x H Hx. unfold dms. rewrite Hs.
  destruct (Hov k es' H) as [es [H1 H2]]. apply (Ho k es x H1). by apply H2.
Qed.

Lemma perm_filter {A} (f : A -> bool) (l r : list A) :
  Permutation l r -> Permutation (List.filter f l) (List.filter f r).
Proof.
  induction 1 as [|x l r _ IH|x y l|l m r _ IH1 _ IH2]; simpl.
  - done.
  - destruct (f x); [by constructor|done].
  - destruct (f x), (f y); try done; by constructor.
  - by rewrite IH1.
Qed.

Lemma filter_keep {A} (f : A -> bool) (l : list A) :
  (forall x, In x l -> f x = true) -> List.filter f l = l.
Proof.
  induction l as [|x l IH]; simpl; intros H; [done|].
  rewrite (H x (or_introl eq_refl)), IH; [done|]. intros y Hy. apply H. by right.
Qed.

Lemma filter_drop {A} (f : A -> bool) (l : list A) :
  (forall x, In x l -> f x = false) -> List.filter f l = [].
Proof.
  induction l as [|x l IH]; simpl; intros H; [done|].
  rewrite (H x (or_introl eq_refl)), IH; [done|]. intros y Hy. apply H. by right.
Qed.

(** The invariant of a wheel built by [new_at] and a sequence of inserts
    and removes: placed with every clock at tick 0, the entries those of
    [live_go]. *)
Lemma wheel_run_inv os : forall w n l,
  tw_struct w [] -> placed w (fun _ => 0) -> ov_after w 0 -> current_tick w = 0 ->
  next_id w = n -> 0 <= n -> n + Z.of_nat (length os) < two64 ->
  (forall e, In e (all w) -> id e < n) -> all w ≡ₚ l ->
  (forall exp wk, In (TIns exp wk) os -> 0 <= exp < two64) ->
  tw_struct (run w os) [] /\ placed (run w os) (fun _ => 0) /\ ov_after (run w os) 0 /\
  current_tick (run w os) = 0 /\ start_time (run w os) = start_time w /\
  all (run w os) ≡ₚ live_go n l os.
Proof.
  induction os as [|o os IH]; intros w n l Hts Hp Ho Ht Hn Hn0 Hlen Hid Hl Hex; [done|].
  change (run w (o :: os)) with (run (step w o) os). simpl live_go.
  simpl length in Hlen.
  destruct o as [exp wk|i]; simpl step.
  - subst n. set (w1 := set_next_id w (wrapping_add (next_id w) 1)).
    set (e := mk_entry (next_id w) exp wk).
    assert (Hexp : 0 <= expires_at e < two64) by (apply (Hex exp wk); by left).
    assert (Hw : wrapping_add (next_id w) 1 = next_id w + 1) by (unfold wrapping_add; apply Z.mod_small; lia).
    assert (Hall1 : all w1 = all w) by apply StagedProofs.all_set_next_id.
    assert (Hfr : ~ In (id e) (ids (all w1 ++ []))).
    { rewrite app_nil_r, Hall1. intros Hin. apply In_ids in Hin as [x [Hx Hxi]].
      specialize (Hid x Hx). simpl in Hxi. lia. }
    destruct (ts_insert_entry w1 e [] (ts_set_next_id _ _ _ Hts) Hfr) as [Hts2 Hp2].
    assert (Hp1 : placed w1 (fun _ => 0)).
    { apply (placed_view w); done. }
    destruct (placed_insert_entry w1 _ e Hp1 Hexp) as [Q1 Q2].
    { intros l' _. by right. }
    destruct (insert_entry_fields w1 e) as [F1 [F2 F3]].
    destruct (IH (insert_entry w1 e) (next_id w + 1) (l ++ [e])) as [R1 [R2 [R3 [R4 [R5 R6]]]]];
      try done.
    + intros k es x H Hx. unfold dms. rewrite F1.
      destruct (Q2 k es x H Hx) as [[es0 [H0 Hx0]]|[-> Hd]]; [by apply (Ho k es0)|].
      unfold dms in Hd. simpl in Hd |- *. rewrite Ht in Hd. exact Hd.
    + by rewrite F2.
    + rewrite F3. simpl. done.
    + lia.
    + lia.
    + intros x Hx. rewrite Hp2, Hall1 in Hx. destruct Hx as [<-|Hx]; [simpl; lia|].
      specialize (Hid x Hx). lia.
    + rewrite Hp2, Hall1, Hl. solve_Permutation.
    + intros exp' wk' H. apply (Hex exp' wk'). by right.
    + split_and!; try done. by rewrite R5, F1.
  - pose proof (ts_remove w i Hts) as Hr. destruct (remove w i) as [b w'] eqn:Hrem. simpl snd.
    destruct Hr as [Hts' [Hsh Hb]].
    pose proof Hsh as [Ht' [Hs' [Hn' _]]].
    assert (Hnd : NoDup (ids (all w))) by (pose proof (ts_nodup _ _ Hts) as H; by rewrite app_nil_r in H).
    assert (Hsub : forall x, In x (all w') -> In x (all w)).
    { intros x Hx. destruct b; [|by destruct Hb as [-> _]].
      destruct Hb as [e [_ He]]. apply (In_perm _ _ _ (symmetry He)). by right. }
    assert (Hall : all w' ≡ₚ List.filter (fun e => negb (id e =? i)) l).
    { rewrite <- (perm_filter _ _ _ Hl). destruct b.
      - destruct Hb as [e [Hei He]]. rewrite (perm_filter _ _ _ He). simpl.
        rewrite Hei, Z.eqb_refl. simpl. rewrite filter_keep; [done|].
        intros x Hx. apply negb_true_iff, Z.eqb_neq. intros Hxi.
        apply (nodup_perm _ _ He) in Hnd. simpl in Hnd. apply NoDup_cons in Hnd as [Hnd _].
        apply Hnd, list_elem_of_In. rewrite Hei, <- Hxi. by apply In_ids_of.
      - destruct Hb as [-> Hi]. rewrite filter_keep; [done|].
        intros x Hx. apply negb_true_iff, Z.eqb_neq. intros Hxi.
        apply Hi. rewrite <- Hxi. by apply In_ids_of. }
    destruct (IH w' n (List.filter (fun e => negb (id e =? i)) l)) as [R1 [R2 [R3 [R4 [R5 R6]]]]];
      try done.
    + by apply (placed_shrinks w).
    + by apply (ov_after_shrinks w).
    + by rewrite Ht'.
    + by rewrite Hn'.
    + lia.
    + intros x Hx. by apply Hid, Hsub.
    + intros exp' wk' H. apply (Hex exp' wk'). by right.
    + split_and!; try done. by rewrite R5.
Qed.


(** C1: after inserts and removes on a wheel created at [base] and
    [advance_to now], [drain_expired] returns exactly the live entries
    whose deadline tick is at most the tick of [now] (both measured in
    whole milliseconds from [base], clamped at 0), and the wheel keeps
    exactly the other live entries; a removed entry is in neither. *)
Theorem advance_to_drains_due (base now : Z) (os : list op) :
  0 <= base -> now < two64 -> Z.of_nat (length os) < two64 ->
  (forall exp wk, In (TIns exp wk) os -> 0 <= exp < two64) ->
  fst (drain_expired (advance_to (run (new_at base) os) now)) ≡ₚ
    map (fun e => (id e, waker e)) (due base now os) /\
  all (snd (drain_expired (advance_to (run (new_at base) os) now))) ≡ₚ
    List.filter (fun e => now_tick base now <? deadline_tick base e) (live os).
Proof.
  intros Hb Hn Hlen Hex.
  destruct (wheel_run_inv os (new_at base) 0 [] (StagedProofs.ts_new_at base) (placed_new_at base Hb))
    as [R1 [R2 [R3 [R4 [R5 R6]]]]];
    [intros k es x []|done|done|done|simpl; lia|intros e []|done|done|].
  simpl in R5. fold (live os) in R6.
  set (W := run (new_at base) os) in *.
  destruct (ts_advance_to W now R1) as [_ Pa].
  destruct (placed_advance_to W now R2 R4 R3 Hn) as [A1 [A2 [A3 A4]]].
  rewrite R5 in A1, A2, A3, A4.
  set (W' := advance_to W now) in *.
  set (T := now_tick base now) in *.
  assert (Hall : all W' ≡ₚ live os) by (by rewrite Pa).
  assert (Hsp : forall e, (In e (expired W') -> deadline_tick base e <= T) /\
                          (In e (stored W') -> T < deadline_tick base e)).
  { intros e. rewrite <- A3. by apply placed_split. }
  unfold due. fold T. split.
  - simpl. apply Permutation_map. rewrite <- (perm_filter _ _ _ Hall). unfold all.
    rewrite List.filter_app, filter_keep, filter_drop, app_nil_r; [done| |].
    + intros x Hx. apply Z.leb_gt. by apply Hsp.
    + intros x Hx. apply Z.leb_le. by apply Hsp.
  - change (all (snd (drain_expired W'))) with ([] ++ stored W').
    rewrite <- (perm_filter _ _ _ Hall). unfold all.
    rewrite List.filter_app, (filter_drop _ (expired W')), (filter_keep _ (stored W')); [done| |].
    + intros x Hx. apply Z.ltb_lt. by apply Hsp.
    + intros x Hx. apply Z.ltb_ge. by apply Hsp.
Qed.

Lemma advance_to_drains_due_witness :
  (forall exp wk, In (TIns exp wk) [TIns 3000000 0; TIns 10000000 1; TIns 2000000 2; TRem 2] ->
     0 <= exp < two64) /\
  due 0 5000000 [TIns 3000000 0; TIns 10000000 1; TIns 2000000 2; TRem 2] = [mk_entry 0 3000000 0] /\
  fst (drain_expired (advance_to (run (new_at 0)
         [TIns 3000000 0; TIns 10000000 1; TIns 2000000 2; TRem 2]) 5000000)) ≡ₚ
    map (fun e => (id e, waker e)) (due 0 5000000
         [TIns 3000000 0; TIns 10000000 1; TIns 2000000 2; TRem 2]) /\
  all (snd (drain_expired (advance_to (run (new_at 0)
         [TIns 3000000 0; TIns 10000000 1; TIns 2000000 2; TRem 2]) 5000000))) ≡ₚ
    List.filter (fun e => now_tick 0 5000000 <? deadline_tick 0 e)
      (live [TIns 3000000 0; TIns 10000000 1; TIns 2000000 2; TRem 2]).
Proof.
  assert (Hex : forall exp wk, In (TIns exp wk) [TIns 3000000 0; TIns 10000000 1; TIns 2000000 2; TRem 2] ->
     0 <= exp < two64).
  { intros exp wk H. simpl in H.
    destruct H as [H|[H|[H|[H|[]]]]]; inversion H; subst; unfold two64; lia. }
  split; [exact Hex|]. split; [vm_compute; reflexivity|].
  apply (advance_to_drains_due 0 5000000); [lia|unfold two64; lia|simpl; unfold two64; lia|exact Hex].
Defined.

(** C1, the deadlines and [now] before the base: both are clamped at
    tick 0, so an entry due exactly at the base time expires on
    [advance_to now] with [now] a millisecond before the base. *)
Lemma advance_to_before_base_cex :
  fst (drain_expired (advance_to (run (new_at NS_PER_MS) [TIns NS_PER_MS 7]) 0)) = [(0, 7)] /\
  (0 - NS_PER_MS) / NS_PER_MS < (NS_PER_MS - NS_PER_MS) / NS_PER_MS.
Proof. split; vm_compute; reflexivity. Qed.

End TWRunProofs.


Module SpscExtra.
Import Spsc SpscProofs.

Section Ring.
Context {T : Type}.
Implicit Types (b : buffer T) (q : list T).

Lemma size_inv b q :
  ring_inv b q ->
  size b = (if tail b <? head b then 0 else Z.of_nat (length q)).
Proof.
  intros Hi. pose proof (ri_n _ _ Hi). pose proof (cap_le _ _ Hi).
  pose proof (ri_head _ _ Hi). pose proof (ri_tail _ _ Hi) as Ht.
  unfold wrapping_add in Ht. unfold size. unfold two64 in *.
  destruct (Z.lt_ge_cases (head b + Z.of_nat (length q)) (2 ^ 64)).
  - rewrite Z.mod_small in Ht by lia.
    destruct (tail b <? head b) eqn:E; [apply Z.ltb_lt in E; lia|]. lia.
  - rewrite Z.mod_eq in Ht by lia.
    assert ((head b + Z.of_nat (length q)) / 2 ^ 64 = 1).
    { symmetry. apply Z.div_unique with (head b + Z.of_nat (length q) - 2 ^ 64); lia. }
    destruct (tail b <? head b) eqn:E; [|apply Z.ltb_ge in E; lia]. lia.
Qed.

(** A ring made by [inner_make cap iv], in either build, from any
    initial index [iv] (the indices wrap at [2^64]; the test [test_wrap]
    starts at [usize::MAX - 1]): the popped values followed by the ring's
    contents are the pushed values, in order.  [size] is the number of
    values in the ring while [tail] has not wrapped past [head], and [0]
    once the tail index has wrapped and the head index has not;
    [free_space] stays within [0, capacity].  On the release build's ring
    of capacity [0] ([cap > 2^63]) both are [0]. *)
Theorem spsc_wrap_fifo_size (dbg : bool) (cap iv : Z) (b0 : buffer T) (os : list (op T))
    (b : buffer T) (lg : log T) :
  0 <= iv < two64 -> inner_make dbg cap iv = Some b0 ->
  run b0 (mk_log [] []) os = Some (b, lg) ->
  pushed lg = popped lg ++ contents b /\
  size b = (if tail b <? head b then 0 else Z.of_nat (length (contents b))) /\
  0 <= free_space b <= capacity b.
Proof.
  intros Hiv Hm Hr.
  destruct (reach_cases _ _ _ _ _ _ _ Hiv Hm Hr) as [[_ [q [Hi [Hl _]]]]|[_ [_ [_ [Hz ->]]]]].
  - rewrite (contents_inv _ _ Hi).
    pose proof (size_inv _ _ Hi) as Hs. pose proof (ri_n _ _ Hi).
    split; [exact Hl|]. split; [exact Hs|].
    unfold free_space. rewrite Hs. destruct (_ <? _); lia.
  - destruct (zero_contents _ Hz) as [_ ->]. destruct Hz as [_ [Hc [Ht _]]].
    unfold free_space, size. rewrite Hc, Ht, Z.ltb_irrefl, Z.sub_diag.
    split; [reflexivity|]. split; [reflexivity|]. lia.
Qed.

(** On a ring reached from [inner_make] with [cap <= 2^63] (either
    build), [try_pop] returns [None] and leaves the ring as it is exactly
    when the ring is empty, and otherwise returns the oldest value and
    leaves the others in order; it does not look at the connection state
    of either side.  On the release build's ring of capacity [0]
    ([cap > 2^63]) the ring is empty and [try_pop] panics. *)
Theorem spsc_try_pop_front (dbg : bool) (cap iv : Z) (b0 : buffer T) (os : list (op T))
    (b : buffer T) (lg : log T) :
  0 <= iv < two64 -> inner_make dbg cap iv = Some b0 ->
  run b0 (mk_log [] []) os = Some (b, lg) ->
  (cap <= 2 ^ 63 ->
   (contents b = [] <-> try_pop b = Some (None, b)) /\
   (forall v q, contents b = v :: q ->
      exists b', try_pop b = Some (Some v, b') /\ contents b' = q /\
        consumer_id b' = consumer_id b /\ producer_id b' = producer_id b)) /\
  (2 ^ 63 < cap -> contents b = [] /\ try_pop b = None).
Proof.
  intros Hiv Hm Hr.
  destruct (reach_cases _ _ _ _ _ _ _ Hiv Hm Hr) as [[Hc [q [Hi _]]]|[Hc [_ [_ [Hz _]]]]];
    split; intros Hc'; try lia.
  - rewrite (contents_inv _ _ Hi).
    destruct (try_pop_inv _ _ Hi) as [[Hq Hp]|[v [q' [b' [Hq [Hp Hi']]]]]].
    + rewrite Hq, Hp. split; [tauto|]. intros v q0 [=].
    + rewrite Hq, Hp. split; [split; [discriminate|intros [=]]|].
      intros v0 q0 [= <- <-]. exists b'. split; [reflexivity|].
      split; [exact (contents_inv _ _ Hi')|].
      unfold try_pop in Hp. destruct (get_slot _ _) as [[?|]|]; inversion Hp; auto.
  - split; [exact (proj2 (zero_contents _ Hz))|]. apply try_pop_zero. exact (proj1 Hz).
Qed.

(** Once the consumer is disconnected, and as long as no consumer
    connects again, every push gives its value back: the values pushed
    successfully stay the same, and the consumer stays disconnected. *)
Theorem spsc_disconnected_consumer_rejects (b : buffer T) (lg : log T) (os : list (op T))
    (b' : buffer T) (lg' : log T) :
  consumer_disconnected b = true ->
  (forall id, ~ In (ConnectConsumer id) os) ->
  run b lg os = Some (b', lg') ->
  pushed lg' = pushed lg /\ consumer_disconnected b' = true.
Proof.
  revert b lg. induction os as [|o os IH]; intros b lg Hd Hn Hr; simpl in Hr.
  - injection Hr as <- <-. auto.
  - destruct (step b lg o) as [[b1 lg1]|] eqn:Hs; [|discriminate].
    assert (Hn' : forall id, ~ In (ConnectConsumer id) os) by (intros id Hin; apply (Hn id); right; exact Hin).
    assert (pushed lg1 = pushed lg /\ consumer_disconnected b1 = true) as [E1 D1].
    { destruct o as [v| | | |id|id]; simpl in Hs.
      - unfold try_push in Hs. rewrite Hd in Hs. injection Hs as <- <-. auto.
      - unfold try_pop in Hs. destruct (get_slot _ _) as [[?|]|]; inversion Hs; subst; auto.
      - injection Hs as <- <-. auto.
      - injection Hs as <- <-. auto.
      - destruct (connect_producer b id) eqn:E; [|discriminate]. injection Hs as <- <-.
        unfold connect_producer in E. destruct (_ || _); [discriminate|]. injection E as <-. auto.
      - exfalso. apply (Hn id). left. reflexivity. }
    destruct (IH _ _ D1 Hn' Hr) as [E2 D2]. rewrite E2, E1. auto.
Qed.

End Ring.

Lemma spsc_wrap_fifo_size_witness :
  exists b0 b lg, 0 <= two64 - 1 < two64 /\ inner_make false 4 (two64 - 1) = Some b0 /\
    run b0 (mk_log [] []) [Push 1; Push 2] = Some (b, lg) /\ size b = 0 /\
    contents b = [1; 2] /\
    (pushed lg = popped lg ++ contents b /\
     size b = (if tail b <? head b then 0 else Z.of_nat (length (contents b))) /\
     0 <= free_space b <= capacity b).
Proof.
  do 3 eexists. split; [unfold two64; lia|].
  split; [vm_compute; reflexivity|]. split; [vm_compute; reflexivity|].
  split; [vm_compute; reflexivity|]. split; [vm_compute; reflexivity|].
  refine (spsc_wrap_fifo_size false 4 (two64 - 1) _ [Push 1; Push 2] _ _ _ _ _).
  - unfold two64; lia.
  - vm_compute; reflexivity.
  - vm_compute; reflexivity.
Defined.

Lemma spsc_try_pop_front_witness :
  exists b0 b lg, inner_make true 2 (two64 - 1) = Some b0 /\
    run b0 (mk_log [] []) [Push 5; DisconnectProducer] = Some (b, lg) /\
    ((contents b = [] <-> try_pop b = Some (None, b)) /\
     (forall v q, contents b = v :: q ->
        exists b', try_pop b = Some (Some v, b') /\ contents b' = q /\
          consumer_id b' = consumer_id b /\ producer_id b' = producer_id b)).
Proof.
  do 3 eexists. split; [vm_compute; reflexivity|]. split; [vm_compute; reflexivity|].
  refine (proj1 (spsc_try_pop_front true 2 (two64 - 1) _ [Push 5; DisconnectProducer] _ _ _ _ _) _).
  - unfold two64; lia.
  - vm_compute; reflexivity.
  - vm_compute; reflexivity.
  - lia.
Defined.

Lemma spsc_disconnected_consumer_rejects_witness :
  exists b0 b lg b', make true 2 = Some b0 /\
    run b0 (mk_log [] []) [Push 1; DisconnectConsumer] = Some (b, lg) /\
    run b lg [Push 2; Pop; ConnectProducer 3; Push 4] = Some (b', mk_log [1] [1]) /\
    (pushed (mk_log [1] [1]) = pushed lg /\ consumer_disconnected b' = true).
Proof.
  do 4 eexists. split; [vm_compute; reflexivity|]. split; [vm_compute; reflexivity|].
  match goal with |- run ?b ?lg _ = _ /\ _ =>
    split; [vm_compute; reflexivity|];
    refine (spsc_disconnected_consumer_rejects b lg [Push 2; Pop; ConnectProducer 3; Push 4] _ _ _ _ _)
  end.
  - vm_compute; reflexivity.
  - intros id Hin. simpl in Hin. destruct Hin as [H|[H|[H|[H|[]]]]]; discriminate.
  - vm_compute; reflexivity.
Defined.

End SpscExtra.


Module ArenaExtra.
Import Arena ArenaProofs.

Lemma link_slots_spec base n : forall i m,
  (forall j, i <= j < i + Z.of_nat n ->
     link_slots base i n m !! (base + j * SLOT_SIZE) = Some (j + 1)) /\
  (forall x, (forall j, i <= j < i + Z.of_nat n -> x <> base + j * SLOT_SIZE) ->
     link_slots base i n m !! x = m !! x).
Proof.
  induction n as [|n IH]; intros i m; simpl.
  - split; [lia|reflexivity].
  - destruct (IH (i + 1) (<[base + i * SLOT_SIZE := i + 1]> m)) as [IH1 IH2]. split.
    + intros j Hj. destruct (Z.eq_dec j i) as [->|Hne]; [|apply IH1; lia].
      rewrite IH2; [apply lookup_insert_eq|].
      intros j' Hj' E. unfold SLOT_SIZE in E. lia.
    + intros x Hx. rewrite IH2 by (intros j Hj; apply Hx; lia).
      apply lookup_insert_ne. intros E. apply (Hx i); [lia|done].
Qed.

(** The free list [initialize_free_list] builds: slot [j] links to [j + 1],
    the last slot holds [FREE_LIST_END], and the head is slot [0]. *)
Lemma initialize_free_list_spec a :
  let a' := initialize_free_list a in
  free_head a' = 0 /\ memory a' = memory a /\
  (forall j, 0 <= j < SLOT_CAPACITY ->
     cells a' !! (memory a + j * SLOT_SIZE) =
       Some (if j =? SLOT_CAPACITY - 1 then FREE_LIST_END else j + 1)) /\
  (forall x, (forall j, 0 <= j < SLOT_CAPACITY -> x <> memory a + j * SLOT_SIZE) ->
     cells a' !! x = cells a !! x).
Proof.
  destruct (link_slots_spec (memory a) (Z.to_nat (SLOT_CAPACITY - 1)) 0 (cells a)) as [H1 H2].
  rewrite Z2Nat.id in H1, H2 by (unfold SLOT_CAPACITY; lia).
  unfold initialize_free_list; cbn [free_head memory cells].
  split; [reflexivity|]. split; [reflexivity|]. split.
  - intros j Hj. destruct (Z.eqb_spec j (SLOT_CAPACITY - 1)) as [->|Hne].
    + apply lookup_insert_eq.
    + rewrite lookup_insert_ne by (unfold SLOT_SIZE, SLOT_CAPACITY in *; lia).
      apply H1. lia.
  - intros x Hx. rewrite lookup_insert_ne by (intros E; apply (Hx (SLOT_CAPACITY - 1));
      [unfold SLOT_CAPACITY; lia|done]).
    apply H2. intros j Hj. apply Hx. lia.
Qed.

(** [new] and [reset] build the same free list over the arena's slots:
    the head is slot [0], slot [j] links to slot [j + 1] and the last
    slot ends the list, so allocations hand the slots out in address
    order.  [new] stores nothing else; [reset] also zeroes the five
    counters and keeps the block and its capacity. *)
Theorem arena_new_reset_free_list (base : Z) (a : arena) :
  free_head (new base) = 0 /\
  (forall j, 0 <= j < SLOT_CAPACITY ->
     cells (new base) !! (base + j * SLOT_SIZE) =
       Some (if j =? SLOT_CAPACITY - 1 then FREE_LIST_END else j + 1)) /\
  (forall x, (forall j, 0 <= j < SLOT_CAPACITY -> x <> base + j * SLOT_SIZE) ->
     cells (new base) !! x = None) /\
  free_head (reset a) = 0 /\ memory (reset a) = memory a /\
  arena_capacity (reset a) = arena_capacity a /\
  (forall j, 0 <= j < SLOT_CAPACITY ->
     cells (reset a) !! (memory a + j * SLOT_SIZE) =
       Some (if j =? SLOT_CAPACITY - 1 then FREE_LIST_END else j + 1)) /\
  arena_allocs (reset a) = 0 /\ arena_deallocs (reset a) = 0 /\
  heap_fallback_allocs (reset a) = 0 /\ active_slots (reset a) = 0 /\ peak_active (reset a) = 0.
Proof.
  unfold new, reset.
  edestruct initialize_free_list_spec as [N1 [N2 [N3 N4]]].
  edestruct (initialize_free_list_spec
    {| memory := memory a; arena_capacity := arena_capacity a; free_head := free_head a;
       cells := cells a; arena_allocs := 0; arena_deallocs := 0;
       heap_fallback_allocs := 0; active_slots := 0; peak_active := 0 |}) as [R1 [R2 [R3 R4]]].
  split; [exact N1|]. split; [exact N3|]. split; [intros x Hx; rewrite N4 by exact Hx; reflexivity|].
  split; [exact R1|]. split; [exact R2|]. split; [reflexivity|]. split; [exact R3|].
  repeat split.
Qed.

(** A slot given back right after [try_allocate] handed it out is taken
    again by the next allocation: [try_deallocate] accepts the pointer and
    restores the free list exactly (its head and every cell), the active
    count is back where it was, and the next [try_allocate] returns the
    same pointer (the free list is last in, first out). *)
Theorem arena_alloc_dealloc_roundtrip (dbg : bool) (size align : Z) (a a1 : arena) (p : Z) :
  0 <= memory a -> memory a + arena_capacity a < two64 ->
  arena_capacity a = SLOT_CAPACITY * SLOT_SIZE ->
  0 <= free_head a < SLOT_CAPACITY ->
  is_Some (cells a !! (memory a + free_head a * SLOT_SIZE)) ->
  0 <= arena_allocs a -> arena_allocs a + 2 < two64 ->
  0 <= arena_deallocs a -> arena_deallocs a + 1 < two64 ->
  0 <= active_slots a -> active_slots a + 1 < two64 ->
  try_allocate dbg size align a = Some (Some p, a1) ->
  p = memory a + free_head a * SLOT_SIZE /\
  exists a2, try_deallocate dbg a1 p = Some (true, a2) /\
    free_head a2 = free_head a /\ cells a2 = cells a /\
    active_slots a2 = active_slots a /\ arena_deallocs a2 = arena_deallocs a + 1 /\
    exists a3, try_allocate dbg size align a2 = Some (Some p, a3).
Proof.
  intros Hb He Hc Hh [nx Hnx] Ha1 Ha2 Hd1 Hd2 Hs1 Hs2 Hal.
  assert (Hlay : ((MAX_TASK_SIZE <? size) || (MAX_ALIGN <? align)) = false).
  { unfold try_allocate in Hal. destruct (_ || _); [discriminate|reflexivity]. }
  assert (Hend : (free_head a =? FREE_LIST_END) = false)
    by (apply Z.eqb_neq; unfold FREE_LIST_END, SLOT_CAPACITY in *; lia).
  assert (Hcap : (free_head a <? SLOT_CAPACITY) = true) by (apply Z.ltb_lt; lia).
  assert (Hov : (two64 <=? free_head a * SLOT_SIZE) = false)
    by (apply Z.leb_gt; unfold two64, SLOT_CAPACITY, SLOT_SIZE in *; lia).
  assert (Hoc : (free_head a * SLOT_SIZE <? arena_capacity a) = true)
    by (apply Z.ltb_lt; rewrite Hc; unfold SLOT_SIZE; lia).
  unfold try_allocate in Hal. rewrite Hlay, Hend, Hcap, Hov, Hoc, Hnx in Hal. simpl default in Hal.
  rewrite (add_usize_ok dbg (arena_allocs a) 1), (add_usize_ok dbg (active_slots a) 1) in Hal by lia.
  rewrite !andb_false_r in Hal.
  destruct (dbg && negb ((nx =? FREE_LIST_END) || (nx <? SLOT_CAPACITY))) eqn:Enx; [discriminate|].
  injection Hal as <- <-. split; [reflexivity|].
  unfold try_deallocate; simpl.
  rewrite (add_usize_ok dbg (memory a) (arena_capacity a)) by (rewrite Hc in *; unfold SLOT_CAPACITY, SLOT_SIZE in *; lia).
  rewrite (proj2 (Z.ltb_ge _ _)) by (unfold SLOT_SIZE; lia).
  rewrite (proj2 (Z.leb_gt _ _)) by (rewrite Hc; unfold SLOT_SIZE in *; lia). simpl orb.
  replace (memory a + free_head a * SLOT_SIZE - memory a) with (free_head a * SLOT_SIZE) by lia.
  rewrite Z.mod_mul, Z.div_mul by (unfold SLOT_SIZE; lia). simpl Z.eqb.
  rewrite Hcap, !andb_false_r.
  assert (Enx' : dbg && negb ((nx =? FREE_LIST_END) || (nx <? SLOT_CAPACITY)) = false) by exact Enx.
  rewrite Enx'.
  rewrite (add_usize_ok dbg (arena_deallocs a) 1) by lia.
  rewrite (sub_usize_ok dbg (active_slots a + 1) 1) by lia.
  eexists. split; [reflexivity|]. simpl.
  rewrite Z.mod_small by (unfold SLOT_CAPACITY in *; lia).
  rewrite insert_id by exact Hnx.
  split; [reflexivity|]. split; [reflexivity|]. split; [lia|]. split; [reflexivity|].
  unfold try_allocate; simpl. rewrite Hlay, Hend, Hcap, Hov, Hoc, Hnx. simpl default.
  rewrite !andb_false_r, Enx'.
  rewrite (add_usize_ok dbg (arena_allocs a + 1) 1), (add_usize_ok dbg (active_slots a + 1 - 1) 1) by lia.
  eexists. reflexivity.
Qed.

Lemma arena_alloc_dealloc_roundtrip_witness :
  let a := {| memory := 65536; arena_capacity := SLOT_CAPACITY * SLOT_SIZE;
              free_head := 3; cells := {[65536 + 3 * SLOT_SIZE := 7]}; arena_allocs := 3;
              arena_deallocs := 0; heap_fallback_allocs := 0; active_slots := 3;
              peak_active := 3 |} in
  exists a1 p, try_allocate true 100 8 a = Some (Some p, a1) /\
    (p = memory a + free_head a * SLOT_SIZE /\
     exists a2, try_deallocate true a1 p = Some (true, a2) /\
       free_head a2 = free_head a /\ cells a2 = cells a /\
       active_slots a2 = active_slots a /\ arena_deallocs a2 = arena_deallocs a + 1 /\
       exists a3, try_allocate true 100 8 a2 = Some (Some p, a3)).
Proof.
  intros a. do 2 eexists. split; [vm_compute; reflexivity|].
  apply (arena_alloc_dealloc_roundtrip true 100 8 a).
  all: vm_compute; first [reflexivity | discriminate | split; [discriminate|reflexivity] | eexists; reflexivity].
Defined.

End ArenaExtra.


Module TWExtra.
Import TW TWRun TWProofs TWRunProofs.

(** ** The clock *)

Lemma reinsert_clock w e :
  current_tick (reinsert w e) = current_tick w /\ start_time (reinsert w e) = start_time w.
Proof. unfold reinsert. destruct (insert_entry_fields (set_index w (delete (id e) (index w))) e) as [H1 [H2 _]]. by rewrite H1, H2. Qed.

Lemma fold_reinsert_clock l w :
  current_tick (fold_left reinsert l w) = current_tick w /\
  start_time (fold_left reinsert l w) = start_time w.
Proof.
  apply (fold_inv (fun w' => current_tick w' = current_tick w /\ start_time w' = start_time w));
    [|done]. intros a b _ [H1 H2]. destruct (reinsert_clock a b) as [R1 R2]. by rewrite R1, R2.
Qed.

Lemma expire_slot_clock w s :
  current_tick (expire_slot w s) = current_tick w /\ start_time (expire_slot w s) = start_time w.
Proof.
  unfold expire_slot. destruct (set_slot_fields w 0 s []) as [S1 [S2 _]].
  rewrite <- S1, <- S2. apply (fold_inv (fun w' => current_tick w' = current_tick (set_slot w 0 s []) /\
    start_time w' = start_time (set_slot w 0 s []))); [|done].
  intros a b _ [H1 H2]. simpl. done.
Qed.

Lemma cascade_slot_clock w l s :
  current_tick (cascade_slot w l s) = current_tick w /\ start_time (cascade_slot w l s) = start_time w.
Proof.
  unfold cascade_slot. case_bool_decide; [|done].
  destruct (set_slot_fields w l s []) as [S1 [S2 _]].
  destruct (fold_reinsert_clock (slot_of w l s) (set_slot w l s [])) as [F1 F2].
  by rewrite F1, F2.
Qed.

Lemma check_overflow_clock w :
  current_tick (check_overflow w) = current_tick w /\ start_time (check_overflow w) = start_time w.
Proof.
  unfold check_overflow.
  apply (fold_inv (fun w' => current_tick w' = current_tick w /\ start_time w' = start_time w));
    [|done].
  intros a k _ [H1 H2]. destruct (bt_remove k (overflow a)) as [[es o]|]; [|done].
  destruct (fold_reinsert_clock es (set_overflow a o)) as [F1 F2]. by rewrite F1, F2.
Qed.

Lemma tick_clock w :
  current_tick (tick w) = current_tick w + 1 /\ start_time (tick w) = start_time w.
Proof.
  unfold tick. cbv zeta.
  rewrite (proj1 (check_overflow_clock _)), (proj2 (check_overflow_clock _)).
  repeat match goal with |- context [if ?b then _ else _] => destruct b end;
  rewrite ?(proj1 (cascade_slot_clock _ _ _)), ?(proj2 (cascade_slot_clock _ _ _)),
    ?(proj1 (cascade_slot_clock _ _ _)), ?(proj2 (cascade_slot_clock _ _ _)),
    ?(proj1 (cascade_slot_clock _ _ _)), ?(proj2 (cascade_slot_clock _ _ _)),
    (proj1 (expire_slot_clock _ _)), (proj2 (expire_slot_clock _ _)); done.
Qed.

Lemma iter_tick_clock n w :
  current_tick (Nat.iter n tick w) = current_tick w + Z.of_nat n /\
  start_time (Nat.iter n tick w) = start_time w.
Proof.
  induction n as [|n [IH1 IH2]]; simpl Nat.iter; [split; [lia|done]|].
  destruct (tick_clock (Nat.iter n tick w)) as [T1 T2]. rewrite T1, T2, IH1, IH2. split; [lia|done].
Qed.

(** [advance_to] never moves the clock back, and brings it to the
    millisecond tick that contains [now]: once the wheel's time is not
    after [now], [current_time] after [advance_to now] is at most [now]
    and less than one millisecond before it.  The start instant is kept. *)
Theorem tw_advance_current_time (w : TimingWheel) (now : Z) :
  0 <= start_time w -> 0 <= current_tick w -> now < two64 ->
  start_time (advance_to w now) = start_time w /\
  current_time w <= current_time (advance_to w now) /\
  (current_time w <= now ->
     current_time (advance_to w now) <= now < current_time (advance_to w now) + NS_PER_MS).
Proof.
  intros Hs Ht Hn. unfold current_time, advance_to.
  destruct (now <=? start_time w) eqn:Hle.
  - apply Z.leb_le in Hle. split; [done|]. split; [lia|].
    intros H. unfold NS_PER_MS in *. nia.
  - apply Z.leb_gt in Hle.
    assert (Hq : 0 <= (now - start_time w) / NS_PER_MS) by (apply Z.div_pos; unfold NS_PER_MS; lia).
    rewrite Z.min_l.
    2:{ apply Z.div_le_upper_bound; [unfold NS_PER_MS; lia|]. unfold usize_max, two64, NS_PER_MS in *. lia. }
    set (T := (now - start_time w) / NS_PER_MS).
    set (n := Z.to_nat (T - current_tick w)).
    destruct (check_overflow_clock (Nat.iter n tick w)) as [C1 C2].
    destruct (iter_tick_clock n w) as [I1 I2]. rewrite C1, C2, I1, I2.
    split; [done|].
    pose proof (Z.mul_div_le (now - start_time w) NS_PER_MS ltac:(unfold NS_PER_MS; lia)).
    pose proof (Z.mod_pos_bound (now - start_time w) NS_PER_MS ltac:(unfold NS_PER_MS; lia)).
    pose proof (Z.div_mod (now - start_time w) NS_PER_MS ltac:(unfold NS_PER_MS; lia)).
    fold T in H, H0, H1.
    destruct (Z.le_gt_cases (current_tick w) T).
    + subst n. rewrite Z2Nat.id by lia. split; [unfold NS_PER_MS in *; nia|].
      intros _. replace (current_tick w + (T - current_tick w)) with T by lia. lia.
    + subst n. replace (Z.to_nat (T - current_tick w)) with 0%nat by lia. simpl Z.of_nat. rewrite Z.add_0_r.
      split; [lia|]. intros Hc. exfalso.
      assert (current_tick w * NS_PER_MS <= now - start_time w) by lia.
      assert (current_tick w <= T) by (apply Z.div_le_lower_bound; unfold NS_PER_MS in *; lia). lia.
Qed.

(** ** Insertion of a due timer *)

(** [insert] returns [next_id] and puts the new timer straight into the
    expired list exactly when its deadline falls before the end of the
    current millisecond tick ([expires_at < current_time + 1 ms]; an
    instant before the wheel's start counts as due); otherwise the
    expired list is left as it was. *)
Theorem tw_insert_expires_immediately (w : TimingWheel) (exp wk : Z) :
  0 <= start_time w -> 0 <= current_tick w -> exp < two64 ->
  fst (insert w exp wk) = next_id w /\
  (exp < current_time w + NS_PER_MS <->
     expired (snd (insert w exp wk)) = expired w ++ [mk_entry (next_id w) exp wk]) /\
  (current_time w + NS_PER_MS <= exp -> expired (snd (insert w exp wk)) = expired w).
Proof.
  intros Hs Ht Hn. unfold insert. cbv zeta. simpl fst. split; [done|].
  set (w1 := set_next_id w (wrapping_add (next_id w) 1)).
  set (e := mk_entry (next_id w) exp wk).
  assert (Hnot : current_time w + NS_PER_MS <= exp -> expired (insert_entry w1 e) = expired w).
  { intros Hle. unfold insert_entry.
    rewrite (deadline_ms_some w1 e) by (simpl; unfold current_time, NS_PER_MS in *; lia).
    assert (Hd : current_tick w1 < dms w1 e).
    { unfold dms; simpl. apply Z.lt_le_trans with (current_tick w + 1); [lia|].
      apply Z.div_le_lower_bound; unfold current_time, NS_PER_MS in *; lia. }
    rewrite (proj2 (Z.leb_gt _ _) Hd).
    repeat match goal with |- context [if ?b then _ else _] => destruct b end;
      try apply insert_at_level_fields; done. }
  split; [|exact Hnot].
  split.
  - intros Hlt. unfold insert_entry, deadline_ms. simpl.
    destruct (exp <? start_time w) eqn:E; [done|]. apply Z.ltb_ge in E.
    rewrite Z.min_l by (apply Z.div_le_upper_bound; unfold usize_max, two64, NS_PER_MS in *; lia).
    assert (Hd : (exp - start_time w) / NS_PER_MS <= current_tick w).
    { apply Z.lt_succ_r, Z.div_lt_upper_bound; unfold current_time, NS_PER_MS in *; lia. }
    rewrite (proj2 (Z.leb_le _ _) Hd). done.
  - intros Heq. destruct (Z.lt_ge_cases exp (current_time w + NS_PER_MS)) as [|Hge]; [done|].
    simpl snd in Heq. rewrite (Hnot Hge) in Heq. exfalso.
    apply (f_equal length) in Heq. rewrite length_app in Heq. simpl in Heq. lia.
Qed.


(** ** Wheels reached by inserts and removes *)

Lemma reach_struct base os :
  0 <= base -> Z.of_nat (length os) < two64 ->
  (forall exp wk, In (TIns exp wk) os -> 0 <= exp < two64) ->
  tw_struct (run (new_at base) os) [] /\ all (run (new_at base) os) ≡ₚ live os.
Proof.
  intros Hb Hlen Hex.
  destruct (wheel_run_inv os (new_at base) 0 [] (StagedProofs.ts_new_at base) (placed_new_at base Hb))
    as [R1 [_ [_ [_ [_ R6]]]]];
    [intros k es x []|done|done|done|simpl; lia|intros e []|done|done|].
  done.
Qed.

Lemma nodup_all w : tw_struct w [] -> NoDup (ids (all w)).
Proof. intros Hts. pose proof (ts_nodup _ _ Hts) as H. by rewrite app_nil_r in H. Qed.

(** On a wheel reached from [new_at base] by inserts and removes, [len]
    is the number of live timers; [advance_to] does not change it (an
    expired timer counts until it is drained), [is_empty] holds exactly
    when no timer is live, and [drain_expired] lowers [len] by the number
    of timers it hands out. *)
Theorem tw_len_counts_live (base now : Z) (os : list op) :
  0 <= base -> Z.of_nat (length os) < two64 ->
  (forall exp wk, In (TIns exp wk) os -> 0 <= exp < two64) ->
  len (run (new_at base) os) = Z.of_nat (length (live os)) /\
  len (advance_to (run (new_at base) os) now) = len (run (new_at base) os) /\
  (is_empty (advance_to (run (new_at base) os) now) = true <-> live os = []) /\
  len (snd (drain_expired (advance_to (run (new_at base) os) now))) =
    len (run (new_at base) os) -
      Z.of_nat (length (fst (drain_expired (advance_to (run (new_at base) os) now)))).
Proof.
  intros Hb Hlen Hex. destruct (reach_struct base os Hb Hlen Hex) as [Hts Hl].
  set (w := run (new_at base) os) in *.
  destruct (ts_advance_to w now Hts) as [Hts1 Hp1].
  destruct (ts_drain _ Hts1) as [Hts2 Hd].
  assert (E0 : len w = Z.of_nat (length (live os)))
    by (rewrite (ts_len_all _ Hts); f_equal; by apply Permutation_length).
  assert (E1 : len (advance_to w now) = len w)
    by (rewrite (ts_len_all _ Hts1), (ts_len_all _ Hts); f_equal; by apply Permutation_length).
  split; [exact E0|]. split; [exact E1|]. split.
  - unfold is_empty. rewrite E1, E0, Z.eqb_eq.
    split; [intros H; apply length_zero_iff_nil; lia|intros ->; reflexivity].
  - rewrite (ts_len_all _ Hts2), <- E1, (ts_len_all _ Hts1), Hd. unfold drain_expired. simpl fst.
    rewrite length_app, length_map. lia.
Qed.

(** On a wheel reached from [new_at base] by inserts and removes, then
    advanced to [now], [remove i] returns [true] exactly when a live
    timer has id [i], whether it is still pending or already expired and
    not yet drained; it takes out that timer and no other, lowers [len]
    by one, and a second [remove i] returns [false]. *)
Theorem tw_remove_live (base now i : Z) (os : list op) :
  0 <= base -> Z.of_nat (length os) < two64 ->
  (forall exp wk, In (TIns exp wk) os -> 0 <= exp < two64) ->
  let w := advance_to (run (new_at base) os) now in
  (fst (remove w i) = true <-> In i (ids (live os))) /\
  all (snd (remove w i)) ≡ₚ List.filter (fun e => negb (id e =? i)) (live os) /\
  len (snd (remove w i)) = len w - (if fst (remove w i) then 1 else 0) /\
  fst (remove (snd (remove w i)) i) = false.
Proof.
  intros Hb Hlen Hex w. destruct (reach_struct base os Hb Hlen Hex) as [Hts0 Hl0].
  destruct (ts_advance_to _ now Hts0) as [Hts Hp]. fold w in Hts, Hp.
  assert (Hl : all w ≡ₚ live os) by (by rewrite Hp).
  pose proof (nodup_all _ Hts) as Hnd.
  pose proof (ts_remove w i Hts) as Hr. destruct (remove w i) as [b w'] eqn:Hrem. simpl fst; simpl snd.
  destruct Hr as [Hts' [_ Hb']]. destruct b.
  - destruct Hb' as [e [Hei He]].
    assert (Hni : ~ In i (ids (all w'))).
    { apply (nodup_perm _ _ He) in Hnd. simpl in Hnd. apply NoDup_cons in Hnd as [Hnd _].
      rewrite <- Hei. by rewrite <- list_elem_of_In. }
    split; [|split; [|split]].
    + split; [intros _|done]. apply (In_perm _ _ _ (ids_perm _ _ Hl)). apply (In_perm _ _ _ (ids_perm _ _ (symmetry He))).
      simpl. by left.
    + rewrite <- (perm_filter _ _ _ Hl), (perm_filter _ _ _ He). simpl.
      rewrite Hei, Z.eqb_refl. simpl. rewrite filter_keep; [done|].
      intros x Hx. apply negb_true_iff, Z.eqb_neq. intros Hxi. apply Hni. rewrite <- Hxi. by apply In_ids_of.
    + rewrite (ts_len_all _ Hts'), (ts_len_all _ Hts), (Permutation_length He). simpl. lia.
    + pose proof (ts_remove w' i Hts') as Hr2. destruct (remove w' i) as [[] w''] eqn:E2; [|done].
      destruct Hr2 as [_ [_ [e' [Hei' He']]]]. exfalso. apply Hni. rewrite <- Hei'.
      apply In_ids_of. apply (In_perm _ _ _ (symmetry He')). by left.
  - destruct Hb' as [-> Hni]. split; [|split; [|split]].
    + split; [discriminate|]. intros Hin. exfalso. apply Hni. apply (In_perm _ _ _ (ids_perm _ _ (symmetry Hl))). done.
    + rewrite filter_keep; [done|].
      intros x Hx. apply negb_true_iff, Z.eqb_neq. intros Hxi. apply Hni. rewrite <- Hxi.
      apply In_ids_of. apply (In_perm _ _ _ (symmetry Hl)). done.
    + lia.
    + by rewrite Hrem.
Qed.

Lemma tw_advance_current_time_witness :
  let w := snd (insert (new_at 0) 3000000 1) in
  current_time (advance_to w 5500000) = 5000000 /\
  (start_time (advance_to w 5500000) = start_time w /\
   current_time w <= current_time (advance_to w 5500000) /\
   (current_time w <= 5500000 ->
      current_time (advance_to w 5500000) <= 5500000 <
        current_time (advance_to w 5500000) + NS_PER_MS)).
Proof.
  intros w. split; [vm_compute; reflexivity|].
  apply (tw_advance_current_time w 5500000); vm_compute; first [reflexivity|discriminate].
Defined.

Lemma tw_insert_expires_immediately_witness :
  let w := advance_to (new_at 0) 5000000 in
  expired (snd (insert w 5999999 1)) = [mk_entry 0 5999999 1] /\
  (fst (insert w 5999999 1) = next_id w /\
   (5999999 < current_time w + NS_PER_MS <->
      expired (snd (insert w 5999999 1)) = expired w ++ [mk_entry (next_id w) 5999999 1]) /\
   (current_time w + NS_PER_MS <= 5999999 -> expired (snd (insert w 5999999 1)) = expired w)).
Proof.
  intros w. split; [vm_compute; reflexivity|].
  apply (tw_insert_expires_immediately w 5999999 1); vm_compute; first [reflexivity|discriminate].
Defined.

Ltac tins_range := intros ? ? H; repeat (destruct H as [H|H]; [inversion H; subst; unfold two64; lia|]); destruct H.

Lemma tw_len_counts_live_witness :
  let os := [TIns 3000000 0; TIns 10000000 1; TRem 1; TIns 2000000 2] in
  len (run (new_at 0) os) = 2 /\
  (len (run (new_at 0) os) = Z.of_nat (length (live os)) /\
   len (advance_to (run (new_at 0) os) 5000000) = len (run (new_at 0) os) /\
   (is_empty (advance_to (run (new_at 0) os) 5000000) = true <-> live os = []) /\
   len (snd (drain_expired (advance_to (run (new_at 0) os) 5000000))) =
     len (run (new_at 0) os) -
       Z.of_nat (length (fst (drain_expired (advance_to (run (new_at 0) os) 5000000))))).
Proof.
  intros os. split; [vm_compute; reflexivity|].
  apply (tw_len_counts_live 0 5000000 os); [lia|vm_compute; reflexivity|tins_range].
Defined.

Lemma tw_remove_live_witness :
  let os := [TIns 3000000 0; TIns 10000000 1; TRem 1; TIns 2000000 2] in
  let w := advance_to (run (new_at 0) os) 5000000 in
  In (mk_entry 0 3000000 0) (expired w) /\
  ((fst (remove w 0) = true <-> In 0 (ids (live os))) /\
   all (snd (remove w 0)) ≡ₚ List.filter (fun e => negb (id e =? 0)) (live os) /\
   len (snd (remove w 0)) = len w - (if fst (remove w 0) then 1 else 0) /\
   fst (remove (snd (remove w 0)) 0) = false).
Proof.
  intros os w. split; [vm_compute; auto|].
  apply (tw_remove_live 0 5000000 0 os); [lia|vm_compute; reflexivity|tins_range].
Defined.

End TWExtra.


Module StagedExtra.
Import Staged StagedProofs.

Lemma filter_cons_true {A} (f : A -> bool) x l : f x = true -> List.filter f (x :: l) = x :: List.filter f l.
Proof. intros H. simpl. by rewrite H. Qed.

Lemma filter_cons_false {A} (f : A -> bool) x l : f x = false -> List.filter f (x :: l) = List.filter f l.
Proof. intros H. simpl. by rewrite H. Qed.

(** The inline loop of [advance_to], from position [i] with every timer
    before [i] still pending: it moves exactly the timers due at [now]
    (by their exact instant) to the expired list. *)
Lemma advance_inline_exact fuel now : forall i t e,
  (length t <= i + fuel)%nat ->
  (forall j x, (j < i)%nat -> t !! j = Some x -> now < TW.expires_at x) ->
  let (t', e') := advance_inline fuel now i t e in
  exists moved, e' = e ++ moved /\
    moved ≡ₚ List.filter (fun x => TW.expires_at x <=? now) t /\
    t' ≡ₚ List.filter (fun x => now <? TW.expires_at x) t.
Proof.
  induction fuel as [|fuel IH]; intros i t e Hf Hpre; simpl.
  - exists []. rewrite app_nil_r. split; [done|].
    rewrite (TWRunProofs.filter_drop (fun x => TW.expires_at x <=? now)),
      (TWRunProofs.filter_keep (fun x => now <? TW.expires_at x)); [done|..];
      intros x Hx; apply list_elem_of_In, list_elem_of_lookup in Hx as [j Hj];
      pose proof (lookup_lt_Some _ _ _ Hj); specialize (Hpre j x ltac:(lia) Hj);
      [apply Z.ltb_lt | apply Z.leb_gt]; lia.
  - destruct (t !! i) as [x|] eqn:Hx.
    + destruct (TW.expires_at x <=? now) eqn:Hle.
      * destruct (TWProofs.swap_remove_lookup t i x Hx) as [t1 Hsr]. rewrite Hsr.
        apply TWProofs.swap_remove_Some in Hsr as [_ [Hp [Hl Hj]]].
        pose proof (lookup_lt_Some _ _ _ Hx).
        specialize (IH i t1 (e ++ [x]) ltac:(lia)).
        destruct (advance_inline fuel now i t1 (e ++ [x])) as [t' e'].
        destruct IH as [mv [-> [H1 H2]]].
        { intros j y Hji Hy. destruct (Hj j y Hy) as [[_ Hy']|[-> _]]; [|lia].
          by apply (Hpre j). }
        exists (x :: mv). split; [by rewrite <- app_assoc|].
        rewrite (TWRunProofs.perm_filter _ _ _ Hp), (TWRunProofs.perm_filter _ _ _ Hp).
        rewrite filter_cons_true by done. rewrite filter_cons_false by (apply Z.ltb_ge, Z.leb_le; done).
        split; [by rewrite H1|done].
      * apply IH; [lia|]. intros j y Hj Hy.
        destruct (Nat.eq_dec j i) as [->|Hne]; [rewrite Hx in Hy; injection Hy as <-; lia|].
        apply (Hpre j); [lia|done].
    + exists []. rewrite app_nil_r. split; [done|].
      apply lookup_ge_None in Hx.
      rewrite (TWRunProofs.filter_drop (fun x => TW.expires_at x <=? now)),
        (TWRunProofs.filter_keep (fun x => now <? TW.expires_at x)); [done|..];
        intros y Hy; apply list_elem_of_In, list_elem_of_lookup in Hy as [j Hj];
        pose proof (lookup_lt_Some _ _ _ Hj); specialize (Hpre j y ltac:(lia) Hj);
        [apply Z.ltb_lt | apply Z.leb_gt]; lia.
Qed.

(** In inline mode, [advance_to now] moves to the expired list exactly
    the pending timers whose instant is at or before [now], to the
    nanosecond (no millisecond rounding, unlike the timing wheel), after
    the timers already expired, and keeps the others pending; both sets
    are kept up to permutation only, since the [swap_remove] loop
    reorders the timers.  The wheel stays inline, and its [current_time]
    stays the start instant whatever [now] is. *)
Theorem staged_inline_advance_exact (sw : StagedWheel) (t e : list TW.TimerEntry) (now : Z) :
  storage sw = Inline t e ->
  exists t' moved, storage (advance_to sw now) = Inline t' (e ++ moved) /\
    moved ≡ₚ List.filter (fun x => TW.expires_at x <=? now) t /\
    t' ≡ₚ List.filter (fun x => now <? TW.expires_at x) t /\
    current_time (advance_to sw now) = start_time sw.
Proof.
  intros Hs. unfold advance_to. rewrite Hs.
  pose proof (advance_inline_exact (length t) now 0 t e ltac:(lia)) as Ha.
  destruct (advance_inline (length t) now 0 t e) as [t' e'].
  destruct Ha as [mv [-> [H1 H2]]]; [intros j x Hj; lia|].
  exists t', mv. split_and!; try done.
Qed.

Lemma staged_inline_advance_exact_witness :
  let sw := mk_staged (Inline [TW.mk_entry 0 1000001 4; TW.mk_entry 1 999999 5] []) 2 0 in
  storage (advance_to sw 1000000) = Inline [TW.mk_entry 0 1000001 4] [TW.mk_entry 1 999999 5] /\
  (exists t' moved, storage (advance_to sw 1000000) = Inline t' ([] ++ moved) /\
    moved ≡ₚ List.filter (fun x => TW.expires_at x <=? 1000000)
                [TW.mk_entry 0 1000001 4; TW.mk_entry 1 999999 5] /\
    t' ≡ₚ List.filter (fun x => 1000000 <? TW.expires_at x)
                [TW.mk_entry 0 1000001 4; TW.mk_entry 1 999999 5] /\
    current_time (advance_to sw 1000000) = start_time sw).
Proof.
  intros sw. split; [vm_compute; reflexivity|].
  apply staged_inline_advance_exact. reflexivity.
Defined.

(** On a staged wheel reached from [new_at b], a timer that has expired
    but has not been drained yet can no longer be cancelled in inline
    mode: [remove] returns [false], changes nothing, and the next
    [drain_expired] still hands out its waker.  In wheel mode the same
    [remove] returns [true] and the drain no longer reports it. *)
Theorem staged_remove_expired (b : Z) (os : list op) (x : TW.TimerEntry) :
  Z.of_nat (count_ins os) < two64 ->
  In x (expired_of (fst (run (new_at b) os))) ->
  (storage_mode (fst (run (new_at b) os)) = inline ->
     remove (fst (run (new_at b) os)) (TW.id x) = (false, fst (run (new_at b) os)) /\
     In (TW.id x, TW.waker x) (fst (drain_expired (fst (run (new_at b) os))))) /\
  (storage_mode (fst (run (new_at b) os)) = wheel ->
     fst (remove (fst (run (new_at b) os)) (TW.id x)) = true /\
     ~ In (TW.id x) (map fst (fst (drain_expired (snd (remove (fst (run (new_at b) os)) (TW.id x))))))).
Proof.
  intros Hb Hx.
  pose proof (run_spec os (new_at b) (inv_new_at b) ltac:(simpl; lia)) as Hr.
  destruct (run (new_at b) os) as [sw issued]. simpl fst in *. destruct Hr as [Hinv _].
  pose proof Hinv as [_ [Hnd _]].
  pose proof (remove_spec sw (TW.id x) Hinv) as Hrm.
  destruct (remove sw (TW.id x)) as [r sw'] eqn:Hrem.
  destruct Hrm as [Hinv' [_ [_ [Hmode [_ Hr']]]]].
  split.
  - intros Hm. unfold storage_mode in Hm. destruct (storage sw) as [t e|w] eqn:Hs; [|discriminate].
    unfold expired_of in Hx. rewrite Hs in Hx.
    assert (Hnt : ~ In (TW.id x) (TW.ids t)).
    { unfold entries in Hnd. rewrite Hs in Hnd. intros Hin.
      apply TWProofs.In_ids in Hin as [y [Hy Hyx]].
      rewrite TWProofs.ids_app in Hnd. apply NoDup_app in Hnd as [_ [Hdis _]].
      apply (Hdis (TW.id x)); apply list_elem_of_In; [rewrite <- Hyx; by apply TWProofs.In_ids_of|by apply TWProofs.In_ids_of]. }
    destruct r.
    + destruct Hr' as [y [Hy Hp]]. exfalso.
      unfold remove in Hrem. rewrite Hs in Hrem.
      destruct (list_find (fun t0 => TW.id t0 = TW.id x) t) as [[pos z]|] eqn:Hf.
      * apply list_find_Some in Hf as [Hz [Hid _]]. apply Hnt. rewrite <- Hid.
        apply TWProofs.In_ids_of. apply list_elem_of_In, list_elem_of_lookup. eauto.
      * discriminate.
    + destruct Hr' as [-> _]. split; [done|].
      unfold drain_expired. rewrite Hs. simpl. apply in_map_iff. eauto.
  - intros Hm. unfold storage_mode in Hm. destruct (storage sw) as [t e|w] eqn:Hs; [discriminate|].
    unfold expired_of in Hx. rewrite Hs in Hx. simpl.
    destruct r.
    + split; [done|]. destruct Hr' as [y [Hy Hp]].
      assert (Hsw : storage_mode sw' = wheel) by (rewrite Hmode; unfold storage_mode; by rewrite Hs).
      unfold storage_mode in Hsw. destruct (storage sw') as [|w'] eqn:Hs'; [discriminate|].
      assert (Hni : ~ In (TW.id x) (TW.ids (entries sw'))).
      { apply (TWProofs.nodup_perm _ _ Hp) in Hnd. simpl in Hnd. apply NoDup_cons in Hnd as [Hnd _].
        rewrite <- Hy. by rewrite <- list_elem_of_In. }
      unfold drain_expired. rewrite Hs'. simpl. rewrite map_map. simpl.
      intros Hin. apply Hni. unfold entries. rewrite Hs'. unfold TW.all, TW.ids.
      rewrite map_app. apply in_or_app. left. exact Hin.
    + exfalso. destruct Hr' as [_ Hni]. apply Hni. unfold cancellable. rewrite Hs.
      apply TWProofs.In_ids_of. unfold TW.all. apply in_or_app. by left.
Qed.

Lemma staged_remove_expired_witness :
  let os := [Ins 1000000 5; Ins 9000000 6; Adv 2000000] in
  storage_mode (fst (run (new_at 0) os)) = inline /\
  ((storage_mode (fst (run (new_at 0) os)) = inline ->
     remove (fst (run (new_at 0) os)) (TW.id (TW.mk_entry 0 1000000 5)) = (false, fst (run (new_at 0) os)) /\
     In (TW.id (TW.mk_entry 0 1000000 5), TW.waker (TW.mk_entry 0 1000000 5))
        (fst (drain_expired (fst (run (new_at 0) os))))) /\
   (storage_mode (fst (run (new_at 0) os)) = wheel ->
     fst (remove (fst (run (new_at 0) os)) (TW.id (TW.mk_entry 0 1000000 5))) = true /\
     ~ In (TW.id (TW.mk_entry 0 1000000 5))
        (map fst (fst (drain_expired (snd (remove (fst (run (new_at 0) os)) (TW.id (TW.mk_entry 0 1000000 5))))))))).
Proof.
  intros os. split; [vm_compute; reflexivity|].
  apply (staged_remove_expired 0 os (TW.mk_entry 0 1000000 5)).
  - vm_compute; reflexivity.
  - vm_compute. left. reflexivity.
Defined.

End StagedExtra.


Module ReactorExtra.
Import Reactor ReactorProofs.

Lemma min_fold_spec (m : gmap Z Z) :
  let r := map_fold (fun _ v acc => match acc with None => Some v | Some a => Some (Z.min a v) end) None m in
  (r = None <-> m = ∅) /\
  (forall a, r = Some a -> (forall i e, m !! i = Some e -> a <= e) /\ exists i, m !! i = Some a).
Proof.
  apply (map_fold_weak_ind (fun r m => (r = None <-> m = ∅) /\
    (forall a, r = Some a -> (forall i e, m !! i = Some e -> a <= e) /\ exists i, m !! i = Some a))).
  - split; [done|]. intros a [=].
  - intros i x m0 r Hi [IH1 IH2]. split.
    + split; [destruct r; discriminate|]. intros Hm. exfalso. by apply (insert_non_empty m0 i x).
    + intros a Ha. destruct r as [a0|].
      * injection Ha as <-. destruct (IH2 a0 eq_refl) as [Hle [j Hj]]. split.
        -- intros k e Hk. rewrite lookup_insert in Hk. case_decide; [injection Hk as <-; lia|].
           specialize (Hle k e Hk). lia.
        -- destruct (Z.le_gt_cases a0 x).
           ++ exists j. rewrite Z.min_l by lia. rewrite lookup_insert_ne; [done|].
              intros ->. congruence.
           ++ exists i. rewrite Z.min_r by lia. apply lookup_insert_eq.
      * injection Ha as <-. assert (m0 = ∅) as -> by (by apply IH1). split.
        -- intros k e Hk. rewrite lookup_insert in Hk. case_decide; [injection Hk as <-; lia|].
           by rewrite lookup_empty in Hk.
        -- exists i. apply lookup_insert_eq.
Qed.

(** [process_timers now] reports [None] as the next timer duration
    exactly when no timer is left tracked ([is_empty]); otherwise it
    reports the time from [now] to the earliest remaining expiry,
    saturated at [0] for an expiry already past. *)
Theorem process_timers_next_duration (rt : ReactorTimers) (now : Z) :
  (fst (fst (process_timers rt now)) = None <-> is_empty (snd (process_timers rt now)) = true) /\
  (forall d, fst (fst (process_timers rt now)) = Some d ->
     (forall i e, id_to_expiry (snd (process_timers rt now)) !! i = Some e -> d <= Z.max 0 (e - now)) /\
     exists i e, id_to_expiry (snd (process_timers rt now)) !! i = Some e /\ d = Z.max 0 (e - now)).
Proof.
  unfold process_timers.
  destruct (Staged.drain_expired (Staged.advance_to (wheel rt) now)) as [ex w]. simpl.
  set (m := fold_left (fun m p => delete (fst p) m) ex (id_to_expiry rt)).
  destruct (min_fold_spec m) as [H1 H2].
  unfold is_empty; simpl. rewrite bool_decide_eq_true.
  destruct (map_fold _ None m) as [a|] eqn:Ha; simpl.
  - split; [split; [discriminate|intros He; apply H1 in He; discriminate]|].
    intros d [= <-]. destruct (H2 a eq_refl) as [Hle [i Hi]]. split.
    + intros j e Hj. specialize (Hle j e Hj). lia.
    + eauto.
  - split; [split; [intros _; by apply H1|done]|]. intros d [=].
Qed.

Lemma remove_twice_rinv rt tid :
  rinv rt ->
  fst (remove rt tid) = exists_ rt tid /\
  len (snd (remove rt tid)) = (len rt - if fst (remove rt tid) then 1 else 0)%nat /\
  exists_ (snd (remove rt tid)) tid = false /\
  fst (remove (snd (remove rt tid)) tid) = false.
Proof.
  intros Hr. pose proof Hr as [_ [Hdom _]].
  pose proof (rremove_spec rt tid Hr) as Hm.
  destruct (remove rt tid) as [r rt1] eqn:Hrem. simpl fst; simpl snd.
  destruct Hm as [Hr1 [_ [Hb1 [_ Hm1]]]].
  pose proof (rremove_spec rt1 tid Hr1) as Hm2.
  destruct (remove rt1 tid) as [r2 rt2]. simpl fst.
  destruct Hm2 as [_ [_ [Hb2 _]]].
  pose proof Hr1 as [_ [Hdom1 _]].
  assert (Hn1 : ~ is_Some (id_to_expiry rt1 !! index tid)).
  { rewrite Hm1, lookup_delete_eq. by intros [? ?]. }
  split_and!.
  - unfold exists_. destruct r.
    + symmetry. apply bool_decide_eq_true_2. apply Hdom, Hb1. done.
    + symmetry. apply bool_decide_eq_false_2. rewrite Hdom, <- Hb1. discriminate.
  - unfold len. rewrite Hm1. destruct r.
    + assert (Hs : is_Some (id_to_expiry rt !! index tid)) by (apply Hdom, Hb1; done).
      destruct Hs as [v Hv]. rewrite map_size_delete, Hv. lia.
    + assert (Hs : id_to_expiry rt !! index tid = None).
      { apply eq_None_not_Some. rewrite Hdom, <- Hb1. discriminate. }
      rewrite map_size_delete, Hs. unfold id. lia.
  - unfold exists_. by apply bool_decide_eq_false_2.
  - destruct r2; [|done]. exfalso. apply Hn1, Hdom1, Hb2. done.
Qed.

Lemma reach_rinv b os :
  Z.of_nat (count_ins os) < two64 -> rinv (fst (run (new_at b) os)).
Proof.
  intros Hb. pose proof (rrun_spec os (new_at b) (rinv_new_at b) ltac:(simpl; lia)) as Hr.
  destruct (run (new_at b) os) as [rt issued]. by destruct Hr.
Qed.

(** On a reactor reached from [new_at b], [remove tid] returns what
    [exists tid] said before, lowers [len] by one when it returns [true]
    and keeps it otherwise, and leaves no timer under that index: [exists]
    is then false and a second [remove] returns [false]. *)
Theorem reactor_remove_twice (b : Z) (os : list op) (tid : TimerId) :
  Z.of_nat (count_ins os) < two64 ->
  fst (remove (fst (run (new_at b) os)) tid) = exists_ (fst (run (new_at b) os)) tid /\
  len (snd (remove (fst (run (new_at b) os)) tid)) =
    (len (fst (run (new_at b) os)) - if fst (remove (fst (run (new_at b) os)) tid) then 1 else 0)%nat /\
  exists_ (snd (remove (fst (run (new_at b) os)) tid)) tid = false /\
  fst (remove (snd (remove (fst (run (new_at b) os)) tid)) tid) = false.
Proof.
  intros Hb. exact (remove_twice_rinv _ tid (reach_rinv b os Hb)).
Qed.

Lemma len_entries rt : rinv rt -> len rt = length (Staged.entries (wheel rt)).
Proof.
  intros [[_ [Hnd _]] [Hdom _]]. unfold len.
  unfold TW.ids in Hnd. rewrite <- (length_map TW.id (Staged.entries (wheel rt))).
  rewrite <- (size_list_to_set (C:=gset Z) _ Hnd), <- size_dom. f_equal.
  apply set_eq. intros i. rewrite elem_of_dom, elem_of_list_to_set, Hdom.
  symmetry. apply list_elem_of_In.
Qed.

(** On a reactor reached from [new_at b], [process_timers now] accounts
    for every timer: the number it reports woken plus the [len] left
    afterwards is the [len] before. *)
Theorem reactor_process_counts (b : Z) (os : list op) (now : Z) :
  Z.of_nat (count_ins os) < two64 ->
  (len (snd (process_timers (fst (run (new_at b) os)) now)) +
   snd (fst (process_timers (fst (run (new_at b) os)) now)) =
   len (fst (run (new_at b) os)))%nat.
Proof.
  intros Hb. pose proof (reach_rinv b os Hb) as Hr.
  set (rt := fst (run (new_at b) os)) in *.
  destruct (rprocess_spec rt now Hr) as [Hr' _].
  rewrite (len_entries _ Hr'), (len_entries _ Hr).
  pose proof Hr as [Hinv _]. clear Hr'.
  unfold process_timers.
  destruct (StagedProofs.advance_spec (wheel rt) now Hinv) as [Hinv1 [_ [_ [Hp1 _]]]].
  pose proof (StagedProofs.drain_spec _ Hinv1) as Hd.
  destruct (Staged.drain_expired (Staged.advance_to (wheel rt) now)) as [d w2]. simpl.
  destruct Hd as [_ [_ [_ [_ [-> [Hp2 _]]]]]].
  rewrite length_map, <- (Permutation_length Hp1), (Permutation_length Hp2), length_app. lia.
Qed.

Lemma reactor_remove_twice_witness :
  let os := [RIns 3000000 1; RIns 9000000 2; RProc 1000000] in
  len (fst (run (new_at 0) os)) = 2%nat /\
  fst (remove (fst (run (new_at 0) os)) (of_internal 1)) = true /\
  (fst (remove (fst (run (new_at 0) os)) (of_internal 1)) = exists_ (fst (run (new_at 0) os)) (of_internal 1) /\
   len (snd (remove (fst (run (new_at 0) os)) (of_internal 1))) =
     (len (fst (run (new_at 0) os)) - if fst (remove (fst (run (new_at 0) os)) (of_internal 1)) then 1 else 0)%nat /\
   exists_ (snd (remove (fst (run (new_at 0) os)) (of_internal 1))) (of_internal 1) = false /\
   fst (remove (snd (remove (fst (run (new_at 0) os)) (of_internal 1))) (of_internal 1)) = false).
Proof.
  intros os. split; [vm_compute; reflexivity|]. split; [vm_compute; reflexivity|].
  apply (reactor_remove_twice 0 os (of_internal 1)). vm_compute. reflexivity.
Defined.

Lemma reactor_process_counts_witness :
  let os := [RIns 3000000 1; RIns 9000000 2; RIns 7000000 3; RRem (of_internal 1)] in
  snd (fst (process_timers (fst (run (new_at 0) os)) 8000000)) = 2%nat /\
  (len (snd (process_timers (fst (run (new_at 0) os)) 8000000)) +
   snd (fst (process_timers (fst (run (new_at 0) os)) 8000000)) =
   len (fst (run (new_at 0) os)))%nat.
Proof.
  intros os. split; [vm_compute; reflexivity|].
  apply (reactor_process_counts 0 os 8000000). vm_compute. reflexivity.
Defined.

End ReactorExtra.
